(** * PoolGraph: the join/exit tree of a nested Balancer pool

    A shallow embedding of [balancer-js/src/modules/joins/graph.ts].

    Nodes of the source are JavaScript objects that are shared and mutated
    in place ([marked], [index], [children]).  They are modelled as cells of
    a heap, addressed by handles; every function that creates or mutates a
    node threads the heap.  Exceptions are modelled by the [result] monad. *)

From Stdlib Require Import ZArith Lia String Ascii List DecimalString.
From stdpp Require Import base option list strings gmap.

(** ** Failures *)

Inductive error : Type :=
  | POOL_DOESNT_EXIST       (* BalancerErrorCode.POOL_DOESNT_EXIST *)
  | UNSUPPORTED_POOL_TYPE   (* BalancerErrorCode.UNSUPPORTED_POOL_TYPE *)
  | INPUT_TOKEN_INVALID     (* BalancerErrorCode.INPUT_TOKEN_INVALID *)
  | IssueWithLinearPool     (* new Error('Issue With Linear Pool') *)
  | TypeError               (* property read on undefined *)
  | DivisionByZero          (* BigNumber.div by zero: NUMERIC_FAULT *)
  | InvalidBigNumber        (* BigNumber.from(undefined) *)
  | ExternalFailure         (* Pools.wrap or calcSpotPrice threw *)
  | OutOfFuel               (* the source does not terminate *)
  | DanglingHandle.         (* a handle outside the heap: no source counterpart *)

Inductive result (A : Type) : Type :=
  | Ok (a : A)
  | Err (e : error).
Arguments Ok {A} a.
Arguments Err {A} e.

#[global] Instance result_ret : MRet result := fun _ a => Ok a.
#[global] Instance result_bind : MBind result := fun _ _ f m =>
  match m with
  | Ok a => f a
  | Err e => Err e
  end.

Definition fromOption {A} (e : error) (o : option A) : result A :=
  match o with
  | Some a => Ok a
  | None => Err e
  end.

(** ** Strings and numbers *)

(** [Number.prototype.toString] on a natural number. *)
Definition toString (n : nat) : string := NilZero.string_of_uint (Nat.to_uint n).

Definition lowerAscii (c : ascii) : ascii :=
  let n := nat_of_ascii c in
  if (Nat.leb 65 n && Nat.leb n 90)%bool then ascii_of_nat (n + 32) else c.

(** [String.prototype.toLowerCase], on the ASCII letters of an address. *)
Fixpoint toLowerCase (s : string) : string :=
  match s with
  | EmptyString => EmptyString
  | String c r => String (lowerAscii c) (toLowerCase r)
  end.

Fixpoint startsWith (p s : string) : bool :=
  match p, s with
  | EmptyString, _ => true
  | String a p', String b s' => if Ascii.eqb a b then startsWith p' s' else false
  | String _ _, EmptyString => false
  end.

(** [String.prototype.includes]. *)
Fixpoint includes (s sub : string) : bool :=
  (startsWith sub s ||
   match s with
   | EmptyString => false
   | String _ s' => includes s' sub
   end)%bool.

(** [Array.prototype.indexOf]; [None] stands for the source's [-1]. *)
Fixpoint indexOfFrom (i : nat) (l : list string) (x : string) : option nat :=
  match l with
  | [] => None
  | y :: l' => if String.eqb y x then Some i else indexOfFrom (S i) l' x
  end.
Definition indexOf (l : list string) (x : string) : option nat := indexOfFrom 0 l x.

(** [WeiPerEther] and [(1e18).toString()]. *)
Definition WeiPerEther : Z := (10 ^ 18)%Z.

(** [BigNumber.div]: truncating division, throwing on a zero divisor. *)
Definition bn_div (a b : Z) : result Z :=
  if Z.eqb b 0 then Err DivisionByZero else Ok (Z.quot a b).

(** ** Data model *)

Inductive JoinAction : Type :=
  | join_input | join_batchSwap | join_wrap | join_joinPool
  | join_wrapAaveDynamicToken | join_wrapERC4626.

Inductive ExitAction : Type :=
  | exit_output | exit_batchSwap | exit_unwrap | exit_exitPool
  | exit_unwrapAaveStaticToken | exit_unwrapERC4626.

Definition JoinAction_eqb (a b : JoinAction) : bool :=
  match a, b with
  | join_input, join_input | join_batchSwap, join_batchSwap
  | join_wrap, join_wrap | join_joinPool, join_joinPool
  | join_wrapAaveDynamicToken, join_wrapAaveDynamicToken
  | join_wrapERC4626, join_wrapERC4626 => true
  | _, _ => false
  end.

(** A handle is the position of a node in the heap. *)
Abbreviation ref := nat.

Module Node.
(** [interface Node].  [address] is optional because the source fills it
    from [tokensList[i]], which is [undefined] out of range. *)
Record t : Type := mk {
  address : option string;
  id : string;
  joinAction : JoinAction;
  exitAction : ExitAction;
  type : string;
  children : list ref;
  marked : bool;
  index : string;
  proportionOfParent : Z;
  parent : option ref;
  isLeaf : bool;
  spotPrices : gmap string string;
  decimals : nat
}.

Definition set_children (cs : list ref) (n : t) : t :=
  mk (address n) (id n) (joinAction n) (exitAction n) (type n) cs (marked n)
     (index n) (proportionOfParent n) (parent n) (isLeaf n) (spotPrices n)
     (decimals n).

Definition set_marked (b : bool) (n : t) : t :=
  mk (address n) (id n) (joinAction n) (exitAction n) (type n) (children n) b
     (index n) (proportionOfParent n) (parent n) (isLeaf n) (spotPrices n)
     (decimals n).

Definition set_index (i : string) (n : t) : t :=
  mk (address n) (id n) (joinAction n) (exitAction n) (type n) (children n)
     (marked n) i (proportionOfParent n) (parent n) (isLeaf n) (spotPrices n)
     (decimals n).

Definition set_proportionOfParent (p : Z) (n : t) : t :=
  mk (address n) (id n) (joinAction n) (exitAction n) (type n) (children n)
     (marked n) (index n) p (parent n) (isLeaf n) (spotPrices n) (decimals n).

(** [children.push(c)] *)
Definition push_child (c : ref) (n : t) : t := set_children (children n ++ [c]) n.
End Node.

Module Token.
(** The fields of a pool token that the graph reads. *)
Record t : Type := mk {
  address : string;
  decimals : option nat
}.
End Token.

Module Pool.
(** The fields of a [Pool] record that the graph reads.  [parsedBalances]
    stands for [parsePoolInfo(pool).parsedBalances], whose code is outside
    this module. *)
Record t : Type := mk {
  id : string;
  address : string;
  poolType : string;
  tokens : list Token.t;
  tokensList : list string;
  mainIndex : option nat;
  wrappedIndex : option nat;
  parsedBalances : list Z
}.
End Pool.

(** ** The heap of nodes *)

Abbreviation heap := (list Node.t).

Definition alloc (st : heap) (n : Node.t) : heap * ref := (st ++ [n], length st).

Definition deref (st : heap) (r : ref) : result Node.t :=
  fromOption DanglingHandle (st !! r).

Definition update (st : heap) (r : ref) (f : Node.t -> Node.t) : result heap :=
  n ← deref st r; Ok (<[r := f n]> st).

(** [node.address.toLowerCase()] *)
Definition lowerAddress (n : Node.t) : result string :=
  a ← fromOption TypeError (Node.address n); Ok (toLowerCase a).

Module PoolGraph.

(** *** [createInputTokenNode] *)
Definition createInputTokenNode (st : heap) (nodeIndex : nat)
    (address : option string) (decimals : nat) (parent : option ref)
    (proportionOfParent : Z) : heap * ref * nat :=
  let '(st', r) := alloc st
    {| Node.address := address;
       Node.id := "N/A";
       Node.type := "Input";
       Node.children := [];
       Node.marked := false;
       Node.joinAction := join_input;
       Node.exitAction := exit_output;
       Node.index := toString nodeIndex;
       Node.parent := parent;
       Node.proportionOfParent := proportionOfParent;
       Node.isLeaf := true;
       Node.spotPrices := ∅;
       Node.decimals := decimals |} in
  (st', r, S nodeIndex).

(** *** [orderByBfs] *)

(** [currentNode.children.forEach(c => if (!c.marked) { c.marked = true;
    nodes.push(c) })] *)
Fixpoint markChildren (st : heap) (cs : list ref) (nodes : list ref)
    : result (heap * list ref) :=
  match cs with
  | [] => Ok (st, nodes)
  | c :: cs' =>
      n ← deref st c;
      if Node.marked n then markChildren st cs' nodes
      else markChildren (<[c := Node.set_marked true n]> st) cs' (nodes ++ [c])
  end.

(** The [while (nodes.length > 0)] loop. *)
Fixpoint bfsLoop (fuel : nat) (st : heap) (nodes orderedNodes : list ref)
    {struct fuel} : result (heap * list ref) :=
  match nodes with
  | [] => Ok (st, orderedNodes)
  | currentNode :: rest =>
      match fuel with
      | O => Err OutOfFuel
      | S fuel' =>
          n ← deref st currentNode;
          '(st', nodes') ← markChildren st (Node.children n) rest;
          bfsLoop fuel' st' nodes' (orderedNodes ++ [currentNode])
      end
  end.

(** Every node enters the queue at most once, so the loop runs at most
    [length st] times. *)
Definition orderByBfs (st : heap) (root : ref) : result (heap * list ref) :=
  n ← deref st root;
  bfsLoop (length st) (<[root := Node.set_marked true n]> st) [root] [].

(** *** [getNodesToRoot] *)

(** [orderedNodes.find(node => node.address.toLowerCase() ===
    inputToken.toLowerCase())] *)
Fixpoint findNode (st : heap) (nodes : list ref) (inputToken : string)
    : result (option ref) :=
  match nodes with
  | [] => Ok None
  | r :: rest =>
      n ← deref st r;
      a ← lowerAddress n;
      if String.eqb a (toLowerCase inputToken) then Ok (Some r)
      else findNode st rest inputToken
  end.

(** [node.children.filter(node => node.address.toLowerCase() !==
    nodesToRoot[0].address.toLowerCase())] *)
Fixpoint filterChildren (st : heap) (first : ref) (cs : list ref)
    : result (list ref) :=
  match cs with
  | [] => Ok []
  | c :: cs' =>
      n ← deref st c;
      a ← lowerAddress n;
      f ← deref st first;
      fa ← lowerAddress f;
      kept ← filterChildren st first cs';
      Ok (if String.eqb a fa then kept else c :: kept)
  end.

(** [.map(n => { n.index = '0'; return n; })]: the nodes themselves are
    written, the array returned holds the same nodes. *)
Fixpoint zeroIndices (st : heap) (cs : list ref) : result heap :=
  match cs with
  | [] => Ok st
  | c :: cs' =>
      st' ← update st c (Node.set_index "0");
      zeroIndices st' cs'
  end.

(** The [while (parentNode !== undefined)] loop. *)
Fixpoint walkToRoot (fuel : nat) (st : heap) (parentNode : option ref)
    (index startingIndex : nat) (nodesToRoot : list ref) {struct fuel}
    : result (heap * list ref) :=
  match parentNode with
  | None => Ok (st, nodesToRoot)
  | Some p =>
      match fuel with
      | O => Err OutOfFuel
      | S fuel' =>
          pn ← deref st p;
          (* const node = { ...parentNode } and its two assignments *)
          let node :=
            Node.set_index (toString index)
              (Node.set_proportionOfParent 0%Z pn) in
          '(st1, node1) ←
            (if Nat.eqb (index - 1) startingIndex then
               first ← fromOption TypeError (head nodesToRoot);
               childrenWithoutRoot ← filterChildren st first (Node.children node);
               st' ← zeroIndices st childrenWithoutRoot;
               Ok (st', Node.set_children (childrenWithoutRoot ++ [first]) node)
             else Ok (st, node));
          let '(st2, r) := alloc st1 node1 in
          walkToRoot fuel' st2 (Node.parent pn) (S index) startingIndex
            (nodesToRoot ++ [r])
      end
  end.

(** A parent chain without a cycle has at most [length st] nodes, so the
    walk runs out of fuel only where the source loops for ever. *)
Definition getNodesToRoot (st : heap) (orderedNodes : list ref)
    (inputToken : string) (startingIndex : nat) : result (heap * list ref) :=
  let index := startingIndex in
  lastRef ← fromOption TypeError (last orderedNodes);
  lastNode ← deref st lastRef;
  la ← lowerAddress lastNode;
  if String.eqb (toLowerCase inputToken) la then Err INPUT_TOKEN_INVALID
  else
    found ← findNode st orderedNodes inputToken;
    match found with
    | None => Err INPUT_TOKEN_INVALID
    | Some inputRef =>
        inputNode ← deref st inputRef;
        let '(st1, nodesToRoot) :=
          if negb (JoinAction_eqb (Node.joinAction inputNode) join_input) then
            let '(st', inputTokenNode, _) :=
              createInputTokenNode st startingIndex (Some inputToken)
                (Node.decimals inputNode) (Node.parent inputNode) WeiPerEther in
            (st', [inputTokenNode])
          else
            (* const inputTokenNode = { ...inputNode }: a fresh object gets
               the two assignments, and [inputNode] itself is pushed *)
            let '(st', _) :=
              alloc st
                (Node.set_index "0"
                   (Node.set_proportionOfParent WeiPerEther inputNode)) in
            (st', [inputRef]) in
        let index := S index in
        walkToRoot (length st) st1 (Node.parent inputNode) index startingIndex
          nodesToRoot
    end.

(** *** [getLeafAddresses] *)
Definition getLeafAddresses (st : heap) (nodes : list ref)
    : result (list (option string)) :=
  ns ← mapM (deref st) nodes;
  Ok (map Node.address (filter (fun n => Node.isLeaf n = true) ns)).

(** *** The action tables *)

(** The [PoolType] enumeration is declared outside this module; a pool
    type is carried as the string of its member, each member being the
    string of its own name. *)
Definition joinActions (poolType : string) : option JoinAction :=
  if String.eqb poolType "AaveLinear" then Some join_batchSwap
  else if String.eqb poolType "ERC4626Linear" then Some join_batchSwap
  else if String.eqb poolType "Element" then Some join_batchSwap
  else if String.eqb poolType "Investment" then Some join_joinPool
  else if String.eqb poolType "LiquidityBootstrapping" then Some join_joinPool
  else if String.eqb poolType "MetaStable" then Some join_joinPool
  else if String.eqb poolType "Stable" then Some join_joinPool
  else if String.eqb poolType "StablePhantom" then Some join_batchSwap
  else if String.eqb poolType "Weighted" then Some join_joinPool
  else if String.eqb poolType "ComposableStable" then Some join_joinPool
  else None.

Definition exitActions (poolType : string) : option ExitAction :=
  if String.eqb poolType "AaveLinear" then Some exit_batchSwap
  else if String.eqb poolType "ERC4626Linear" then Some exit_batchSwap
  else if String.eqb poolType "Element" then Some exit_batchSwap
  else if String.eqb poolType "Investment" then Some exit_exitPool
  else if String.eqb poolType "LiquidityBootstrapping" then Some exit_exitPool
  else if String.eqb poolType "MetaStable" then Some exit_exitPool
  else if String.eqb poolType "Stable" then Some exit_exitPool
  else if String.eqb poolType "StablePhantom" then Some exit_batchSwap
  else if String.eqb poolType "Weighted" then Some exit_exitPool
  else if String.eqb poolType "ComposableStable" then Some exit_exitPool
  else None.

(** *** [getTokenTotal] *)

(** [parsedBalances.forEach((balance, i) => { if (bptIndex !== i) total =
    total.add(balance) })] *)
Fixpoint addBalances (bptIndex : option nat) (i : nat) (balances : list Z)
    (total : Z) : Z :=
  match balances with
  | [] => total
  | balance :: rest =>
      addBalances bptIndex (S i) rest
        (if decide (bptIndex = Some i) then total else (total + balance)%Z)
  end.

Definition getTokenTotal (pool : Pool.t) : Z :=
  let bptIndex := indexOf (Pool.tokensList pool) (Pool.address pool) in
  addBalances bptIndex 0 (Pool.parsedBalances pool) 0%Z.

(** *** [createWrappedTokenNode] and [createLinearNodeChildren] *)

Definition createWrappedTokenNode (st : heap) (linearPool : Pool.t)
    (nodeIndex : nat) (parent : option ref) (proportionOfParent : Z)
    : result (heap * ref * nat) :=
  match Pool.wrappedIndex linearPool, Pool.mainIndex linearPool with
  | Some wrappedIndex, Some mainIndex =>
      let joinAction :=
        if String.eqb (Pool.poolType linearPool) "ERC4626Linear"
        then join_wrapERC4626 else join_wrapAaveDynamicToken in
      let exitAction :=
        if String.eqb (Pool.poolType linearPool) "ERC4626Linear"
        then exit_unwrapERC4626 else exit_unwrapAaveStaticToken in
      let '(st1, wrappedTokenNode) := alloc st
        {| Node.type := "WrappedToken";
           Node.address := Pool.tokensList linearPool !! wrappedIndex;
           Node.id := "N/A";
           Node.children := [];
           Node.marked := false;
           Node.joinAction := joinAction;
           Node.exitAction := exitAction;
           Node.index := toString nodeIndex;
           Node.parent := parent;
           Node.proportionOfParent := proportionOfParent;
           Node.isLeaf := false;
           Node.spotPrices := ∅;
           Node.decimals := 18 |} in
      let nodeIndex := S nodeIndex in
      mainToken ← fromOption TypeError (Pool.tokens linearPool !! mainIndex);
      let mainTokenDecimals := default 18%nat (Token.decimals mainToken) in
      let '(st2, inputNode, nodeIndex) :=
        createInputTokenNode st1 nodeIndex
          (Pool.tokensList linearPool !! mainIndex) mainTokenDecimals
          (Some wrappedTokenNode) proportionOfParent in
      st3 ← update st2 wrappedTokenNode (Node.set_children [inputNode]);
      Ok (st3, wrappedTokenNode, nodeIndex)
  | _, _ => Err IssueWithLinearPool
  end.

Definition createLinearNodeChildren (st : heap) (linearPoolNode : ref)
    (nodeIndex : nat) (linearPool : Pool.t) (wrapMainTokens : bool)
    : result (heap * ref * nat) :=
  if wrapMainTokens then
    ln ← deref st linearPoolNode;
    '(st1, wrappedNode, nodeIndex) ←
      createWrappedTokenNode st linearPool nodeIndex (Some linearPoolNode)
        (Node.proportionOfParent ln);
    st2 ← update st1 linearPoolNode (Node.push_child wrappedNode);
    Ok (st2, linearPoolNode, nodeIndex)
  else
    match Pool.mainIndex linearPool with
    | None => Err IssueWithLinearPool
    | Some mainIndex =>
        mainToken ← fromOption TypeError (Pool.tokens linearPool !! mainIndex);
        let mainTokenDecimals := default 18%nat (Token.decimals mainToken) in
        ln ← deref st linearPoolNode;
        let '(st1, inputNode, nodeIndex) :=
          createInputTokenNode st nodeIndex
            (Pool.tokensList linearPool !! mainIndex) mainTokenDecimals
            (Some linearPoolNode) (Node.proportionOfParent ln) in
        st2 ← update st1 linearPoolNode (Node.push_child inputNode);
        Ok (st2, linearPoolNode, nodeIndex)
    end.

(** *** [buildGraphFromPool] and [buildGraphFromRootPool] *)

(** The two divisions of the non-linear branch, for the token at
    position [i]. *)
Definition childProportion (pool : Pool.t) (tokenTotal : Z) (i : nat)
    : result Z :=
  balance ← fromOption InvalidBigNumber (Pool.parsedBalances pool !! i);
  bn_div (balance * WeiPerEther) tokenTotal.

Definition finalProportion (pool : Pool.t) (tokenTotal : Z)
    (proportionOfParent : Z) (i : nat) : result Z :=
  proportion ← childProportion pool tokenTotal i;
  bn_div (proportion * proportionOfParent) WeiPerEther.

Section Build.
(** The repository: [pools.find(id)] and [pools.findBy('address', a)]. *)
Variable find : string -> option Pool.t.
Variable findBy : string -> option Pool.t.
(** The pricing collaborator: [Pools.wrap(pool, network)] and
    [controller.calcSpotPrice(tokenIn, tokenOut)]; [None] when it
    throws. *)
Variable Controller : Type.
Variable wrap : Pool.t -> option Controller.
Variable calcSpotPrice : Controller -> string -> string -> option string.

(** [pool.tokens.forEach(token => ...)], filling [spotPrices] and
    [decimals]. *)
Fixpoint collectSpotPrices (controller : Controller) (pool : Pool.t)
    (toks : list Token.t) (spotPrices : gmap string string) (decimals : nat)
    : result (gmap string string * nat) :=
  match toks with
  | [] => Ok (spotPrices, decimals)
  | token :: rest =>
      if String.eqb (Token.address token) (Pool.address pool) then
        collectSpotPrices controller pool rest spotPrices
          (match Token.decimals token with
           | Some (S d) => S d
           | _ => 18%nat
           end)
      else
        sp ← fromOption ExternalFailure
               (calcSpotPrice controller (Token.address token)
                  (Pool.address pool));
        collectSpotPrices controller pool rest
          (<[Token.address token := sp]> spotPrices) decimals
  end.

(** The type of [buildGraphFromPool], for the recursive calls of the
    token loop. *)
Definition expand : Type :=
  heap -> string -> nat -> option ref -> Z -> bool ->
  result (heap * ref * nat).

(** [for (let i = 0; i < pool.tokens.length; i++)] of the non-linear
    branch, from position [i] on. *)
Fixpoint expandTokens (rec : expand) (pool : Pool.t) (tokenTotal : Z)
    (poolNode : ref) (proportionOfParent : Z) (wrapMainTokens : bool)
    (i : nat) (toks : list Token.t) (st : heap) (nodeIndex : nat)
    : result (heap * nat) :=
  match toks with
  | [] => Ok (st, nodeIndex)
  | token :: rest =>
      if String.eqb (Token.address token) (Pool.address pool) then
        expandTokens rec pool tokenTotal poolNode proportionOfParent
          wrapMainTokens (S i) rest st nodeIndex
      else
        final ← finalProportion pool tokenTotal proportionOfParent i;
        '(st1, childNode, nodeIndex1) ←
          rec st (Token.address token) nodeIndex (Some poolNode) final
            wrapMainTokens;
        st2 ← update st1 poolNode (Node.push_child childNode);
        expandTokens rec pool tokenTotal poolNode proportionOfParent
          wrapMainTokens (S i) rest st2 nodeIndex1
  end.

(** The leaf fallback of [buildGraphFromPool]: no pool at [address],
    below [parent]. *)
Definition leafTokenNode (st : heap) (address : string) (nodeIndex : nat)
    (parent : ref) (proportionOfParent : Z) : result (heap * ref * nat) :=
  pn ← deref st parent;
  parentPool ← fromOption TypeError (Node.address pn ≫= findBy);
  i ← fromOption TypeError (indexOf (Pool.tokensList parentPool) address);
  token ← fromOption TypeError (Pool.tokens parentPool !! i);
  let leafTokenDecimals := default 18%nat (Token.decimals token) in
  Ok (createInputTokenNode st nodeIndex (Some address) leafTokenDecimals
        (Some parent) proportionOfParent).

(** The body of [buildGraphFromPool]; [rec] stands for the function
    itself in the recursive calls of the token loop. *)
Definition buildGraphFromPool_body (rec : expand) (st : heap)
    (address : string) (nodeIndex : nat) (parent : option ref)
    (proportionOfParent : Z) (wrapMainTokens : bool)
    : result (heap * ref * nat) :=
  match findBy address with
  | None =>
      match parent with
      | None => Err POOL_DOESNT_EXIST
      | Some p => leafTokenNode st address nodeIndex p proportionOfParent
      end
  | Some pool =>
      match joinActions (Pool.poolType pool),
            exitActions (Pool.poolType pool) with
      | Some joinAction, Some exitAction =>
          let tokenTotal := getTokenTotal pool in
          controller ← fromOption ExternalFailure (wrap pool);
          '(spotPrices, decimals) ←
            collectSpotPrices controller pool (Pool.tokens pool) ∅ 18%nat;
          let '(st1, poolNode) := alloc st
            {| Node.address := Some (Pool.address pool);
               Node.id := Pool.id pool;
               Node.type := Pool.poolType pool;
               Node.joinAction := joinAction;
               Node.exitAction := exitAction;
               Node.children := [];
               Node.marked := false;
               Node.index := toString nodeIndex;
               Node.parent := parent;
               Node.proportionOfParent := proportionOfParent;
               Node.isLeaf := false;
               Node.spotPrices := spotPrices;
               Node.decimals := decimals |} in
          let nodeIndex := S nodeIndex in
          if includes (Pool.poolType pool) "Linear" then
            createLinearNodeChildren st1 poolNode nodeIndex pool
              wrapMainTokens
          else
            '(st2, nodeIndex) ←
              expandTokens rec pool tokenTotal poolNode proportionOfParent
                wrapMainTokens 0 (Pool.tokens pool) st1 nodeIndex;
            Ok (st2, poolNode, nodeIndex)
      | _, _ => Err UNSUPPORTED_POOL_TYPE
      end
  end.

(** [buildGraphFromPool]: the recursion is bounded by [fuel], the depth of
    nesting that it may follow. *)
Fixpoint buildGraphFromPool (fuel : nat) : expand :=
  match fuel with
  | O => fun _ _ _ _ _ _ => Err OutOfFuel
  | S fuel' => buildGraphFromPool_body (buildGraphFromPool fuel')
  end.

(** [buildGraphFromRootPool], on an empty heap. *)
Definition buildGraphFromRootPool (fuel : nat) (poolId : string)
    (wrapMainTokens : bool) : result (heap * ref) :=
  rootPool ← fromOption POOL_DOESNT_EXIST (find poolId);
  let nodeIndex := 0%nat in
  '(st, rootNode, _) ←
    buildGraphFromPool fuel [] (Pool.address rootPool) nodeIndex None
      WeiPerEther wrapMainTokens;
  Ok (st, rootNode).
End Build.

End PoolGraph.

(** * PoolsFallbackRepository: providers tried in order

    The second class of the source file.  A provider's method call is
    raced against a timer; what the race comes to is the [outcome] of the
    call.  The repository keeps one piece of state, [currentProviderIdx],
    which every query reads and may advance. *)

Module PoolsFallbackRepository.

(** The race [Promise.race([provider[func](...args), timer])]: the provider
    resolves in time, rejects (or throws) with a message, or the timer
    rejects first. *)
Inductive outcome (A : Type) : Type :=
  | Resolved (a : A)
  | Rejected (message : string)
  | TimedOut.
Arguments Resolved {A} a.
Arguments Rejected {A} message.
Arguments TimedOut {A}.

(** What [fallbackQuery] comes to: the awaited result, or
    [new Error('No working providers found')]. *)
Inductive reply (A : Type) : Type :=
  | Answered (a : A)
  | NoWorkingProviders.
Arguments Answered {A} a.
Arguments NoWorkingProviders {A}.

(** [func] and [args] of the three methods that go through
    [fallbackQuery]. *)
Inductive call (Options : Type) : Type :=
  | Fetch (options : option Options)
  | Find (id : string)
  | FindBy (attribute value : string).
Arguments Fetch {Options} options.
Arguments Find {Options} id.
Arguments FindBy {Options} attribute value.

Section Repository.
(** The options of [fetch] and the values that providers resolve to
    ([Pool[]], [Pool | undefined]) pass through unread. *)
Variable Options : Type.
Variable Answer : Type.

(** A [PoolRepository], as far as the fallback uses it: what the race
    comes to when a query asks the provider.  The outcome is taken to
    depend on the call alone, which is exact within one query: a query
    asks each provider at most once. *)
Definition PoolRepository : Type := call Options → outcome Answer.

Record t : Type := mk {
  providers : list PoolRepository;
  currentProviderIdx : nat
}.

(** [constructor(providers, timeout)] *)
Definition new (providers : list PoolRepository) : t :=
  {| providers := providers; currentProviderIdx := 0 |}.

(** [get currentProvider()] *)
Definition currentProvider (r : t) : option PoolRepository :=
  if (Nat.eqb (length (providers r)) 0
      || Nat.leb (length (providers r)) (currentProviderIdx r))%bool
  then None
  else providers r !! currentProviderIdx r.

(** The recursion of [fallbackQuery], over the providers from
    [currentProviderIdx] on: each failure advances the index and asks
    again. *)
Fixpoint queryFrom (rest : list PoolRepository) (idx : nat)
    (c : call Options) : reply Answer * nat :=
  match rest with
  | [] => (NoWorkingProviders, idx)
  | provider :: rest' =>
      match provider c with
      | Resolved a => (Answered a, idx)
      | Rejected _ | TimedOut => queryFrom rest' (S idx) c
      end
  end.

(** [fallbackQuery(func, args)]: the reply and the repository after it. *)
Definition fallbackQuery (r : t) (c : call Options) : reply Answer * t :=
  let '(a, idx) :=
    queryFrom (drop (currentProviderIdx r) (providers r))
      (currentProviderIdx r) c in
  (a, {| providers := providers r; currentProviderIdx := idx |}).

Definition fetch (r : t) (options : option Options) : reply Answer * t :=
  fallbackQuery r (Fetch options).

Definition find (r : t) (id : string) : reply Answer * t :=
  fallbackQuery r (Find id).

Definition findBy (r : t) (attribute value : string) : reply Answer * t :=
  fallbackQuery r (FindBy attribute value).
End Repository.

Arguments providers {Options Answer} _.
Arguments currentProviderIdx {Options Answer} _.
Arguments new {Options Answer} _.
Arguments currentProvider {Options Answer} _.
Arguments queryFrom {Options Answer} _ _ _.
Arguments fallbackQuery {Options Answer} _ _.
Arguments fetch {Options Answer} _ _.
Arguments find {Options Answer} _ _.
Arguments findBy {Options Answer} _ _ _.

End PoolsFallbackRepository.

(** ** Vocabulary of the statements *)

(** The children of a handle, as the heap has them. *)
Definition kids (st : heap) (h : ref) : list ref :=
  match st !! h with
  | Some n => Node.children n
  | None => []
  end.

(** The [k]-th level below a list of handles. *)
Fixpoint level_at (st : heap) (k : nat) (level : list ref) : list ref :=
  match k with
  | O => level
  | S k' => level_at st k' (flat_map (kids st) level)
  end.

(** The first [d] levels, one after the other: the level order. *)
Fixpoint levels (st : heap) (d : nat) (level : list ref) : list ref :=
  match d with
  | O => []
  | S d' => level ++ levels st d' (flat_map (kids st) level)
  end.

Definition reachable (st : heap) (root h : ref) : Prop :=
  ∃ k, h ∈ level_at st k [root].

(** The structure under [root] is a tree of depth at most [d]: unfolding it
    level by level ends, and meets no handle twice. *)
Definition is_tree (st : heap) (root : ref) (d : nat) : Prop :=
  level_at st d [root] = [] ∧ NoDup (levels st d [root]).

Definition is_marked (st : heap) (h : ref) : Prop :=
  ∃ n, st !! h = Some n ∧ Node.marked n = true.

Definition is_unmarked (st : heap) (h : ref) : Prop :=
  ∃ n, st !! h = Some n ∧ Node.marked n = false.

(** [st'] is [st] with some more nodes marked, and nothing else changed. *)
Definition marks_only (st st' : heap) : Prop :=
  length st' = length st ∧
  ∀ h n, st !! h = Some n →
    st' !! h = Some n ∨
    (Node.marked n = false ∧ st' !! h = Some (Node.set_marked true n)).

(** [c.marked = true] for each [c] of a list. *)
Fixpoint mark_all (cs : list ref) (st : heap) : heap :=
  match cs with
  | [] => st
  | c :: cs' => mark_all cs' (alter (Node.set_marked true) c st)
  end.

(** Every child that a node names is in the heap. *)
Definition closed (st : heap) : Prop :=
  ∀ h n c, st !! h = Some n → c ∈ Node.children n → c < length st.

(** The number of nodes not marked yet: what the traversal uses up. *)
Definition unmarkedCount (st : heap) : nat :=
  length (filter (λ n, Node.marked n = false) st).

(** A heap as [buildGraphFromPool] makes them: no node is marked, the
    children of a node are distinct, come after it in the heap, and name
    it as their parent. *)
Definition wf (st : heap) : Prop :=
  ∀ h n, st !! h = Some n →
    Node.marked n = false ∧
    NoDup (Node.children n) ∧
    ∀ c, c ∈ Node.children n →
      h < c ∧ ∃ cn, st !! c = Some cn ∧ Node.parent cn = Some h.

(** [st'] has every node of [st], unchanged, and maybe more. *)
Definition extends (st st' : heap) : Prop :=
  length st ≤ length st' ∧ ∀ k n, st !! k = Some n → st' !! k = Some n.

(** What a successful expansion brings about: a new node at the end of the
    heap, with the parent and the proportion asked for, above a tree of
    new nodes; the nodes that were there are untouched. *)
Definition expand_ok (rec : PoolGraph.expand) : Prop :=
  ∀ st address nodeIndex parent P w st' h nodeIndex',
    rec st address nodeIndex parent P w = Ok (st', h, nodeIndex') →
    wf st →
    h = length st ∧ extends st st' ∧ wf st' ∧
    ∃ n, st' !! h = Some n ∧ Node.parent n = parent ∧
         Node.proportionOfParent n = P.

(** The positions, from [i] on, of the tokens of a pool other than the
    pool's own token. *)
Fixpoint nonSelfFrom (pool : Pool.t) (i : nat) (toks : list Token.t)
    : list nat :=
  match toks with
  | [] => []
  | t :: rest =>
      if String.eqb (Token.address t) (Pool.address pool)
      then nonSelfFrom pool (S i) rest
      else i :: nonSelfFrom pool (S i) rest
  end.

Definition nonSelf (pool : Pool.t) : list nat :=
  nonSelfFrom pool 0 (Pool.tokens pool).

(** The proportion that the source computes for the token at position
    [i]: two truncating divisions, each after its multiplication. *)
Definition proportionFormula (pool : Pool.t) (P : Z) (i : nat) : Z :=
  let balance := default 0%Z (Pool.parsedBalances pool !! i) in
  let childProportion :=
    Z.quot (balance * 10 ^ 18) (PoolGraph.getTokenTotal pool) in
  Z.quot (childProportion * P) (10 ^ 18).

Definition proportionAt (st : heap) (c : ref) : Z :=
  match st !! c with
  | Some n => Node.proportionOfParent n
  | None => 0%Z
  end.

Definition sumZ (l : list Z) : Z := foldr Z.add 0%Z l.

(** The node that [buildGraphFromPool] creates for a pool. *)
Definition poolNodeOf (pool : Pool.t) (ja : JoinAction) (ea : ExitAction)
    (sp : gmap string string) (d : nat) (nodeIndex : nat)
    (parent : option ref) (P : Z) : Node.t :=
  {| Node.address := Some (Pool.address pool);
     Node.id := Pool.id pool;
     Node.type := Pool.poolType pool;
     Node.joinAction := ja;
     Node.exitAction := ea;
     Node.children := [];
     Node.marked := false;
     Node.index := toString nodeIndex;
     Node.parent := parent;
     Node.proportionOfParent := P;
     Node.isLeaf := false;
     Node.spotPrices := sp;
     Node.decimals := d |}.

(** A pool record is consistent when its balances are aligned with its
    tokens and are not negative, and [tokensList] places the pool's own
    token where [tokens] has it. *)
Definition consistent (pool : Pool.t) : Prop :=
  length (Pool.parsedBalances pool) = length (Pool.tokens pool) ∧
  Forall (λ b, 0 ≤ b)%Z (Pool.parsedBalances pool) ∧
  ∀ i t, Pool.tokens pool !! i = Some t →
    (Token.address t = Pool.address pool ↔
     indexOf (Pool.tokensList pool) (Pool.address pool) = Some i).

(** ** A sample repository

    A composable stable pool over a plain token, its own pool token and a
    nested linear pool; and three malformed records. *)

Module Example.
Definition tokenA : Token.t := Token.mk "0xaaa" (Some 18).
Definition tokenB : Token.t := Token.mk "0xbbb" (Some 18).
Definition tokenRoot : Token.t := Token.mk "0xroot" (Some 18).

Definition rootPool : Pool.t :=
  {| Pool.id := "id-root";
     Pool.address := "0xroot";
     Pool.poolType := "ComposableStable";
     Pool.tokens := [tokenA; tokenRoot; tokenB];
     Pool.tokensList := ["0xaaa"; "0xroot"; "0xbbb"];
     Pool.mainIndex := None;
     Pool.wrappedIndex := None;
     Pool.parsedBalances := [1; 1000000; 2]%Z |}.

Definition linearPool : Pool.t :=
  {| Pool.id := "id-bbb";
     Pool.address := "0xbbb";
     Pool.poolType := "AaveLinear";
     Pool.tokens :=
       [Token.mk "0xmain" (Some 6); Token.mk "0xbbb" None;
        Token.mk "0xwrapped" (Some 6)];
     Pool.tokensList := ["0xmain"; "0xbbb"; "0xwrapped"];
     Pool.mainIndex := Some 0;
     Pool.wrappedIndex := Some 2;
     Pool.parsedBalances := [5; 5; 5]%Z |}.

(** A pool whose balances are all zero. *)
Definition emptyPool : Pool.t :=
  {| Pool.id := "id-empty";
     Pool.address := "0xempty";
     Pool.poolType := "Weighted";
     Pool.tokens := [tokenA; tokenB];
     Pool.tokensList := ["0xaaa"; "0xbbb"];
     Pool.mainIndex := None;
     Pool.wrappedIndex := None;
     Pool.parsedBalances := [0; 0]%Z |}.

(** A pool of a type that neither action table lists. *)
Definition gyroPool : Pool.t :=
  {| Pool.id := "id-gyro";
     Pool.address := "0xgyro";
     Pool.poolType := "Gyro2";
     Pool.tokens := [tokenA; tokenB];
     Pool.tokensList := ["0xaaa"; "0xbbb"];
     Pool.mainIndex := None;
     Pool.wrappedIndex := None;
     Pool.parsedBalances := [1; 1]%Z |}.

(** A record stored under the address ["0xodd"] whose own [address] field
    is spelled ["0xODD"], under which the repository finds nothing. *)
Definition oddPool : Pool.t :=
  {| Pool.id := "id-odd";
     Pool.address := "0xODD";
     Pool.poolType := "Weighted";
     Pool.tokens := [tokenA];
     Pool.tokensList := ["0xaaa"];
     Pool.mainIndex := None;
     Pool.wrappedIndex := None;
     Pool.parsedBalances := [1]%Z |}.

Definition oddKey : Pool.t :=
  {| Pool.id := "id-odd";
     Pool.address := "0xodd";
     Pool.poolType := "Weighted";
     Pool.tokens := [tokenA];
     Pool.tokensList := ["0xaaa"];
     Pool.mainIndex := None;
     Pool.wrappedIndex := None;
     Pool.parsedBalances := [1]%Z |}.

Definition find (id : string) : option Pool.t :=
  if String.eqb id "id-root" then Some rootPool
  else if String.eqb id "id-empty" then Some emptyPool
  else if String.eqb id "id-gyro" then Some gyroPool
  else if String.eqb id "id-odd" then Some oddKey
  else None.

Definition findBy (address : string) : option Pool.t :=
  if String.eqb address "0xroot" then Some rootPool
  else if String.eqb address "0xbbb" then Some linearPool
  else if String.eqb address "0xempty" then Some emptyPool
  else if String.eqb address "0xgyro" then Some gyroPool
  else if String.eqb address "0xodd" then Some oddPool
  else None.

Definition wrap (pool : Pool.t) : option unit := Some tt.
Definition calcSpotPrice (_ : unit) (tokenIn tokenOut : string)
    : option string := Some "1.0".

Definition buildRoot (poolId : string) (wrapMainTokens : bool)
    : result (heap * ref) :=
  PoolGraph.buildGraphFromRootPool find findBy unit wrap calcSpotPrice 8
    poolId wrapMainTokens.

(** The tree of ["id-root"], linear pools joined through their main
    token: root 0, token A 1, linear pool 2, main token 3. *)
Definition tree : heap :=
  match buildRoot "id-root" false with
  | Ok (st, _) => st
  | Err _ => []
  end.

(** The same tree after [orderByBfs]. *)
Definition orderedTree : heap :=
  match PoolGraph.orderByBfs tree 0 with
  | Ok (st, _) => st
  | Err _ => []
  end.

(** The heap after [getNodesToRoot] for the leaf token ["0xaaa"], on the
    reverse of the breadth-first order. *)
Definition afterPath : heap :=
  match PoolGraph.getNodesToRoot orderedTree [3; 2; 1; 0] "0xaaa" 0 with
  | Ok (st, _) => st
  | Err _ => []
  end.

(** A structure in which two nodes share a child: 0 -> 1, 2; 1 -> 3;
    2 -> 3. *)
Definition plain (address : string) (children : list ref) : Node.t :=
  {| Node.address := Some address;
     Node.id := "N/A";
     Node.type := "Weighted";
     Node.children := children;
     Node.marked := false;
     Node.joinAction := join_joinPool;
     Node.exitAction := exit_exitPool;
     Node.index := "0";
     Node.parent := None;
     Node.proportionOfParent := 0;
     Node.isLeaf := false;
     Node.spotPrices := ∅;
     Node.decimals := 18 |}.

Definition diamond : heap :=
  [plain "0xa" [1; 2]; plain "0xb" [3]; plain "0xc" [3]; plain "0xd" []].
End Example.

From Stdlib Require Import DecimalNat.

(** ** Vocabulary for the fallback repository *)

(** A provider fails on a call when the race does not resolve: it rejects,
    throws, or the timer wins. *)
Definition fails {Options Answer}
    (p : PoolsFallbackRepository.PoolRepository Options Answer)
    (c : PoolsFallbackRepository.call Options) : Prop :=
  ∀ a, p c ≠ PoolsFallbackRepository.Resolved a.

(** Three providers: one that is down, one that does not answer in time,
    and one that serves [find] only. *)
Module FallbackExample.
Import PoolsFallbackRepository.

Definition down : PoolRepository unit string := λ _, Rejected "503".

Definition slow : PoolRepository unit string := λ _, TimedOut.

Definition byId : PoolRepository unit string := λ c,
  match c with
  | Find id => Resolved id
  | _ => Rejected "not implemented"
  end.

Definition repository : t unit string := new [down; slow; byId].

Definition atById : t unit string :=
  {| providers := [down; slow; byId]; currentProviderIdx := 2 |}.

Definition exhausted : t unit string :=
  {| providers := [down; slow; byId]; currentProviderIdx := 3 |}.
End FallbackExample.

(** ** Vocabulary for paths *)

(** The chain of parents from a node up, as the heap has it. *)
Fixpoint ancestors (fuel : nat) (st : heap) (from : option ref) : list ref :=
  match fuel, from with
  | S fuel', Some p =>
      match st !! p with
      | Some pn => p :: ancestors fuel' st (Node.parent pn)
      | None => []
      end
  | _, _ => []
  end.

(** Every parent that a node names is in the heap, before the node. *)
Definition parents_first (st : heap) : Prop :=
  ∀ h n p, st !! h = Some n → Node.parent n = Some p → p < h.

(** Every node has an address. *)
Definition addressed (st : heap) : Prop :=
  ∀ h n, st !! h = Some n → is_Some (Node.address n).

(** The node at [r] has the address of the input token, up to case. *)
Definition matches (st : heap) (inputToken : string) (r : ref) : Prop :=
  ∃ n a, st !! r = Some n ∧ Node.address n = Some a ∧
         toLowerCase a = toLowerCase inputToken.

#[global] Instance matches_dec (st : heap) (inputToken : string) (r : ref) :
  Decision (matches st inputToken r).
Proof.
  unfold matches. destruct (st !! r) as [n|]; [|right; by intros (? & ? & ? & _)].
  destruct (Node.address n) as [a|] eqn:Ha.
  - destruct (decide (toLowerCase a = toLowerCase inputToken)) as [He|Hne].
    + left. by exists n, a.
    + right. intros (n' & a' & [= <-] & Ha' & He). congruence.
  - right. intros (n' & a' & [= <-] & Ha' & _). congruence.
Defined.

(** [{ ...parentNode }] after its assignments: the proportion is zero, the
    index is that of the round, the children are those given. *)
Definition pathCopy (index : nat) (children : list ref) (n : Node.t)
    : Node.t :=
  Node.set_index (toString index)
    (Node.set_proportionOfParent 0 (Node.set_children children n)).

(** The Input node that [getNodesToRoot] makes for a token that is not a
    leaf of the graph. *)
Definition pathEntry (startingIndex : nat) (inputToken : string)
    (inputNode : Node.t) : Node.t :=
  {| Node.address := Some inputToken;
     Node.id := "N/A";
     Node.type := "Input";
     Node.children := [];
     Node.marked := false;
     Node.joinAction := join_input;
     Node.exitAction := exit_output;
     Node.index := toString startingIndex;
     Node.parent := Node.parent inputNode;
     Node.proportionOfParent := WeiPerEther;
     Node.isLeaf := true;
     Node.spotPrices := ∅;
     Node.decimals := Node.decimals inputNode |}.

(** [st'] has the nodes of [st], some with their index set to ["0"]. *)
Definition index_written (st st' : heap) : Prop :=
  ∀ h n, st !! h = Some n →
    st' !! h = Some n ∨ st' !! h = Some (Node.set_index "0" n).

(** A linear pool node on its own, and what [createLinearNodeChildren]
    makes of it when main tokens are wrapped. *)
Module LinearExample.
Definition poolNode : Node.t := Example.plain "0xbbb" [].

Definition wrapped : heap :=
  match
    PoolGraph.createLinearNodeChildren [poolNode] 0 1 Example.linearPool true
  with
  | Ok (st, _, _) => st
  | Err _ => []
  end.
End LinearExample.

(** ** Vocabulary for built graphs *)

(** The node that [createInputTokenNode] returns. *)
Definition inputNodeOf (nodeIndex : nat) (address : option string)
    (decimals : nat) (parent : option ref) (P : Z) : Node.t :=
  {| Node.address := address;
     Node.id := "N/A";
     Node.type := "Input";
     Node.children := [];
     Node.marked := false;
     Node.joinAction := join_input;
     Node.exitAction := exit_output;
     Node.index := toString nodeIndex;
     Node.parent := parent;
     Node.proportionOfParent := P;
     Node.isLeaf := true;
     Node.spotPrices := ∅;
     Node.decimals := decimals |}.

(** The node that [createWrappedTokenNode] returns, above its child. *)
Definition wrappedNodeOf (linearPool : Pool.t) (wrappedIndex : nat)
    (nodeIndex : nat) (parent : option ref) (P : Z) (child : ref) : Node.t :=
  {| Node.type := "WrappedToken";
     Node.address := Pool.tokensList linearPool !! wrappedIndex;
     Node.id := "N/A";
     Node.children := [child];
     Node.marked := false;
     Node.joinAction :=
       if String.eqb (Pool.poolType linearPool) "ERC4626Linear"
       then join_wrapERC4626 else join_wrapAaveDynamicToken;
     Node.exitAction :=
       if String.eqb (Pool.poolType linearPool) "ERC4626Linear"
       then exit_unwrapERC4626 else exit_unwrapAaveStaticToken;
     Node.index := toString nodeIndex;
     Node.parent := parent;
     Node.proportionOfParent := P;
     Node.isLeaf := false;
     Node.spotPrices := ∅;
     Node.decimals := 18 |}.

(** The three kinds of node that a build makes: an Input leaf; a
    WrappedToken node above one child, only when main tokens are
    wrapped; the node of a pool that the repository has, with the actions
    that the tables give for its type. *)
Definition kind (findBy : string → option Pool.t) (wrapMainTokens : bool)
    (n : Node.t) : Prop :=
  (Node.isLeaf n = true ∧ Node.type n = "Input" ∧
   Node.joinAction n = join_input ∧ Node.exitAction n = exit_output ∧
   Node.children n = [] ∧ Node.id n = "N/A") ∨
  (Node.isLeaf n = false ∧ Node.type n = "WrappedToken" ∧
   wrapMainTokens = true ∧
   ((Node.joinAction n = join_wrapAaveDynamicToken ∧
     Node.exitAction n = exit_unwrapAaveStaticToken) ∨
    (Node.joinAction n = join_wrapERC4626 ∧
     Node.exitAction n = exit_unwrapERC4626)) ∧
   length (Node.children n) = 1 ∧ Node.id n = "N/A") ∨
  (Node.isLeaf n = false ∧
   ∃ a pool, findBy a = Some pool ∧
     Node.address n = Some (Pool.address pool) ∧
     Node.id n = Pool.id pool ∧
     Node.type n = Pool.poolType pool ∧
     PoolGraph.joinActions (Pool.poolType pool) = Some (Node.joinAction n) ∧
     PoolGraph.exitActions (Pool.poolType pool) = Some (Node.exitAction n)).

(** What a successful expansion makes of the new part of the heap: the
    counter advances by one for each new node, and is the index of each;
    every new node is of one of the three kinds; and every new node but
    the first has its parent among the new nodes before it, which lists
    it as a child. *)
Definition expand_shape (findBy : string → option Pool.t)
    (rec : PoolGraph.expand) : Prop :=
  ∀ st address nodeIndex parent P w st' h nodeIndex',
    rec st address nodeIndex parent P w = Ok (st', h, nodeIndex') →
    wf st →
    nodeIndex' = nodeIndex + (length st' - length st) ∧
    ∀ k n, st' !! k = Some n → length st ≤ k →
      Node.index n = toString (nodeIndex + (k - length st)) ∧
      kind findBy w n ∧
      (length st < k →
       ∃ p, Node.parent n = Some p ∧ length st ≤ p < k ∧ k ∈ kids st' p).

(** ** More sample repositories *)

(** The root pool and its linear pool, and no other: every pool that has
    divisions to make has a positive total. *)
Module Funded.
Definition findBy (address : string) : option Pool.t :=
  if String.eqb address "0xroot" then Some Example.rootPool
  else if String.eqb address "0xbbb" then Some Example.linearPool
  else None.
End Funded.

(** A record that lists its own token in [tokens] and not in
    [tokensList]: the total counts the balance of the pool's own token. *)
Module Phantom.
Definition pool : Pool.t :=
  {| Pool.id := "id-phantom";
     Pool.address := "0xphantom";
     Pool.poolType := "ComposableStable";
     Pool.tokens :=
       [Example.tokenA; Token.mk "0xphantom" (Some 18); Example.tokenB];
     Pool.tokensList := ["0xaaa"; "0xbbb"];
     Pool.mainIndex := None;
     Pool.wrappedIndex := None;
     Pool.parsedBalances := [1; 1000000; 2]%Z |}.

Definition findBy (address : string) : option Pool.t :=
  if String.eqb address "0xphantom" then Some pool else None.

Definition tree : heap :=
  match
    PoolGraph.buildGraphFromPool findBy unit Example.wrap
      Example.calcSpotPrice 2 [] "0xphantom" 0 None WeiPerEther false
  with
  | Ok (st, _, _) => st
  | Err _ => []
  end.
End Phantom.

(** ** The result monad *)

Lemma bind_Ok {A B} (m : result A) (f : A → result B) (b : B) :
  m ≫= f = Ok b ↔ ∃ a, m = Ok a ∧ f a = Ok b.
Proof.
  destruct m as [a|e]; simpl; split.
  - eauto.
  - by intros (a' & [= ->] & ?).
  - discriminate.
  - by intros (a' & ? & ?).
Qed.

Lemma bind_Err {A B} (m : result A) (f : A → result B) (e : error) :
  m ≫= f = Err e ↔ m = Err e ∨ ∃ a, m = Ok a ∧ f a = Err e.
Proof.
  destruct m as [a|e']; simpl; split.
  - eauto.
  - by intros [|(a' & [= ->] & ?)].
  - intros [= ->]. by left.
  - by intros [[= ->]|(a' & ? & ?)].
Qed.

Lemma fromOption_Ok {A} (e : error) (o : option A) (a : A) :
  fromOption e o = Ok a ↔ o = Some a.
Proof. destruct o; simpl; split; congruence. Qed.

Lemma deref_Ok (st : heap) (r : ref) (n : Node.t) :
  deref st r = Ok n ↔ st !! r = Some n.
Proof. apply fromOption_Ok. Qed.

(** Inversion of a successful monadic computation. *)
Ltac inv_ok H :=
  repeat match type of H with
  | _ ≫= _ = Ok _ =>
      let a := fresh "a" in let Ha := fresh "Ha" in
      apply bind_Ok in H as (a & Ha & H)
  | (let '(_, _) := ?p in _) = _ => destruct p eqn:?
  end.

(** ** Marking *)

Lemma set_marked_id (n : Node.t) :
  Node.marked n = true → Node.set_marked true n = n.
Proof. destruct n; simpl; by intros ->. Qed.

Lemma marks_only_refl (st : heap) : marks_only st st.
Proof. split; [done | by left]. Qed.

Lemma marks_only_trans (st1 st2 st3 : heap) :
  marks_only st1 st2 → marks_only st2 st3 → marks_only st1 st3.
Proof.
  intros [L12 H12] [L23 H23]. split; [congruence|].
  intros h n Hn. destruct (H12 h n Hn) as [H2|[Hm H2]].
  - apply H23, H2.
  - destruct (H23 _ _ H2) as [H3|[Hm' _]]; [by right | done].
Qed.

Lemma marks_only_insert (st : heap) (c : ref) (n : Node.t) :
  st !! c = Some n → marks_only st (<[c := Node.set_marked true n]> st).
Proof.
  intros Hc. split; [by rewrite length_insert|].
  intros h m Hm. destruct (decide (h = c)) as [->|Hne].
  - assert (m = n) as -> by congruence.
    rewrite list_lookup_insert_eq by (by eapply lookup_lt_Some).
    destruct (Node.marked n) eqn:E; [left | by right].
    by rewrite set_marked_id.
  - left. by rewrite list_lookup_insert_ne.
Qed.

Lemma marks_only_kids (st st' : heap) (h : ref) :
  marks_only st st' → kids st' h = kids st h.
Proof.
  intros [Hl Hm]. unfold kids. destruct (st !! h) as [n|] eqn:E.
  - by destruct (Hm _ _ E) as [->|[_ ->]].
  - apply lookup_ge_None in E. rewrite <- Hl in E.
    apply lookup_ge_None in E. by rewrite E.
Qed.

Lemma marks_only_marked (st st' : heap) (h : ref) :
  marks_only st st' → is_marked st h → is_marked st' h.
Proof.
  intros [_ Hm] (n & Hn & Hmk). destruct (Hm _ _ Hn) as [H|[? _]]; [|congruence].
  by exists n.
Qed.

Lemma marks_only_unmarked (st st' : heap) (h : ref) :
  marks_only st st' → is_unmarked st' h → is_unmarked st h.
Proof.
  intros [Hl Hm] (n' & Hn' & Hmk).
  destruct (st !! h) as [n|] eqn:E.
  - destruct (Hm _ _ E) as [H|[Hu H]]; [exists n; split; congruence|].
    by exists n.
  - apply lookup_ge_None in E. rewrite <- Hl in E.
    apply lookup_ge_None in E. congruence.
Qed.

Lemma marked_not_unmarked (st : heap) (h : ref) :
  is_marked st h → is_unmarked st h → False.
Proof. intros (n & ? & ?) (n' & ? & ?). congruence. Qed.

(** ** Breadth-first traversal *)

Lemma is_marked_insert (st : heap) (c : ref) (n : Node.t) :
  st !! c = Some n → is_marked (<[c := Node.set_marked true n]> st) c.
Proof.
  intros Hn. exists (Node.set_marked true n). split; [|done].
  apply list_lookup_insert_eq. by eapply lookup_lt_Some.
Qed.

(** What one [forEach] over the children does: the queue grows by the
    children that were not marked, which are now marked, and nothing else
    changes. *)
Lemma markChildren_spec (cs : list ref) :
  ∀ (st : heap) (nodes : list ref) (st' : heap) (nodes' : list ref),
  PoolGraph.markChildren st cs nodes = Ok (st', nodes') →
  ∃ new, nodes' = nodes ++ new ∧ NoDup new ∧ marks_only st st' ∧
    (∀ c, c ∈ new → is_unmarked st c ∧ is_marked st' c) ∧
    (∀ h, h ∉ new → st' !! h = st !! h) ∧
    (∀ c, c ∈ cs → is_marked st' c).
Proof.
  induction cs as [|c cs IH]; intros st nodes st' nodes' H; simpl in H.
  - injection H as <- <-. exists []. rewrite app_nil_r.
    split_and!; [done | apply NoDup_nil_2 | apply marks_only_refl | | | ].
    + intros c Hc. by apply elem_of_nil in Hc.
    + intros h Hh. done.
    + intros c Hc. by apply elem_of_nil in Hc.
  - apply bind_Ok in H as (n & Hn & H). apply deref_Ok in Hn.
    destruct (Node.marked n) eqn:Hm.
    + destruct (IH _ _ _ _ H) as (new & -> & Hnd & Hmo & Hnew & Hch & Hcs).
      exists new. split_and!; try done.
      intros c' [->|Hc']%elem_of_cons; [|by apply Hcs].
      apply (marks_only_marked st); [done | by exists n].
    + pose proof (marks_only_insert st c n Hn) as Hmo1.
      pose proof (is_marked_insert st c n Hn) as Hcm.
      destruct (IH _ _ _ _ H) as (new & -> & Hnd & Hmo & Hnew & Hch & Hcs).
      exists (c :: new). split_and!.
      * by rewrite <- app_assoc.
      * apply NoDup_cons. split; [|done].
        intros Hc. apply Hnew in Hc as [Hc _].
        eapply marked_not_unmarked; eauto.
      * by eapply marks_only_trans.
      * intros c' [->|Hc]%elem_of_cons.
        -- split; [by exists n | by eapply marks_only_marked].
        -- split; [|by apply Hnew].
           eapply marks_only_unmarked; [exact Hmo1 | by apply Hnew].
      * intros h [Hne Hh]%not_elem_of_cons.
        rewrite (Hch h Hh). by rewrite list_lookup_insert_ne.
      * intros c' [->|Hc']%elem_of_cons; [|by apply Hcs].
        by eapply marks_only_marked.
Qed.

(** The loop, on any heap: the result is the output so far, then the
    queue, then the nodes marked from here on; no handle occurs twice, and
    the children of every node visited end up marked. *)
Lemma bfsLoop_spec (fuel : nat) :
  ∀ (st : heap) (nodes out : list ref) (st' : heap) (o : list ref),
  PoolGraph.bfsLoop fuel st nodes out = Ok (st', o) →
  (∀ h, h ∈ out ++ nodes → is_marked st h) →
  NoDup (out ++ nodes) →
  ∃ more, o = out ++ nodes ++ more ∧ NoDup o ∧ marks_only st st' ∧
    (∀ h, h ∈ o → is_marked st' h) ∧
    (∀ h, h ∉ more → st' !! h = st !! h) ∧
    (∀ h c, h ∈ nodes ++ more → c ∈ kids st h → is_marked st' c).
Proof.
  induction fuel as [|fuel IH]; intros st nodes out st' o H Hmk Hnd;
    destruct nodes as [|c rest]; simpl in H; try discriminate.
  - injection H as <- <-. exists []. rewrite !app_nil_r in *.
    split_and!; try done; [apply marks_only_refl|].
    intros h c Hh. by apply elem_of_nil in Hh.
  - injection H as <- <-. exists []. rewrite !app_nil_r in *.
    split_and!; try done; [apply marks_only_refl|].
    intros h c Hh. by apply elem_of_nil in Hh.
  - apply bind_Ok in H as (n & Hn & H). apply bind_Ok in H as ([st1 q1] & Hmc & H).
    apply deref_Ok in Hn.
    apply markChildren_spec in Hmc
      as (new & -> & Hndn & Hmo & Hnew & Hch & Hcs).
    apply IH in H as (more & -> & Hndo & Hmo' & Hall & Hch' & Hcl).
    + exists (new ++ more). split_and!.
      * by rewrite <- !app_assoc.
      * done.
      * by eapply marks_only_trans.
      * done.
      * intros h [Hh1 Hh2]%not_elem_of_app.
        by rewrite (Hch' h Hh2), (Hch h Hh1).
      * intros h c' Hh Hc'. simpl in Hh. apply elem_of_cons in Hh as [->|Hh].
        -- eapply marks_only_marked; [done|]. apply Hcs.
           unfold kids in Hc'. by rewrite Hn in Hc'.
        -- apply (Hcl h); [by rewrite <- app_assoc|].
           by rewrite (marks_only_kids st st1).
    + intros h Hh. rewrite !elem_of_app, list_elem_of_singleton in Hh.
      destruct Hh as [[Hh| ->]|[Hh|Hh]]; [| | |by apply Hnew];
        (eapply marks_only_marked; [done|]); apply Hmk;
        rewrite elem_of_app, elem_of_cons; auto.
    + assert ((out ++ [c]) ++ rest ++ new = (out ++ c :: rest) ++ new) as ->.
      { by rewrite <- !app_assoc. }
      apply NoDup_app. split_and!; [done | | done].
      intros h Hh Hh'. apply Hnew in Hh' as [Hu _].
      eapply marked_not_unmarked; [|done]. by apply Hmk.
Qed.

(** [orderByBfs] on any heap. *)
Lemma orderByBfs_spec (st : heap) (root : ref) (st' : heap) (o : list ref) :
  PoolGraph.orderByBfs st root = Ok (st', o) →
  ∃ more, is_Some (st !! root) ∧ o = root :: more ∧ NoDup o ∧
    marks_only st st' ∧
    (∀ h, h ∈ o → is_marked st' h) ∧
    (∀ h, h ∉ o → st' !! h = st !! h) ∧
    (∀ h c, h ∈ o → c ∈ kids st h → is_marked st' c).
Proof.
  unfold PoolGraph.orderByBfs. intros H.
  apply bind_Ok in H as (n & Hn & H). apply deref_Ok in Hn.
  pose proof (marks_only_insert st root n Hn) as Hmo0.
  pose proof (is_marked_insert st root n Hn) as Hrm.
  apply bfsLoop_spec in H as (more & -> & Hnd & Hmo & Hall & Hch & Hcl).
  - exists more. split_and!; try done.
    + by eapply marks_only_trans.
    + simpl. intros h [Hne Hh]%not_elem_of_cons.
      rewrite (Hch h Hh). by rewrite list_lookup_insert_ne.
    + intros h c Hh Hc. apply (Hcl h); [done|].
      by rewrite (marks_only_kids st).
  - simpl. by intros h ->%list_elem_of_singleton.
  - simpl. apply NoDup_singleton.
Qed.

(** *** Termination of the traversal *)

Lemma unmarkedCount_cons (n : Node.t) (st : heap) :
  unmarkedCount (n :: st)
  = (if Node.marked n then 0 else 1) + unmarkedCount st.
Proof.
  unfold unmarkedCount. rewrite filter_cons.
  destruct (Node.marked n) eqn:E.
  - by rewrite decide_False by congruence.
  - by rewrite decide_True.
Qed.

Lemma unmarkedCount_le (st : heap) : unmarkedCount st ≤ length st.
Proof. apply length_filter. Qed.

Lemma unmarkedCount_insert (st : heap) :
  ∀ c n, st !! c = Some n → Node.marked n = false →
  unmarkedCount (<[c := Node.set_marked true n]> st) + 1 = unmarkedCount st.
Proof.
  induction st as [|x st IH]; intros c n Hn Hm; [done|].
  destruct c as [|c]; simpl in *.
  - injection Hn as ->. rewrite !unmarkedCount_cons. simpl. rewrite Hm. lia.
  - rewrite !unmarkedCount_cons. rewrite <- (IH c n Hn Hm). lia.
Qed.

Lemma unmarkedCount_marked (st : heap) (h : ref) :
  is_marked st h → unmarkedCount st < length st.
Proof.
  intros (n & Hn & Hm). revert h Hn.
  induction st as [|x st IH]; intros h Hn; [done|].
  rewrite unmarkedCount_cons. destruct h as [|h]; simpl in *.
  - injection Hn as ->. rewrite Hm. pose proof (unmarkedCount_le st). lia.
  - specialize (IH h Hn). destruct (Node.marked x); lia.
Qed.

Lemma closed_marks_only (st st' : heap) :
  marks_only st st' → closed st → closed st'.
Proof.
  intros Hmo Hcl h n c Hn Hc.
  destruct (Hmo) as [Hlen _]. rewrite Hlen.
  assert (c ∈ kids st' h) as Hk by (unfold kids; by rewrite Hn).
  rewrite (marks_only_kids st st' h Hmo) in Hk. unfold kids in Hk.
  destruct (st !! h) as [m|] eqn:E; [|by apply elem_of_nil in Hk].
  by eapply Hcl.
Qed.

Lemma markChildren_total (cs : list ref) :
  ∀ (st : heap) (nodes : list ref),
  (∀ c, c ∈ cs → c < length st) →
  ∃ st' new,
    PoolGraph.markChildren st cs nodes = Ok (st', nodes ++ new) ∧
    unmarkedCount st' + length new = unmarkedCount st ∧
    (∀ c, c ∈ new → c < length st).
Proof.
  induction cs as [|c cs IH]; intros st nodes Hv; simpl.
  - exists st, []. rewrite app_nil_r. split_and!; [done | simpl; lia |].
    intros c Hc. by apply elem_of_nil in Hc.
  - destruct (lookup_lt_is_Some_2 st c) as [n Hn]; [apply Hv; by left|].
    unfold deref. rewrite Hn. simpl. destruct (Node.marked n) eqn:Hm.
    + apply IH. intros c' Hc'. apply Hv. by right.
    + destruct (IH (<[c:=Node.set_marked true n]> st) (nodes ++ [c]))
        as (st' & new & -> & Hcount & Hnew).
      { intros c' Hc'. rewrite length_insert. apply Hv. by right. }
      exists st', (c :: new). rewrite <- app_assoc. split_and!; [done | |].
      * pose proof (unmarkedCount_insert st c n Hn Hm). simpl. lia.
      * rewrite length_insert in Hnew.
        intros c' [->|Hc']%elem_of_cons; [apply Hv; by left | by apply Hnew].
Qed.

(** The loop ends within as many rounds as the queue is long and the
    heap has nodes not marked yet. *)
Lemma bfsLoop_total (fuel : nat) :
  ∀ (st : heap) (nodes out : list ref),
  closed st →
  (∀ h, h ∈ nodes → h < length st) →
  length nodes + unmarkedCount st ≤ fuel →
  ∃ r, PoolGraph.bfsLoop fuel st nodes out = Ok r.
Proof.
  induction fuel as [|fuel IH]; intros st nodes out Hcl Hv Hfuel;
    destruct nodes as [|c rest]; simpl in *; eauto; [lia|].
  destruct (lookup_lt_is_Some_2 st c) as [n Hn]; [apply Hv; by left|].
  unfold deref. rewrite Hn. simpl.
  destruct (markChildren_total (Node.children n) st rest)
    as (st' & new & Hmc & Hcount & Hnew).
  { intros c' Hc'. by eapply Hcl. }
  rewrite Hmc. simpl.
  destruct (markChildren_spec _ _ _ _ _ Hmc) as (_ & _ & _ & Hmo & _).
  apply IH.
  - by eapply closed_marks_only.
  - destruct Hmo as [-> _].
    intros h [Hh|Hh]%elem_of_app; [apply Hv; by right | by apply Hnew].
  - rewrite length_app. lia.
Qed.

(** [orderByBfs] returns on every closed heap: its fuel is enough. *)
Lemma orderByBfs_total (st : heap) (root : ref) :
  closed st → root < length st →
  ∃ r, PoolGraph.orderByBfs st root = Ok r.
Proof.
  intros Hcl Hroot. unfold PoolGraph.orderByBfs, deref.
  destruct (lookup_lt_is_Some_2 st root Hroot) as [n Hn]. rewrite Hn. simpl.
  pose proof (marks_only_insert st root n Hn) as Hmo.
  apply bfsLoop_total.
  - by eapply closed_marks_only.
  - intros h ->%list_elem_of_singleton. by rewrite length_insert.
  - pose proof (unmarkedCount_marked _ root (is_marked_insert st root n Hn)).
    rewrite length_insert in H. simpl. lia.
Qed.

(** *** Level order on a tree *)

Lemma insert_marked_alter (st : heap) (c : ref) (n : Node.t) :
  st !! c = Some n →
  <[c := Node.set_marked true n]> st = alter (Node.set_marked true) c st.
Proof.
  intros Hn. apply list_eq. intros i. destruct (decide (i = c)) as [->|Hne].
  - rewrite list_lookup_insert_eq by (by eapply lookup_lt_Some).
    by rewrite list_lookup_alter_eq, Hn.
  - by rewrite list_lookup_insert_ne, list_lookup_alter_ne.
Qed.

Lemma marks_only_alter (st : heap) (c : ref) :
  marks_only st (alter (Node.set_marked true) c st).
Proof.
  destruct (st !! c) as [n|] eqn:E.
  - rewrite <- (insert_marked_alter st c n E). by apply marks_only_insert.
  - split; [by rewrite length_alter|]. intros h m Hm. left.
    rewrite list_lookup_alter_ne; [done|]. congruence.
Qed.

Lemma marks_only_mark_all (cs : list ref) (st : heap) :
  marks_only st (mark_all cs st).
Proof.
  revert st. induction cs as [|c cs IH]; intros st; simpl.
  - apply marks_only_refl.
  - eapply marks_only_trans; [apply marks_only_alter | apply IH].
Qed.

Lemma lookup_mark_all_notin (cs : list ref) (st : heap) (h : ref) :
  h ∉ cs → mark_all cs st !! h = st !! h.
Proof.
  revert st. induction cs as [|c cs IH]; intros st Hh; simpl; [done|].
  apply not_elem_of_cons in Hh as [Hne Hh].
  rewrite IH by done. by rewrite list_lookup_alter_ne.
Qed.

Lemma mark_all_app (a b : list ref) (st : heap) :
  mark_all (a ++ b) st = mark_all b (mark_all a st).
Proof. revert st. induction a as [|c a IH]; intros st; simpl; [done | apply IH]. Qed.

Lemma markChildren_fresh (cs : list ref) :
  ∀ (st : heap) (nodes : list ref),
  NoDup cs → (∀ c, c ∈ cs → is_unmarked st c) →
  PoolGraph.markChildren st cs nodes = Ok (mark_all cs st, nodes ++ cs).
Proof.
  induction cs as [|c cs IH]; intros st nodes Hnd Hun; simpl.
  - by rewrite app_nil_r.
  - apply NoDup_cons in Hnd as [Hc Hnd].
    destruct (Hun c) as (n & Hn & Hm); [by left|].
    unfold deref. rewrite Hn. simpl. rewrite Hm.
    rewrite (insert_marked_alter st c n Hn), IH; [by rewrite <- app_assoc|done|].
    intros c' Hc'. destruct (Hun c') as (n' & Hn' & Hm'); [by right|].
    exists n'. split; [|done]. rewrite list_lookup_alter_ne; [done|].
    by intros ->.
Qed.

Lemma kids_ext_flat_map (st st' : heap) (L : list ref) :
  (∀ h, kids st' h = kids st h) →
  flat_map (kids st') L = flat_map (kids st) L.
Proof. intros H. by apply flat_map_ext. Qed.

Lemma level_at_ext (st st' : heap) (d : nat) :
  (∀ h, kids st' h = kids st h) →
  ∀ L, level_at st' d L = level_at st d L.
Proof.
  intros H. induction d as [|d IH]; intros L; simpl; [done|].
  by rewrite IH, (kids_ext_flat_map st st').
Qed.

Lemma levels_ext (st st' : heap) (d : nat) :
  (∀ h, kids st' h = kids st h) →
  ∀ L, levels st' d L = levels st d L.
Proof.
  intros H. induction d as [|d IH]; intros L; simpl; [done|].
  by rewrite IH, (kids_ext_flat_map st st').
Qed.

Lemma levels_snoc (st : heap) (d : nat) :
  ∀ L, levels st (S d) L = levels st d L ++ level_at st d L.
Proof.
  induction d as [|d IH]; intros L.
  - simpl. by rewrite app_nil_r.
  - change (levels st (S (S d)) L)
      with (L ++ levels st (S d) (flat_map (kids st) L)).
    rewrite IH. simpl. by rewrite app_assoc.
Qed.

(** One whole level [L] at the head of the queue: its nodes go to the
    output and their children, all new, to the end of the queue. *)
Lemma bfsLoop_level (L : list ref) :
  ∀ (Q : list ref) (st : heap) (out : list ref) (fuel : nat),
  (∀ h, h ∈ L → is_Some (st !! h)) →
  NoDup (flat_map (kids st) L) →
  (∀ c, c ∈ flat_map (kids st) L → is_unmarked st c) →
  PoolGraph.bfsLoop (length L + fuel) st (L ++ Q) out =
  PoolGraph.bfsLoop fuel (mark_all (flat_map (kids st) L) st)
    (Q ++ flat_map (kids st) L) (out ++ L).
Proof.
  induction L as [|c L IH]; intros Q st out fuel Hv Hnd Hun; simpl.
  - by rewrite !app_nil_r.
  - destruct (Hv c) as [n Hn]; [by left|].
    simpl in Hnd. apply NoDup_app in Hnd as (Hnd1 & Hdisj & Hnd2).
    assert (kids st c = Node.children n) as Hk by (unfold kids; by rewrite Hn).
    unfold deref at 1. rewrite Hn. simpl.
    rewrite <- Hk, markChildren_fresh; [simpl|done|].
    2:{ intros c' Hc'. apply Hun. simpl. apply elem_of_app. by left. }
    pose proof (marks_only_mark_all (kids st c) st) as Hmo.
    assert (∀ h, kids (mark_all (kids st c) st) h = kids st h) as Hke.
    { intros h. by apply marks_only_kids. }
    rewrite <- (app_assoc L Q), IH.
    + rewrite (kids_ext_flat_map st _ L Hke), mark_all_app.
      by rewrite <- !app_assoc.
    + intros h Hh. destruct (Hv h) as [m Hm]; [by right|].
      destruct Hmo as [_ Hmo]. destruct (Hmo _ _ Hm) as [->|[_ ->]]; eauto.
    + by rewrite (kids_ext_flat_map st _ L Hke).
    + rewrite (kids_ext_flat_map st _ L Hke). intros c' Hc'.
      destruct (Hun c') as (n' & Hn' & Hm'); [simpl; apply elem_of_app; by right|].
      exists n'. split; [|done]. rewrite lookup_mark_all_notin; [done|].
      intros Hin. by apply (Hdisj c').
Qed.

(** The loop started on a level [L] whose strict descendants are new and
    pairwise distinct: the output is the level order below [L]. *)
Lemma bfsLoop_levels (d : nat) :
  ∀ (L : list ref) (st : heap) (out : list ref) (fuel : nat),
  level_at st d L = [] →
  (∀ h, h ∈ L → is_Some (st !! h)) →
  NoDup (levels st d (flat_map (kids st) L)) →
  (∀ c, c ∈ levels st d (flat_map (kids st) L) → is_unmarked st c) →
  length (levels st d L) ≤ fuel →
  ∃ st', PoolGraph.bfsLoop fuel st L out = Ok (st', out ++ levels st d L).
Proof.
  induction d as [|d IH]; intros L st out fuel Hlast Hv Hnd Hun Hfuel.
  - simpl in Hlast. subst L. exists st. destruct fuel; simpl; by rewrite app_nil_r.
  - simpl in Hlast, Hfuel. rewrite length_app in Hfuel.
    pose proof (bfsLoop_level L [] st out (fuel - length L) Hv) as Hstep.
    rewrite app_nil_r in Hstep. simpl in Hstep.
    replace (length L + (fuel - length L)) with fuel in Hstep by lia.
    set (K := flat_map (kids st) L) in *.
    assert (NoDup K ∧ (∀ c, c ∈ K → is_unmarked st c) ∧
            NoDup (levels st d (flat_map (kids st) K)) ∧
            (∀ c, c ∈ levels st d (flat_map (kids st) K) →
                  is_unmarked st c ∧ c ∉ K)) as (HndK & HunK & Hnd' & Hun').
    { destruct d as [|d'].
      - simpl in Hlast. rewrite Hlast. simpl.
        split_and!; try apply NoDup_nil_2; intros c Hc; by apply elem_of_nil in Hc.
      - change (levels st (S (S d')) K)
          with (K ++ levels st (S d') (flat_map (kids st) K)) in Hnd, Hun.
        apply NoDup_app in Hnd as (HndK & Hdisj & Hnd').
        split_and!; try done.
        + intros c Hc. apply Hun, elem_of_app. by left.
        + intros c Hc. split; [apply Hun, elem_of_app; by right|].
          intros Hin. by apply (Hdisj c). }
    rewrite Hstep by done.
    pose proof (marks_only_mark_all K st) as Hmo.
    assert (∀ h, kids (mark_all K st) h = kids st h) as Hke.
    { intros h. by apply marks_only_kids. }
    destruct (IH K (mark_all K st) (out ++ L) (fuel - length L)) as [st' Hst'].
    + by rewrite (level_at_ext st).
    + intros h Hh. destruct (HunK h Hh) as (m & Hm & _).
      destruct Hmo as [_ Hmo]. destruct (Hmo _ _ Hm) as [->|[_ ->]]; eauto.
    + by rewrite (kids_ext_flat_map st), (levels_ext st).
    + rewrite (kids_ext_flat_map st), (levels_ext st) by done. intros c Hc.
      destruct (Hun' c Hc) as [(n' & Hn' & Hm') Hnotin].
      exists n'. split; [|done]. by rewrite lookup_mark_all_notin.
    + rewrite (levels_ext st) by done. lia.
    + exists st'. rewrite Hst'.
      rewrite (levels_ext st) by done. simpl. by rewrite <- app_assoc.
Qed.

Lemma NoDup_bounded_length (l : list nat) (n : nat) :
  NoDup l → (∀ x, x ∈ l → x < n) → length l ≤ n.
Proof.
  intros Hnd Hb. trans (length (seq 0 n)); [|by rewrite length_seq].
  apply submseteq_length, NoDup_submseteq; [done|].
  intros x Hx. apply elem_of_seq. specialize (Hb x Hx). lia.
Qed.

Lemma orderByBfs_tree (st : heap) (root : ref) (d : nat) :
  is_tree st root d →
  (∀ h, h ∈ levels st d [root] → is_unmarked st h) →
  ∃ st', PoolGraph.orderByBfs st root = Ok (st', levels st d [root]).
Proof.
  intros [Hlast Hnd] Hun. destruct d as [|d]; [discriminate|].
  destruct (Hun root) as (n & Hn & Hm); [simpl; by left|].
  unfold PoolGraph.orderByBfs, deref. rewrite Hn. simpl mbind.
  pose proof (marks_only_insert st root n Hn) as Hmo.
  set (st0 := <[root:=Node.set_marked true n]> st) in *.
  assert (∀ h, kids st0 h = kids st h) as Hke.
  { intros h. by apply marks_only_kids. }
  assert (levels st (S d) (flat_map (kids st) [root]) =
          levels st d (flat_map (kids st) [root])) as Htail.
  { change (level_at st (S d) [root])
      with (level_at st d (flat_map (kids st) [root])) in Hlast.
    by rewrite levels_snoc, Hlast, app_nil_r. }
  assert (levels st (S d) [root] = root :: levels st d (flat_map (kids st) [root]))
    as Hall by done.
  rewrite Hall in Hnd, Hun. apply NoDup_cons in Hnd as [Hroot Hnd].
  destruct (bfsLoop_levels (S d) [root] st0 [] (length st)) as [st' Hst'].
  - by rewrite (level_at_ext st).
  - intros h ->%list_elem_of_singleton. destruct (is_marked_insert st root n Hn)
      as (m & ? & _). eauto.
  - by rewrite (kids_ext_flat_map st), (levels_ext st), Htail.
  - rewrite (kids_ext_flat_map st), (levels_ext st), Htail by done.
    intros c Hc. destruct (Hun c) as (n' & Hn' & Hm'); [by right|].
    exists n'. split; [|done]. unfold st0. rewrite list_lookup_insert_ne; [done|].
    by intros ->.
  - rewrite (levels_ext st) by done. rewrite Hall.
    apply NoDup_bounded_length; [by apply NoDup_cons|].
    intros x Hx. destruct (Hun x Hx) as (m & Hmx & _). by eapply lookup_lt_Some.
  - exists st'. rewrite Hst', app_nil_l. by rewrite (levels_ext st).
Qed.

(** *** Levels and reachability *)

Lemma level_at_nil (st : heap) (k : nat) : level_at st k [] = [].
Proof. induction k as [|k IH]; simpl; [done | apply IH]. Qed.

Lemma level_at_add (st : heap) (a b : nat) :
  ∀ L, level_at st (a + b) L = level_at st b (level_at st a L).
Proof. induction a as [|a IH]; intros L; simpl; [done | apply IH]. Qed.

Lemma elem_of_levels (st : heap) (d : nat) (h : ref) :
  ∀ L, h ∈ levels st d L ↔ ∃ k, k < d ∧ h ∈ level_at st k L.
Proof.
  induction d as [|d IH]; intros L; simpl.
  - split; [by intros ?%elem_of_nil | intros (k & ? & _); lia].
  - rewrite elem_of_app, IH. split.
    + intros [Hh|(k & Hk & Hh)]; [exists 0; split; [lia|done]|].
      exists (S k). split; [lia|done].
    + intros ([|k] & Hk & Hh); [by left|].
      right. exists k. split; [lia|done].
Qed.

Lemma levels_reachable (st : heap) (root : ref) (d : nat) (h : ref) :
  level_at st d [root] = [] →
  h ∈ levels st d [root] ↔ reachable st root h.
Proof.
  intros Hlast. rewrite elem_of_levels. split.
  - intros (k & _ & Hh). by exists k.
  - intros [k Hh]. exists k. split; [|done].
    destruct (decide (k < d)) as [|Hge]; [done|].
    replace k with (d + (k - d)) in Hh by lia.
    rewrite level_at_add, Hlast, level_at_nil in Hh.
    by apply elem_of_nil in Hh.
Qed.

Lemma markChildren_all_marked (cs : list ref) (st : heap) (nodes : list ref) :
  (∀ c, c ∈ cs → is_marked st c) →
  PoolGraph.markChildren st cs nodes = Ok (st, nodes).
Proof.
  induction cs as [|c cs IH]; intros Hm; simpl; [done|].
  destruct (Hm c) as (n & Hn & Hmk); [by left|].
  unfold deref. rewrite Hn. simpl. rewrite Hmk. apply IH.
  intros c' Hc'. apply Hm. by right.
Qed.

(** *** The sample tree *)

Lemma tree_built : Example.buildRoot "id-root" false = Ok (Example.tree, 0).
Proof. vm_compute. reflexivity. Qed.

Lemma tree_ordered :
  PoolGraph.orderByBfs Example.tree 0 = Ok (Example.orderedTree, [0; 1; 2; 3]).
Proof. vm_compute. reflexivity. Qed.

(** The shared child of the diamond is returned once. *)
Lemma diamond_ordered :
  closed Example.diamond ∧
  ∃ st', PoolGraph.orderByBfs Example.diamond 0 = Ok (st', [0; 1; 2; 3]).
Proof.
  split.
  - intros h n c Hn Hc. destruct h as [|[|[|[|h]]]]; simpl in Hn;
      try discriminate; injection Hn as <-; simpl in *;
      repeat (apply elem_of_cons in Hc as [->|Hc]; [lia|]);
      by apply elem_of_nil in Hc.
  - eexists. vm_compute. reflexivity.
Qed.

(** *** The claims on [orderByBfs] *)

(** C7, as the code has it.  [orderByBfs] writes the [marked] flag and
    nothing else: the heap keeps its size, every node keeps every other
    field, the nodes returned are marked afterwards, and a node that is not
    returned is unchanged. *)
Theorem orderByBfs_changes_only_marked
    (st : heap) (root : ref) (st' : heap) (out : list ref) :
  PoolGraph.orderByBfs st root = Ok (st', out) →
  length st' = length st ∧
  ∀ h n, st !! h = Some n →
    ∃ n', st' !! h = Some n' ∧
      Node.set_marked (Node.marked n) n' = n ∧
      (h ∈ out → Node.marked n' = true) ∧
      (h ∉ out → n' = n).
Proof.
  intros H. apply orderByBfs_spec in H
    as (more & _ & -> & _ & [Hlen Hmo] & Hall & Hfr & _).
  split; [done|]. intros h n Hn.
  destruct (Hmo h n Hn) as [Hn'|[Hm Hn']].
  - exists n. split_and!; try done.
    + by destruct n.
    + intros Hin. destruct (Hall h Hin) as (m & Hm & Hmm). congruence.
  - exists (Node.set_marked true n). split_and!; try done.
    + destruct n; simpl in *. by subst.
    + intros Hout. specialize (Hfr h Hout). congruence.
Qed.

(** C7, as the specification states it, fails on the sample tree: the
    root is not marked before the call and is marked after it. *)
Lemma orderByBfs_marks_the_root :
  ¬ (∀ poolId wrapMainTokens st root st' out h,
       Example.buildRoot poolId wrapMainTokens = Ok (st, root) →
       PoolGraph.orderByBfs st root = Ok (st', out) →
       reachable st root h →
       st' !! h = st !! h).
Proof.
  intros H.
  specialize (H "id-root" false Example.tree 0 Example.orderedTree [0; 1; 2; 3] 0
                ltac:(vm_compute; reflexivity) ltac:(vm_compute; reflexivity)).
  assert (reachable Example.tree 0 0) as Hr by (exists 0; by left).
  apply H in Hr. apply (f_equal (fmap Node.marked)) in Hr.
  vm_compute in Hr. discriminate.
Qed.

Lemma orderByBfs_changes_only_marked_witness :
  length Example.orderedTree = length Example.tree ∧
  ∀ h n, Example.tree !! h = Some n →
    ∃ n', Example.orderedTree !! h = Some n' ∧
      Node.set_marked (Node.marked n) n' = n ∧
      (h ∈ [0; 1; 2; 3] → Node.marked n' = true) ∧
      (h ∉ [0; 1; 2; 3] → n' = n).
Proof.
  apply (orderByBfs_changes_only_marked Example.tree 0).
  vm_compute. reflexivity.
Defined.

(** C10.  [orderByBfs] leaves every node it returns marked, and takes no
    mark away; so a second call on the same root returns the root alone,
    and changes nothing. *)
Theorem orderByBfs_twice
    (st : heap) (root : ref) (st1 : heap) (out1 : list ref) :
  PoolGraph.orderByBfs st root = Ok (st1, out1) →
  Forall (is_marked st1) out1 ∧
  (∀ h, is_marked st h → is_marked st1 h) ∧
  PoolGraph.orderByBfs st1 root = Ok (st1, [root]).
Proof.
  intros H. apply orderByBfs_spec in H
    as (more & Hroot & -> & _ & Hmo & Hall & _ & Hcl).
  split_and!.
  - by apply Forall_forall.
  - intros h. by apply marks_only_marked.
  - destruct (Hall root) as (m & Hm & Hmm); [by left|].
    unfold PoolGraph.orderByBfs, deref. rewrite Hm. simpl mbind.
    rewrite set_marked_id, list_insert_id by done.
    destruct (length st1) as [|fuel] eqn:Hlen.
    { apply lookup_lt_Some in Hm. lia. }
    simpl. unfold deref. rewrite Hm. simpl.
    rewrite markChildren_all_marked.
    + by destruct fuel.
    + intros c Hc. apply (Hcl root); [by left|].
      rewrite <- (marks_only_kids st st1) by done.
      unfold kids. by rewrite Hm.
Qed.

Lemma orderByBfs_twice_witness :
  Forall (is_marked Example.orderedTree) [0; 1; 2; 3] ∧
  (∀ h, is_marked Example.tree h → is_marked Example.orderedTree h) ∧
  PoolGraph.orderByBfs Example.orderedTree 0 = Ok (Example.orderedTree, [0]).
Proof.
  apply (orderByBfs_twice Example.tree 0). vm_compute. reflexivity.
Defined.

(** ** Path extraction *)

Lemma set_index_id (n : Node.t) : Node.set_index (Node.index n) n = n.
Proof. by destruct n. Qed.

Lemma set_index_set_index (i j : string) (n : Node.t) :
  Node.set_index i (Node.set_index j n) = Node.set_index i n.
Proof. done. Qed.

Lemma last_reverse_head {A} (l : list A) : last (reverse l) = head l.
Proof. destruct l as [|x l]; [done|]. by rewrite reverse_cons, last_snoc. Qed.

(** [zeroIndices] writes the index of the nodes listed, and nothing else. *)
Lemma zeroIndices_spec (cs : list ref) :
  ∀ (st st' : heap),
  PoolGraph.zeroIndices st cs = Ok st' →
  length st' = length st ∧
  ∀ h n, st !! h = Some n →
    st' !! h = Some (if decide (h ∈ cs) then Node.set_index "0" n else n).
Proof.
  induction cs as [|c cs IH]; intros st st' H; simpl in H.
  - injection H as <-. split; [done|]. intros h n Hn.
    by rewrite decide_False by apply not_elem_of_nil.
  - apply bind_Ok in H as (st1 & Hup & H). unfold update in Hup.
    apply bind_Ok in Hup as (m & Hm & Hup). apply deref_Ok in Hm.
    injection Hup as <-.
    destruct (IH _ _ H) as [Hlen Hfr]. split.
    { by rewrite Hlen, length_insert. }
    intros h n Hn. destruct (decide (h = c)) as [->|Hne].
    + assert (m = n) as -> by congruence.
      rewrite (Hfr c (Node.set_index "0" n)).
      2:{ apply list_lookup_insert_eq. by eapply lookup_lt_Some. }
      rewrite (decide_True (P := c ∈ c :: cs)) by by left.
      by destruct (decide (c ∈ cs)).
    + rewrite (Hfr h n) by by rewrite list_lookup_insert_ne.
      destruct (decide (h ∈ cs)) as [Hin|Hnin].
      * by rewrite decide_True by by right.
      * rewrite decide_False; [done|]. by intros [?|?]%elem_of_cons.
Qed.

(** [filterChildren] keeps the children whose address differs from that of
    the first node of the path. *)
Lemma filterChildren_spec (st : heap) (first : ref) (cs : list ref) :
  ∀ kept, PoolGraph.filterChildren st first cs = Ok kept →
  ∀ c, c ∈ kept →
    c ∈ cs ∧ ∃ n f a fa, st !! c = Some n ∧ st !! first = Some f ∧
      lowerAddress n = Ok a ∧ lowerAddress f = Ok fa ∧ a ≠ fa.
Proof.
  induction cs as [|c cs IH]; intros kept H x Hx; simpl in H.
  - injection H as <-. by apply elem_of_nil in Hx.
  - apply bind_Ok in H as (n & Hn & H). apply bind_Ok in H as (a & Ha & H).
    apply bind_Ok in H as (f & Hf & H). apply bind_Ok in H as (fa & Hfa & H).
    apply bind_Ok in H as (kept' & Hk & H). injection H as <-.
    apply deref_Ok in Hn, Hf.
    destruct (String.eqb a fa) eqn:E.
    + destruct (IH _ Hk x Hx) as [? ?]. split; [by right | done].
    + apply elem_of_cons in Hx as [->|Hx].
      * split; [by left|]. exists n, f, a, fa. split_and!; try done.
        by apply String.eqb_neq.
      * destruct (IH _ Hk x Hx) as [? ?]. split; [by right | done].
Qed.

(** The walk to the root appends fresh copies of the ancestors to the
    path.  Only its first round writes to nodes that were there before:
    the index of children of the first ancestor. *)
Lemma walkToRoot_spec (fuel : nat) :
  ∀ (st : heap) (parentNode : option ref) (index startingIndex : nat)
    (nodesToRoot : list ref) (st' : heap) (path : list ref),
  PoolGraph.walkToRoot fuel st parentNode index startingIndex nodesToRoot
    = Ok (st', path) →
  startingIndex < index →
  ∃ copies, path = nodesToRoot ++ copies ∧
    Forall (λ r, length st ≤ r < length st') copies ∧
    length st ≤ length st' ∧
    ∀ h n, st !! h = Some n →
      st' !! h = Some n ∨
      (st' !! h = Some (Node.set_index "0" n) ∧
       index = S startingIndex ∧
       ∃ p pn first f a fa,
         parentNode = Some p ∧ st !! p = Some pn ∧ h ∈ Node.children pn ∧
         head nodesToRoot = Some first ∧ st !! first = Some f ∧
         lowerAddress n = Ok a ∧ lowerAddress f = Ok fa ∧ a ≠ fa).
Proof.
  induction fuel as [|fuel IH];
    intros st parentNode index si nodesToRoot st' path H Hidx;
    destruct parentNode as [p|]; simpl in H; try discriminate.
  - injection H as <- <-. exists []. rewrite app_nil_r.
    split_and!; try done. intros h n Hn. by left.
  - apply bind_Ok in H as (pn & Hpn & H). apply deref_Ok in Hpn.
    apply bind_Ok in H as ([st1 node1] & Hfirst & H).
    unfold alloc in H.
    assert (length st1 = length st ∧
            ∀ h n, st !! h = Some n →
              st1 !! h = Some n ∨
              (st1 !! h = Some (Node.set_index "0" n) ∧
               index = S si ∧
               ∃ first f a fa,
                 h ∈ Node.children pn ∧
                 head nodesToRoot = Some first ∧ st !! first = Some f ∧
                 lowerAddress n = Ok a ∧ lowerAddress f = Ok fa ∧ a ≠ fa))
      as [Hlen1 Hfr1].
    { destruct (Nat.eqb (index - 1) si) eqn:E.
      - apply Nat.eqb_eq in E.
        apply bind_Ok in Hfirst as (first & Hhd & Hfirst).
        apply fromOption_Ok in Hhd.
        apply bind_Ok in Hfirst as (kept & Hk & Hfirst).
        apply bind_Ok in Hfirst as (stz & Hz & Hfirst).
        injection Hfirst as <- <-.
        apply zeroIndices_spec in Hz as [Hlen Hfr]. split; [done|].
        intros h n Hn. rewrite (Hfr h n Hn).
        destruct (decide (h ∈ kept)) as [Hin|Hnin]; [right | by left].
        destruct (filterChildren_spec _ _ _ _ Hk h Hin)
          as (Hc & n0 & f & a & fa & Hn0 & Hf & Ha & Hfa & Hne).
        assert (n0 = n) as -> by congruence.
        split_and!; [done | lia |]. by exists first, f, a, fa.
      - injection Hfirst as <- <-. split; [done|]. intros h n Hn. by left. }
    apply IH in H as (copies & -> & Hcopies & Hlen & Hfr); [|lia].
    rewrite length_app in Hlen, Hcopies. simpl in Hlen, Hcopies.
    exists (length st1 :: copies). split_and!.
    + by rewrite <- app_assoc.
    + constructor; [lia|]. eapply Forall_impl; [exact Hcopies|].
      simpl. intros r Hr. lia.
    + lia.
    + intros h n Hn.
      assert (∀ m, st1 !! h = Some m → st' !! h = Some m) as Hkeep.
      { intros m Hm. destruct (Hfr h m) as [?|(_ & ? & _)]; [|done|lia].
        by apply lookup_app_l_Some. }
      destruct (Hfr1 h n Hn) as [Hs|(Hs & Hi & first & f & a & fa & Hrest)].
      * left. by apply Hkeep.
      * right. split_and!; [by apply Hkeep | done |].
        exists p, pn, first, f, a, fa.
        destruct Hrest as (? & ? & ? & ? & ? & ?). by split_and!.
  - injection H as <- <-. exists []. rewrite app_nil_r.
    split_and!; try done. intros h n Hn. by left.
Qed.

Lemma findNode_spec (st : heap) (inputToken : string) (nodes : list ref) :
  ∀ r, PoolGraph.findNode st nodes inputToken = Ok (Some r) →
  r ∈ nodes ∧ ∃ n, st !! r = Some n ∧
    lowerAddress n = Ok (toLowerCase inputToken).
Proof.
  induction nodes as [|x nodes IH]; intros r H; simpl in H; [discriminate|].
  apply bind_Ok in H as (n & Hn & H). apply bind_Ok in H as (a & Ha & H).
  apply deref_Ok in Hn.
  destruct (String.eqb a (toLowerCase inputToken)) eqn:E.
  - injection H as <-. apply String.eqb_eq in E. subst a.
    split; [by left | by exists n].
  - destruct (IH r H) as [? ?]. split; [by right | done].
Qed.

Lemma lowerAddress_Some (n : Node.t) (a : string) :
  Node.address n = Some a → lowerAddress n = Ok (toLowerCase a).
Proof. unfold lowerAddress. by intros ->. Qed.

Lemma tree_path :
  PoolGraph.getNodesToRoot Example.orderedTree [3; 2; 1; 0] "0xaaa" 0
    = Ok (Example.afterPath, [1; 5]).
Proof. vm_compute. reflexivity. Qed.

(** C1, as the code has it.  [getNodesToRoot] compares the input token
    with the address of the last node of the list it is given: whenever the
    two agree up to case, the call fails with [INPUT_TOKEN_INVALID],
    whatever the heap, the rest of the list and [startingIndex].  The root
    is rejected when the list ends with it, as the reverse of the
    breadth-first order does. *)
Theorem getNodesToRoot_rejects_last_node
    (st : heap) (orderedNodes : list ref) (inputToken : string)
    (startingIndex : nat) (lastRef : ref) (lastNode : Node.t) (a : string) :
  last orderedNodes = Some lastRef →
  st !! lastRef = Some lastNode →
  Node.address lastNode = Some a →
  toLowerCase inputToken = toLowerCase a →
  PoolGraph.getNodesToRoot st orderedNodes inputToken startingIndex
    = Err INPUT_TOKEN_INVALID.
Proof.
  intros Hlast Hn Ha Heq. unfold PoolGraph.getNodesToRoot, deref.
  rewrite Hlast. simpl. rewrite Hn. simpl.
  rewrite (lowerAddress_Some _ _ Ha). simpl.
  by rewrite Heq, String.eqb_refl.
Qed.

(** C1, as the specification states it, fails on the sample tree: given
    the breadth-first order itself, whose last node is a leaf, the call
    with the root's address returns a path. *)
Lemma getNodesToRoot_accepts_root_in_bfs_order :
  ¬ (∀ poolId wrapMainTokens st root st' out n a inputToken startingIndex,
       Example.buildRoot poolId wrapMainTokens = Ok (st, root) →
       PoolGraph.orderByBfs st root = Ok (st', out) →
       st' !! root = Some n →
       Node.address n = Some a →
       toLowerCase inputToken = toLowerCase a →
       PoolGraph.getNodesToRoot st' out inputToken startingIndex
         = Err INPUT_TOKEN_INVALID).
Proof.
  intros H.
  pose proof (H "id-root" false _ 0 _ _ _ "0xroot" "0xROOT" 7
                tree_built tree_ordered eq_refl eq_refl eq_refl) as Hr.
  vm_compute in Hr. discriminate.
Qed.

Lemma getNodesToRoot_rejects_last_node_witness :
  PoolGraph.getNodesToRoot Example.orderedTree (reverse [0; 1; 2; 3])
    "0xROOT" 0 = Err INPUT_TOKEN_INVALID.
Proof.
  eapply (getNodesToRoot_rejects_last_node Example.orderedTree
            (reverse [0; 1; 2; 3]) "0xROOT" 0 0).
  - reflexivity.
  - reflexivity.
  - reflexivity.
  - reflexivity.
Defined.




(** C4 fails on the code.  The input token ["0xaaa"] matches node 1 of the
    sample tree, an Input leaf.  The first node of the path returned is
    node 1 itself, and it still has the proportion and the index of the
    tree, not 10^18 and ["0"]: those were written to a copy that the
    function drops. *)
Theorem getNodesToRoot_leaf_not_rewritten :
  PoolGraph.getNodesToRoot Example.orderedTree [3; 2; 1; 0] "0xaaa" 0
    = Ok (Example.afterPath, [1; 5]) ∧
  Node.joinAction <$> Example.orderedTree !! 1 = Some join_input ∧
  Node.proportionOfParent <$> Example.afterPath !! 1
    = Some 333333333333333333%Z ∧
  Node.index <$> Example.afterPath !! 1 = Some "1".
Proof. split_and!; vm_compute; reflexivity. Qed.

(** ** Building the tree *)

Lemma bind_Ok_l {A B} (a : A) (f : A → result B) : Ok a ≫= f = f a.
Proof. done. Qed.

Lemma fromOption_Some {A} (e : error) (a : A) : fromOption e (Some a) = Ok a.
Proof. done. Qed.

Lemma fromOption_Err {A} (e e' : error) (o : option A) :
  fromOption e o = Err e' → e' = e ∧ o = None.
Proof. destruct o; simpl; [discriminate|]. by intros [= <-]. Qed.

Lemma fromOption_Err_eq {A} (e e' : error) (o : option A) :
  fromOption e o = Err e' → e' = e.
Proof. by intros [? _]%fromOption_Err. Qed.

Lemma deref_Err (st : heap) (r : ref) (e : error) :
  deref st r = Err e → e = DanglingHandle.
Proof. intros H. by apply fromOption_Err_eq in H. Qed.

Lemma update_Err (st : heap) (r : ref) (f : Node.t → Node.t) (e : error) :
  update st r f = Err e → e = DanglingHandle.
Proof.
  unfold update. intros [H|(n & _ & H)]%bind_Err; [|discriminate].
  by apply deref_Err in H.
Qed.

Lemma bn_div_Err (a b : Z) (e : error) :
  bn_div a b = Err e → e = DivisionByZero ∧ b = 0%Z.
Proof.
  unfold bn_div. destruct (Z.eqb b 0) eqn:E; [|discriminate].
  intros [= <-]. split; [done | by apply Z.eqb_eq].
Qed.

Lemma bn_div_Ok (a b : Z) :
  b ≠ 0%Z → bn_div a b = Ok (Z.quot a b).
Proof. intros Hb. unfold bn_div. by apply Z.eqb_neq in Hb as ->. Qed.

Lemma WeiPerEther_pos : (0 < WeiPerEther)%Z.
Proof. by vm_compute. Qed.

Lemma finalProportion_Err (pool : Pool.t) (T P : Z) (i : nat) (e : error) :
  PoolGraph.finalProportion pool T P i = Err e →
  (e = InvalidBigNumber ∧ Pool.parsedBalances pool !! i = None) ∨
  (e = DivisionByZero ∧ T = 0%Z).
Proof.
  unfold PoolGraph.finalProportion, PoolGraph.childProportion.
  intros [H|(q & _ & H)]%bind_Err.
  - apply bind_Err in H as [H|(b & _ & H)].
    + left. by apply fromOption_Err in H.
    + right. by apply bn_div_Err in H.
  - apply bn_div_Err in H as [_ H]. pose proof WeiPerEther_pos. lia.
Qed.

Lemma finalProportion_Ok (pool : Pool.t) (T P : Z) (i : nat) (b : Z) :
  Pool.parsedBalances pool !! i = Some b → T ≠ 0%Z →
  PoolGraph.finalProportion pool T P i
    = Ok (Z.quot (Z.quot (b * WeiPerEther) T * P) WeiPerEther).
Proof.
  intros Hb HT. unfold PoolGraph.finalProportion, PoolGraph.childProportion.
  rewrite Hb. simpl. rewrite (bn_div_Ok _ T HT). simpl.
  apply bn_div_Ok. pose proof WeiPerEther_pos. lia.
Qed.

(** *** Well-formed heaps *)

Lemma extends_refl (st : heap) : extends st st.
Proof. by split. Qed.

Lemma extends_trans (st1 st2 st3 : heap) :
  extends st1 st2 → extends st2 st3 → extends st1 st3.
Proof. intros [L1 H1] [L2 H2]. split; [lia | auto]. Qed.

Lemma extends_app (st ext : heap) : extends st (st ++ ext).
Proof.
  split; [rewrite length_app; lia|]. intros k n. apply lookup_app_l_Some.
Qed.

Lemma wf_nil : wf [].
Proof. intros h n Hn. by rewrite lookup_nil in Hn. Qed.

Lemma wf_alloc (st : heap) (n : Node.t) :
  wf st → Node.children n = [] → Node.marked n = false → wf (st ++ [n]).
Proof.
  intros Hwf Hch Hm h m Hh.
  apply lookup_app_Some in Hh as [Hh|[_ Hh]].
  - destruct (Hwf h m Hh) as (? & ? & Hc). split_and!; try done.
    intros c Hin. destruct (Hc c Hin) as (? & cn & ? & ?).
    split; [done|]. exists cn. split; [by apply lookup_app_l_Some | done].
  - apply list_lookup_singleton_Some in Hh as [_ <-].
    rewrite Hch. split_and!; [done | apply NoDup_nil_2 |].
    intros c Hc. by apply elem_of_nil in Hc.
Qed.

Lemma wf_push_child (st : heap) (p c : ref) (pn cn : Node.t) :
  wf st → st !! p = Some pn → st !! c = Some cn →
  Node.parent cn = Some p → p < c → c ∉ Node.children pn →
  wf (<[p := Node.push_child c pn]> st).
Proof.
  intros Hwf Hp Hc Hpar Hlt Hnin h n Hh.
  assert (p < length st) as Hplen by by eapply lookup_lt_Some.
  assert (∀ x xn, st !! x = Some xn →
            ∃ xn', <[p := Node.push_child c pn]> st !! x = Some xn' ∧
                   Node.parent xn' = Node.parent xn) as Hkeep.
  { intros x xn Hx. destruct (decide (x = p)) as [->|Hne].
    - rewrite list_lookup_insert_eq by done. eexists. split; [done|].
      by assert (xn = pn) as -> by congruence.
    - rewrite list_lookup_insert_ne by done. by exists xn. }
  destruct (decide (h = p)) as [->|Hne].
  - rewrite list_lookup_insert_eq in Hh by done. injection Hh as <-.
    destruct (Hwf p pn Hp) as (Hm & Hnd & Hch). simpl.
    split_and!; [done | |].
    + apply NoDup_app. split_and!; [done | | apply NoDup_singleton].
      intros x Hx ->%list_elem_of_singleton. done.
    + intros x [Hx| ->%list_elem_of_singleton]%elem_of_app.
      * destruct (Hch x Hx) as (? & xn & Hxn & Hxp). split; [done|].
        destruct (Hkeep x xn Hxn) as (xn' & ? & ?). exists xn'. split; congruence.
      * split; [done|]. destruct (Hkeep c cn Hc) as (xn' & ? & ?).
        exists xn'. split; congruence.
  - rewrite list_lookup_insert_ne in Hh by done.
    destruct (Hwf h n Hh) as (Hm & Hnd & Hch). split_and!; [done | done |].
    intros x Hx. destruct (Hch x Hx) as (? & xn & Hxn & Hxp). split; [done|].
    destruct (Hkeep x xn Hxn) as (xn' & ? & ?). exists xn'. split; congruence.
Qed.

Lemma wf_children_lt (st : heap) (h c : ref) (n : Node.t) :
  wf st → st !! h = Some n → c ∈ Node.children n → h < c < length st.
Proof.
  intros Hwf Hn Hc. destruct (Hwf h n Hn) as (_ & _ & Hch).
  destruct (Hch c Hc) as (? & cn & Hcn & _). split; [done|].
  by eapply lookup_lt_Some.
Qed.

Lemma update_Ok (st : heap) (r : ref) (f : Node.t → Node.t) (st' : heap) :
  update st r f = Ok st' ↔ ∃ n, st !! r = Some n ∧ st' = <[r := f n]> st.
Proof.
  unfold update. rewrite bind_Ok. split.
  - intros (n & Hn%deref_Ok & [= <-]). by exists n.
  - intros (n & Hn & ->). exists n. by rewrite deref_Ok.
Qed.

(** A new leaf below [p], hung on [p]. *)
Lemma wf_alloc_push (st : heap) (p : ref) (pn leaf : Node.t) :
  wf st → st !! p = Some pn →
  Node.children leaf = [] → Node.marked leaf = false →
  Node.parent leaf = Some p →
  wf (<[p := Node.push_child (length st) pn]> (st ++ [leaf])).
Proof.
  intros Hwf Hp Hch Hm Hpar.
  assert (p < length st) as Hlt by by eapply lookup_lt_Some.
  eapply wf_push_child; try done.
  - by apply wf_alloc.
  - by apply lookup_app_l_Some.
  - by apply list_lookup_middle.
  - intros Hin. pose proof (wf_children_lt st p _ pn Hwf Hp Hin). lia.
Qed.

Lemma set_children_app_nil (n : Node.t) :
  Node.set_children (Node.children n ++ []) n = n.
Proof. destruct n; simpl. by rewrite app_nil_r. Qed.

Lemma createInputTokenNode_eq st nodeIndex address decimals parent P :
  ∃ leaf, PoolGraph.createInputTokenNode st nodeIndex address decimals parent P
            = (st ++ [leaf], length st, S nodeIndex) ∧
          Node.children leaf = [] ∧ Node.marked leaf = false ∧
          Node.parent leaf = parent ∧ Node.proportionOfParent leaf = P.
Proof. eexists. by split_and!. Qed.

(** The token loop of a non-linear pool: every child expanded is hung on
    the pool node [p], in order, with the proportion computed for its
    token; no other node that was there is touched. *)
Lemma expandTokens_ok (rec : PoolGraph.expand) pool T p P w toks :
  expand_ok rec →
  ∀ i st nodeIndex st' nodeIndex' pn,
  PoolGraph.expandTokens rec pool T p P w i toks st nodeIndex
    = Ok (st', nodeIndex') →
  wf st → st !! p = Some pn →
  length st ≤ length st' ∧
  (∀ k n, st !! k = Some n → k ≠ p → st' !! k = Some n) ∧
  wf st' ∧
  ∃ new,
    st' !! p = Some (Node.set_children (Node.children pn ++ new) pn) ∧
    Forall2 (λ c j, ∃ cn, st' !! c = Some cn ∧
                PoolGraph.finalProportion pool T P j
                  = Ok (Node.proportionOfParent cn))
      new (nonSelfFrom pool i toks).
Proof.
  intros Hrec. induction toks as [|t toks IH];
    intros i st nodeIndex st' nodeIndex' pn H Hwf Hp; simpl in H.
  - injection H as <- <-. split_and!; try done.
    exists []. split; [by rewrite set_children_app_nil | constructor].
  - simpl. destruct (String.eqb (Token.address t) (Pool.address pool));
      [by eapply IH|].
    apply bind_Ok in H as (q & Hq & H).
    apply bind_Ok in H as ([[st1 c] idx1] & Hc & H).
    apply bind_Ok in H as (st2 & Hup & H).
    destruct (Hrec _ _ _ _ _ _ _ _ _ Hc Hwf)
      as (-> & [Hlen1 Hext1] & Hwf1 & cn & Hcn & Hpar & Hprop).
    apply update_Ok in Hup as (pn1 & Hpn1 & ->).
    assert (pn1 = pn) as -> by (specialize (Hext1 _ _ Hp); congruence).
    assert (p < length st) as Hplt by by eapply lookup_lt_Some.
    assert (wf (<[p:=Node.push_child (length st) pn]> st1)) as Hwf2.
    { eapply wf_push_child; try done. intros Hin.
      pose proof (wf_children_lt st p _ pn Hwf Hp Hin). lia. }
    assert (<[p:=Node.push_child (length st) pn]> st1 !! p
            = Some (Node.push_child (length st) pn)) as Hp2.
    { apply list_lookup_insert_eq. lia. }
    destruct (IH _ _ _ _ _ _ H Hwf2 Hp2)
      as (Hlen & Hfr & Hwf' & new & Hp' & Hnew).
    rewrite length_insert in Hlen.
    split_and!; [lia | | done |].
    + intros k n Hk Hne. apply Hfr; [|done].
      rewrite list_lookup_insert_ne by done. by apply Hext1.
    + exists (length st :: new). split.
      * rewrite Hp'. simpl. by rewrite <- app_assoc.
      * constructor; [|done]. exists cn. split; [|congruence].
        apply Hfr; [|lia]. rewrite list_lookup_insert_ne by lia. done.
Qed.

Lemma createWrappedTokenNode_ok st pool nodeIndex parent P st' h nodeIndex' :
  PoolGraph.createWrappedTokenNode st pool nodeIndex parent P
    = Ok (st', h, nodeIndex') →
  wf st →
  h = length st ∧ extends st st' ∧ wf st' ∧
  ∃ n, st' !! h = Some n ∧ Node.parent n = parent ∧
       Node.proportionOfParent n = P.
Proof.
  unfold PoolGraph.createWrappedTokenNode. intros H Hwf.
  destruct (Pool.wrappedIndex pool) as [wi|]; [|discriminate].
  destruct (Pool.mainIndex pool) as [mi|]; [|discriminate].
  unfold alloc in H.
  apply bind_Ok in H as (t & _ & H).
  set (wn := Node.mk _ _ _ _ _ _ _ _ _ _ _ _ _) in H.
  destruct (createInputTokenNode_eq (st ++ [wn]) (S nodeIndex)
              (Pool.tokensList pool !! mi) (default 18 (Token.decimals t))
              (Some (length st)) P)
    as (leaf & Heq & Hch & Hm & Hpar & _).
  rewrite Heq in H. apply bind_Ok in H as (st3 & Hup & H).
  injection H as <- <- <-.
  apply update_Ok in Hup as (wn' & Hwn' & ->).
  assert ((st ++ [wn]) !! length st = Some wn) as Hwn
    by by apply list_lookup_middle.
  assert (wn' = wn) as ->.
  { rewrite lookup_app_l in Hwn' by (rewrite length_app; simpl; lia).
    congruence. }
  change (Node.set_children [length (st ++ [wn])] wn)
    with (Node.push_child (length (st ++ [wn])) wn).
  split_and!.
  - done.
  - split.
    + rewrite length_insert, !length_app. lia.
    + intros k n Hk. assert (k < length st) by by eapply lookup_lt_Some.
      rewrite list_lookup_insert_ne by lia.
      by apply lookup_app_l_Some, lookup_app_l_Some.
  - apply wf_alloc_push; try done. by apply wf_alloc.
  - eexists. split;
      [apply list_lookup_insert_eq; rewrite !length_app; simpl; lia | done].
Qed.

Lemma createLinearNodeChildren_ok st p nodeIndex pool w st' h nodeIndex' pn :
  PoolGraph.createLinearNodeChildren st p nodeIndex pool w
    = Ok (st', h, nodeIndex') →
  wf st → st !! p = Some pn →
  h = p ∧ length st ≤ length st' ∧
  (∀ k n, st !! k = Some n → k ≠ p → st' !! k = Some n) ∧
  wf st' ∧
  ∃ n, st' !! p = Some n ∧ Node.parent n = Node.parent pn ∧
       Node.proportionOfParent n = Node.proportionOfParent pn.
Proof.
  unfold PoolGraph.createLinearNodeChildren. intros H Hwf Hp.
  assert (p < length st) as Hplt by by eapply lookup_lt_Some.
  destruct w.
  - apply bind_Ok in H as (ln & Hln & H).
    apply bind_Ok in H as ([[st1 wn] idx1] & Hw & H).
    apply bind_Ok in H as (st2 & Hup & H). injection H as <- <- <-.
    destruct (createWrappedTokenNode_ok _ _ _ _ _ _ _ _ Hw Hwf)
      as (-> & [Hlen1 Hext1] & Hwf1 & n & Hn & Hpar & _).
    apply update_Ok in Hup as (pn1 & Hpn1 & ->).
    assert (pn1 = pn) as -> by (specialize (Hext1 _ _ Hp); congruence).
    split_and!; [done | by rewrite length_insert | | |].
    + intros k m Hk Hne. rewrite list_lookup_insert_ne by done. by apply Hext1.
    + eapply wf_push_child; try done. intros Hin.
      pose proof (wf_children_lt st p _ pn Hwf Hp Hin). lia.
    + eexists. split; [apply list_lookup_insert_eq; lia | done].
  - destruct (Pool.mainIndex pool) as [mi|]; [|discriminate].
    apply bind_Ok in H as (t & _ & H).
    apply bind_Ok in H as (ln & Hln & H).
    destruct (createInputTokenNode_eq st nodeIndex
                (Pool.tokensList pool !! mi) (default 18 (Token.decimals t))
                (Some p) (Node.proportionOfParent ln))
      as (leaf & Heq & Hch & Hm & Hpar & _).
    rewrite Heq in H. apply bind_Ok in H as (st2 & Hup & H).
    injection H as <- <- <-.
    apply update_Ok in Hup as (pn1 & Hpn1 & ->).
    assert (pn1 = pn) as ->.
    { rewrite lookup_app_l in Hpn1 by done. congruence. }
    split_and!; [done | | | |].
    + rewrite length_insert, length_app. lia.
    + intros k m Hk Hne. rewrite list_lookup_insert_ne by done.
      by apply lookup_app_l_Some.
    + by apply wf_alloc_push.
    + eexists. split;
        [apply list_lookup_insert_eq; rewrite length_app; lia | done].
Qed.

(** *** Rounding *)

Lemma sumZ_app (l k : list Z) : sumZ (l ++ k) = (sumZ l + sumZ k)%Z.
Proof. induction l as [|x l IH]; simpl; [done | rewrite IH; lia]. Qed.

(** Dividing each term [x * M] by [D] loses less than one unit per
    term. *)
Lemma sum_div_bounds (M D : Z) (l : list Z) :
  (0 < D)%Z →
  (D * sumZ (map (λ x, x * M / D) l) ≤ M * sumZ l
   ≤ D * sumZ (map (λ x, x * M / D) l) + (D - 1) * Z.of_nat (length l))%Z.
Proof.
  intros HD. induction l as [|x l IH]; simpl; [lia|].
  pose proof (Z.div_mod (x * M) D ltac:(lia)) as Hdm.
  pose proof (Z.mod_pos_bound (x * M) D HD) as Hmod.
  lia.
Qed.

Lemma Forall_div_nonneg (M D : Z) (l : list Z) :
  (0 ≤ M)%Z → (0 < D)%Z → Forall (λ x, 0 ≤ x)%Z l →
  Forall (λ x, 0 ≤ x)%Z (map (λ x, x * M / D)%Z l).
Proof.
  intros HM HD Hl. apply Forall_map. eapply Forall_impl; [exact Hl|].
  simpl. intros x Hx. apply Z.div_pos; lia.
Qed.

Lemma map_quot_div (M D : Z) (l : list Z) :
  (0 ≤ M)%Z → (0 < D)%Z → Forall (λ x, 0 ≤ x)%Z l →
  map (λ x, Z.quot (x * M) D) l = map (λ x, x * M / D)%Z l.
Proof.
  intros HM HD Hl. induction Hl as [|x l Hx Hl IH]; simpl; [done|].
  rewrite IH, Z.quot_div_nonneg by lia. done.
Qed.

(** The two divisions of the source, over the balances [l] of a pool whose
    total is [sumZ l]: the proportions add up to [P], less than two units
    per child short. *)
Lemma proportions_sum (P : Z) (l : list Z) :
  Forall (λ b, 0 ≤ b)%Z l → (0 < sumZ l)%Z → (0 ≤ P ≤ 10 ^ 18)%Z →
  (P - 2 * Z.of_nat (length l)
   < sumZ (map (λ b, Z.quot (Z.quot (b * 10 ^ 18) (sumZ l) * P) (10 ^ 18)) l)
   ≤ P)%Z.
Proof.
  intros Hl HT HP.
  set (W := (10 ^ 18)%Z) in *. set (T := sumZ l) in *.
  assert (0 < W)%Z as HW by (by vm_compute).
  set (c := map (λ b, b * W / T)%Z l).
  assert (map (λ b, Z.quot (Z.quot (b * W) T * P) W) l
          = map (λ x, x * P / W)%Z c) as ->.
  { unfold c. rewrite <- (map_quot_div W T l) by (done || lia).
    rewrite <- (map_quot_div P W) by
      (try done; try lia; rewrite (map_quot_div W T l) by (done || lia);
       apply Forall_div_nonneg; done || lia).
    by rewrite map_map. }
  pose proof (sum_div_bounds W T l HT) as H1. fold c in H1. fold T in H1.
  pose proof (sum_div_bounds P W c HW) as H2.
  assert (length c = length l) as Hlen by (unfold c; by rewrite length_map).
  rewrite Hlen in H2.
  assert (0 < length l)%nat as Hn.
  { destruct l; [simpl in HT; unfold T in HT; simpl in HT; lia | simpl; lia]. }
  set (sc := sumZ c) in *.
  set (sp := sumZ (map (λ x, x * P / W)%Z c)) in *.
  set (n := Z.of_nat (length l)) in *.
  assert (0 < n)%Z by lia.
  assert (sc ≤ W)%Z by nia.
  assert (W - n < sc)%Z by nia.
  split; nia.
Qed.

(** *** The token total of a consistent pool *)

Lemma addBalances_nonSelf (pool : Pool.t) (all : list Z) (toks : list Token.t) :
  ∀ (bs : list Z) (i : nat) (total : Z),
  length bs = length toks →
  (∀ k, all !! (i + k) = bs !! k) →
  (∀ k t, toks !! k = Some t →
     (Token.address t = Pool.address pool ↔
      indexOf (Pool.tokensList pool) (Pool.address pool) = Some (i + k))) →
  PoolGraph.addBalances (indexOf (Pool.tokensList pool) (Pool.address pool))
    i bs total
  = (total + sumZ (map (λ j, default 0%Z (all !! j))
                     (nonSelfFrom pool i toks)))%Z.
Proof.
  induction toks as [|t toks IH]; intros bs i total Hlen Hall Hself;
    destruct bs as [|b bs]; try discriminate; simpl.
  { lia. }
  assert (∀ k, all !! (S i + k) = bs !! k) as Hall'.
  { intros k. specialize (Hall (S k)). by rewrite Nat.add_succ_r in Hall. }
  assert (∀ k t', toks !! k = Some t' →
            (Token.address t' = Pool.address pool ↔
             indexOf (Pool.tokensList pool) (Pool.address pool)
               = Some (S i + k))) as Hself'.
  { intros k t' Hk. specialize (Hself (S k) t' Hk).
    by rewrite Nat.add_succ_r in Hself. }
  specialize (Hself 0 t eq_refl). rewrite Nat.add_0_r in Hself.
  specialize (Hall 0). rewrite Nat.add_0_r in Hall. simpl in Hall.
  rewrite IH by (done || by injection Hlen).
  destruct (String.eqb (Token.address t) (Pool.address pool)) eqn:E.
  - apply String.eqb_eq, Hself in E. by rewrite decide_True.
  - apply String.eqb_neq in E. rewrite decide_False by by rewrite <- Hself.
    simpl. rewrite Hall. simpl. lia.
Qed.

Lemma getTokenTotal_nonSelf (pool : Pool.t) :
  consistent pool →
  PoolGraph.getTokenTotal pool
  = sumZ (map (λ j, default 0%Z (Pool.parsedBalances pool !! j))
            (nonSelf pool)).
Proof.
  intros (Hlen & _ & Hself). unfold PoolGraph.getTokenTotal, nonSelf.
  by rewrite (addBalances_nonSelf pool (Pool.parsedBalances pool)
                (Pool.tokens pool)).
Qed.

Lemma nonSelf_balances_nonneg (pool : Pool.t) :
  consistent pool →
  Forall (λ b, 0 ≤ b)%Z
    (map (λ j, default 0%Z (Pool.parsedBalances pool !! j)) (nonSelf pool)).
Proof.
  intros (_ & Hnn & _). apply Forall_map, Forall_forall. intros j _. simpl.
  destruct (Pool.parsedBalances pool !! j) as [b|] eqn:E; simpl; [|lia].
  by eapply (Forall_lookup_1 _ _ _ _ Hnn).
Qed.

(** *** A well-formed heap holds a tree under a node without parent *)

Lemma level_at_snoc (st : heap) (k : nat) :
  ∀ L, level_at st (S k) L = flat_map (kids st) (level_at st k L).
Proof.
  induction k as [|k IH]; intros L; [done|].
  change (level_at st (S (S k)) L)
    with (level_at st (S k) (flat_map (kids st) L)).
  by rewrite IH.
Qed.

Lemma elem_of_flat_map_kids (st : heap) (L : list ref) (x : ref) :
  x ∈ flat_map (kids st) L ↔ ∃ y, y ∈ L ∧ x ∈ kids st y.
Proof.
  rewrite list_elem_of_In, in_flat_map. split.
  - intros (y & Hy & Hx). exists y. by rewrite !list_elem_of_In.
  - intros (y & Hy & Hx). exists y. by rewrite <- !list_elem_of_In.
Qed.

Lemma wf_kids (st : heap) (h c : ref) :
  wf st → c ∈ kids st h →
  h < c ∧ ∃ cn, st !! c = Some cn ∧ Node.parent cn = Some h ∧
                Node.marked cn = false.
Proof.
  intros Hwf Hc. unfold kids in Hc.
  destruct (st !! h) as [n|] eqn:Hn; [|by apply elem_of_nil in Hc].
  destruct (Hwf h n Hn) as (_ & _ & Hch).
  destruct (Hch c Hc) as (Hlt & cn & Hcn & Hpar). split; [done|].
  exists cn. split_and!; try done. by destruct (Hwf c cn Hcn) as (? & _).
Qed.

Lemma wf_kids_NoDup (st : heap) (h : ref) : wf st → NoDup (kids st h).
Proof.
  intros Hwf. unfold kids. destruct (st !! h) as [n|] eqn:Hn.
  - by destruct (Hwf h n Hn) as (_ & ? & _).
  - apply NoDup_nil_2.
Qed.

Lemma flat_map_kids_NoDup (st : heap) (L : list ref) :
  wf st → NoDup L → NoDup (flat_map (kids st) L).
Proof.
  intros Hwf. induction L as [|y L IH]; intros Hnd; simpl.
  { apply NoDup_nil_2. }
  apply NoDup_cons in Hnd as [Hy Hnd]. apply NoDup_app. split_and!.
  - by apply wf_kids_NoDup.
  - intros x Hx (y' & Hy' & Hx')%elem_of_flat_map_kids.
    destruct (wf_kids st y x Hwf Hx) as (_ & cn & Hcn & Hpar & _).
    destruct (wf_kids st y' x Hwf Hx') as (_ & cn' & Hcn' & Hpar' & _).
    assert (y = y') by congruence. by subst.
  - by apply IH.
Qed.

Section Tree.
Variable st : heap.
Variable root : ref.
Variable rn : Node.t.
Hypothesis Hwf : wf st.
Hypothesis Hroot : st !! root = Some rn.
Hypothesis Hnoparent : Node.parent rn = None.

Lemma level_NoDup (k : nat) : NoDup (level_at st k [root]).
Proof using Hwf.
  induction k as [|k IH]; [apply NoDup_singleton|].
  rewrite level_at_snoc. by apply flat_map_kids_NoDup.
Qed.

Lemma level_elem (k : nat) (x : ref) :
  x ∈ level_at st k [root] →
  root + k ≤ x ∧ ∃ n, st !! x = Some n ∧ Node.marked n = false.
Proof using Hwf Hroot.
  revert x. induction k as [|k IH]; intros x Hx.
  - apply list_elem_of_singleton in Hx as ->. split; [lia|].
    exists rn. split; [done|]. by destruct (Hwf root rn Hroot) as (? & _).
  - rewrite level_at_snoc in Hx.
    apply elem_of_flat_map_kids in Hx as (y & Hy & Hx).
    destruct (IH y Hy) as [Hge _].
    destruct (wf_kids st y x Hwf Hx) as (Hlt & cn & Hcn & _ & Hm).
    split; [lia|]. by exists cn.
Qed.

Lemma level_disjoint (j : nat) :
  ∀ k x, j < k → x ∈ level_at st j [root] → x ∈ level_at st k [root] → False.
Proof using Hwf Hroot Hnoparent.
  induction j as [|j IH]; intros k x Hjk Hj Hk;
    (destruct k as [|k]; [lia|]);
    rewrite level_at_snoc in Hk;
    apply elem_of_flat_map_kids in Hk as (y' & Hy' & Hx');
    destruct (wf_kids st y' x Hwf Hx') as (_ & cn' & Hcn' & Hpar' & _).
  - apply list_elem_of_singleton in Hj as ->. congruence.
  - rewrite level_at_snoc in Hj.
    apply elem_of_flat_map_kids in Hj as (y & Hy & Hx).
    destruct (wf_kids st y x Hwf Hx) as (_ & cn & Hcn & Hpar & _).
    assert (y = y') as -> by congruence.
    apply (IH k y'); [lia | done | done].
Qed.

Lemma levels_NoDup (d : nat) :
  ∀ k, NoDup (levels st d (level_at st k [root])).
Proof using Hwf Hroot Hnoparent.
  induction d as [|d IH]; intros k; simpl; [apply NoDup_nil_2|].
  rewrite <- level_at_snoc. apply NoDup_app. split_and!.
  - apply level_NoDup.
  - intros x Hx (k2 & _ & Hx2)%elem_of_levels.
    rewrite <- level_at_add in Hx2.
    apply (level_disjoint k (S k + k2) x); [lia | done | done].
  - apply IH.
Qed.

Lemma level_at_length_nil : level_at st (length st) [root] = [].
Proof using Hwf Hroot.
  destruct (level_at st (length st) [root]) as [|x l] eqn:E; [done|].
  destruct (level_elem (length st) x) as (Hge & n & Hn & _).
  { rewrite E. by left. }
  apply lookup_lt_Some in Hn. lia.
Qed.

Lemma wf_is_tree :
  is_tree st root (length st) ∧
  Forall (is_unmarked st) (levels st (length st) [root]).
Proof using Hwf Hroot Hnoparent.
  split; [split|].
  - apply level_at_length_nil.
  - apply (levels_NoDup (length st) 0).
  - apply Forall_forall. intros x (k & _ & Hx)%elem_of_levels.
    by destruct (level_elem k x Hx) as (_ & n & Hn & Hm); exists n.
Qed.
End Tree.

Section BuildFacts.
Variable find : string → option Pool.t.
Variable findBy : string → option Pool.t.
Variable Controller : Type.
Variable wrap : Pool.t → option Controller.
Variable calcSpotPrice : Controller → string → string → option string.

Let body := PoolGraph.buildGraphFromPool_body findBy Controller wrap
              calcSpotPrice.
Let build := PoolGraph.buildGraphFromPool findBy Controller wrap
               calcSpotPrice.
Let buildRoot := PoolGraph.buildGraphFromRootPool find findBy Controller
                   wrap calcSpotPrice.

(** *** Failures *)

Lemma collectSpotPrices_Err controller pool toks sp d e :
  PoolGraph.collectSpotPrices Controller calcSpotPrice controller pool toks
    sp d = Err e →
  e = ExternalFailure.
Proof.
  revert sp d. induction toks as [|t toks IH]; intros sp d H; simpl in H;
    [discriminate|].
  destruct (String.eqb (Token.address t) (Pool.address pool));
    [exact (IH _ _ H)|].
  apply bind_Err in H as [H|(x & _ & H)]; [|exact (IH _ _ H)].
  by apply fromOption_Err_eq in H.
Qed.

Lemma leafTokenNode_Err st address nodeIndex p P e :
  PoolGraph.leafTokenNode findBy st address nodeIndex p P = Err e →
  e = DanglingHandle ∨ e = TypeError.
Proof.
  unfold PoolGraph.leafTokenNode. intros H.
  apply bind_Err in H as [H|(pn & _ & H)]; [left; by eapply deref_Err|].
  right.
  repeat (apply bind_Err in H as [H|(? & _ & H)];
          [by apply fromOption_Err_eq in H|]).
  discriminate.
Qed.

Lemma createWrappedTokenNode_Err st pool nodeIndex parent P e :
  PoolGraph.createWrappedTokenNode st pool nodeIndex parent P = Err e →
  e = IssueWithLinearPool ∨ e = TypeError ∨ e = DanglingHandle.
Proof.
  unfold PoolGraph.createWrappedTokenNode. intros H.
  destruct (Pool.wrappedIndex pool), (Pool.mainIndex pool);
    try (left; congruence).
  right. simpl in H.
  apply bind_Err in H as [H|(t & _ & H)].
  { left. by apply fromOption_Err_eq in H. }
  apply bind_Err in H as [H|(? & _ & H)]; [|discriminate].
  right. by eapply update_Err.
Qed.

Lemma createLinearNodeChildren_Err st node nodeIndex pool w e :
  PoolGraph.createLinearNodeChildren st node nodeIndex pool w = Err e →
  e = IssueWithLinearPool ∨ e = TypeError ∨ e = DanglingHandle.
Proof.
  unfold PoolGraph.createLinearNodeChildren. intros H. destruct w.
  - apply bind_Err in H as [H|(ln & _ & H)].
    { right; right. by eapply deref_Err. }
    apply bind_Err in H as [H|([[st1 wn] idx] & _ & H)].
    { by eapply createWrappedTokenNode_Err. }
    apply bind_Err in H as [H|(? & _ & H)]; [|discriminate].
    right; right. by eapply update_Err.
  - destruct (Pool.mainIndex pool); [|left; congruence].
    apply bind_Err in H as [H|(t & _ & H)].
    { right; left. by apply fromOption_Err_eq in H. }
    apply bind_Err in H as [H|(ln & _ & H)].
    { right; right. by eapply deref_Err. }
    simpl in H.
    apply bind_Err in H as [H|(? & _ & H)]; [|discriminate].
    right; right. by eapply update_Err.
Qed.

(** A failure of the token loop is a failure of one of its divisions, of
    a write to the pool node, or of the expansion of a child. *)
Lemma expandTokens_Err (rec : PoolGraph.expand) pool T poolNode P w toks :
  ∀ i st nodeIndex e,
  PoolGraph.expandTokens rec pool T poolNode P w i toks st nodeIndex
    = Err e →
  e = InvalidBigNumber ∨ e = DivisionByZero ∨ e = DanglingHandle ∨
  ∃ st1 address nodeIndex1 q, rec st1 address nodeIndex1 (Some poolNode) q w
                              = Err e.
Proof.
  induction toks as [|t toks IH]; intros i st nodeIndex e H; simpl in H;
    [discriminate|].
  destruct (String.eqb (Token.address t) (Pool.address pool));
    [exact (IH _ _ _ _ H)|].
  apply bind_Err in H as [H|(q & _ & H)].
  { apply finalProportion_Err in H as [[-> _]|[-> _]]; auto. }
  apply bind_Err in H as [H|([[st1 c] idx1] & _ & H)].
  { do 3 right. by exists st, (Token.address t), nodeIndex, q. }
  apply bind_Err in H as [H|(st2 & _ & H)]; [|exact (IH _ _ _ _ H)].
  right; right; left. by eapply update_Err.
Qed.

(** Below a parent, the expansion never reports a missing pool. *)
Lemma build_child_not_POOL_DOESNT_EXIST (fuel : nat) :
  ∀ st address nodeIndex p P w,
  build fuel st address nodeIndex (Some p) P w ≠ Err POOL_DOESNT_EXIST.
Proof.
  induction fuel as [|fuel IH]; intros st address nodeIndex p P w H;
    [discriminate|].
  unfold build in H. simpl in H.
  unfold PoolGraph.buildGraphFromPool_body in H.
  destruct (findBy address) as [pool|].
  - destruct (PoolGraph.joinActions (Pool.poolType pool)),
      (PoolGraph.exitActions (Pool.poolType pool));
      try discriminate.
    apply bind_Err in H as [H|(c & _ & H)].
    { by apply fromOption_Err_eq in H. }
    apply bind_Err in H as [H|([sp d] & _ & H)].
    { by apply collectSpotPrices_Err in H. }
    simpl in H. destruct (includes _ _).
    + by apply createLinearNodeChildren_Err in H as [?|[?|?]].
    + apply bind_Err in H as [H|([st2 idx] & _ & H)]; [|discriminate].
      apply expandTokens_Err in H
        as [?|[?|[?|(st1 & a & idx1 & q & H)]]]; try discriminate.
      by apply IH in H.
  - by apply leafTokenNode_Err in H as [?|?].
Qed.

Lemma build_root_POOL_DOESNT_EXIST (fuel : nat) st address nodeIndex P w :
  build (S fuel) st address nodeIndex None P w = Err POOL_DOESNT_EXIST ↔
  findBy address = None.
Proof.
  unfold build. simpl. unfold PoolGraph.buildGraphFromPool_body.
  destruct (findBy address) as [pool|]; [|done]. split; [|done]. intros H.
  destruct (PoolGraph.joinActions (Pool.poolType pool)),
      (PoolGraph.exitActions (Pool.poolType pool));
    try discriminate.
  apply bind_Err in H as [H|(c & _ & H)].
  { by apply fromOption_Err_eq in H. }
  apply bind_Err in H as [H|([sp d] & _ & H)].
  { by apply collectSpotPrices_Err in H. }
  simpl in H. destruct (includes _ _).
  + by apply createLinearNodeChildren_Err in H as [?|[?|?]].
  + apply bind_Err in H as [H|([st2 idx] & _ & H)]; [|discriminate].
    apply expandTokens_Err in H
      as [?|[?|[?|(st1 & a & idx1 & q & H)]]]; try discriminate.
    by apply build_child_not_POOL_DOESNT_EXIST in H.
Qed.

(** C5, as the code has it.  [buildGraphFromRootPool] fails with
    [POOL_DOESNT_EXIST] exactly when the root pool id has no record or
    the address of the root record resolves to no pool.  An address below
    the root that resolves to no pool never gives [POOL_DOESNT_EXIST]: it
    is taken for a leaf token, and when the lookup of the parent's own
    address fails too the build aborts with a [TypeError]. *)
Theorem buildGraphFromRootPool_POOL_DOESNT_EXIST
    (fuel : nat) (poolId : string) (wrapMainTokens : bool) :
  (buildRoot (S fuel) poolId wrapMainTokens = Err POOL_DOESNT_EXIST ↔
     find poolId = None ∨
     ∃ rootPool, find poolId = Some rootPool ∧
                 findBy (Pool.address rootPool) = None) ∧
  (∀ st address nodeIndex p pn P,
     findBy address = None →
     st !! p = Some pn →
     Node.address pn ≫= findBy = None →
     build (S fuel) st address nodeIndex (Some p) P wrapMainTokens
       = Err TypeError) ∧
  (∀ st address nodeIndex p P,
     build (S fuel) st address nodeIndex (Some p) P wrapMainTokens
       ≠ Err POOL_DOESNT_EXIST).
Proof.
  split_and!.
  - unfold buildRoot, PoolGraph.buildGraphFromRootPool.
    destruct (find poolId) as [rootPool|]; [|by split; [left|]].
    change (fromOption POOL_DOESNT_EXIST (Some rootPool)) with (Ok rootPool).
    rewrite bind_Ok_l. split.
    + intros [H|([[st r] idx] & _ & H)]%bind_Err; [|discriminate].
      right. exists rootPool. split; [done|].
      by apply (build_root_POOL_DOESNT_EXIST fuel) in H.
    + intros [?|(rp & [= <-] & Hrp)]; [done|].
      apply (build_root_POOL_DOESNT_EXIST fuel [] _ 0 WeiPerEther
               wrapMainTokens) in Hrp.
      unfold build in Hrp. by rewrite Hrp.
  - intros st address nodeIndex p pn P Ha Hp Hpa.
    change (build (S fuel)) with (body (build fuel)).
    unfold body, PoolGraph.buildGraphFromPool_body, PoolGraph.leafTokenNode,
      deref.
    rewrite Ha, Hp.
    change (fromOption DanglingHandle (Some pn)) with (Ok pn).
    by rewrite bind_Ok_l, Hpa.
  - intros st address nodeIndex p P.
    apply build_child_not_POOL_DOESNT_EXIST.
Qed.

(** C8.  A pool whose type has no entry in the join table or none in the
    exit table makes [buildGraphFromPool] fail with
    [UNSUPPORTED_POOL_TYPE].  The failure does not depend on what the
    expansion of a child would do ([rec] is arbitrary), nor on the
    pricing collaborator: it comes before any child lookup. *)
Theorem buildGraphFromPool_unsupported_pool_type
    (rec : PoolGraph.expand) (st : heap) (address : string)
    (nodeIndex : nat) (parent : option ref) (P : Z) (wrapMainTokens : bool)
    (pool : Pool.t) :
  findBy address = Some pool →
  PoolGraph.joinActions (Pool.poolType pool) = None ∨
  PoolGraph.exitActions (Pool.poolType pool) = None →
  body rec st address nodeIndex parent P wrapMainTokens
    = Err UNSUPPORTED_POOL_TYPE ∧
  (∀ fuel, build (S fuel) st address nodeIndex parent P wrapMainTokens
             = Err UNSUPPORTED_POOL_TYPE) ∧
  (∀ fuel poolId rootPool,
     find poolId = Some rootPool → Pool.address rootPool = address →
     buildRoot (S fuel) poolId wrapMainTokens = Err UNSUPPORTED_POOL_TYPE).
Proof.
  intros Hpool Htab.
  assert (∀ rec' st' idx par P',
            body rec' st' address idx par P' wrapMainTokens
              = Err UNSUPPORTED_POOL_TYPE) as Hbody.
  { intros. unfold body, PoolGraph.buildGraphFromPool_body. rewrite Hpool.
    destruct Htab as [-> | ->]; [done|].
    by destruct (PoolGraph.joinActions (Pool.poolType pool)). }
  split_and!.
  - apply Hbody.
  - intros fuel. apply Hbody.
  - intros fuel poolId rootPool Hroot <-.
    unfold buildRoot, PoolGraph.buildGraphFromRootPool. rewrite Hroot.
    change (fromOption POOL_DOESNT_EXIST (Some rootPool)) with (Ok rootPool).
    rewrite bind_Ok_l.
    change (PoolGraph.buildGraphFromPool findBy Controller wrap
              calcSpotPrice (S fuel))
      with (body (build fuel)).
    by rewrite Hbody.
Qed.

(** The body, once the pool is found and supported and the pricing
    collaborator has answered. *)
Lemma body_found rec st address nodeIndex parent P w pool ja ea c sp d :
  findBy address = Some pool →
  PoolGraph.joinActions (Pool.poolType pool) = Some ja →
  PoolGraph.exitActions (Pool.poolType pool) = Some ea →
  wrap pool = Some c →
  PoolGraph.collectSpotPrices Controller calcSpotPrice c pool
    (Pool.tokens pool) ∅ 18 = Ok (sp, d) →
  body rec st address nodeIndex parent P w =
    if includes (Pool.poolType pool) "Linear" then
      PoolGraph.createLinearNodeChildren
        (st ++ [poolNodeOf pool ja ea sp d nodeIndex parent P])
        (length st) (S nodeIndex) pool w
    else
      '(st2, nodeIndex') ←
        PoolGraph.expandTokens rec pool (PoolGraph.getTokenTotal pool)
          (length st) P w 0 (Pool.tokens pool)
          (st ++ [poolNodeOf pool ja ea sp d nodeIndex parent P])
          (S nodeIndex);
      Ok (st2, length st, nodeIndex').
Proof.
  intros Hpool Hja Hea Hc Hsp.
  unfold body, PoolGraph.buildGraphFromPool_body.
  by rewrite Hpool, Hja, Hea, Hc, fromOption_Some, bind_Ok_l, Hsp.
Qed.

(** *** The token total and the divisions *)

Lemma addBalances_zero (bptIndex : option nat) (bs : list Z) :
  ∀ i total,
  (∀ k b, bs !! k = Some b → bptIndex ≠ Some (i + k) → b = 0%Z) →
  PoolGraph.addBalances bptIndex i bs total = total.
Proof.
  induction bs as [|b bs IH]; intros i total H; simpl; [done|].
  rewrite IH.
  - destruct (decide (bptIndex = Some i)) as [|Hne]; [done|].
    rewrite (H 0 b); [lia | done | by rewrite Nat.add_0_r].
  - intros k b' Hk Hne. apply (H (S k)); [done|].
    by rewrite Nat.add_succ_r.
Qed.

(** With a zero total, the loop fails at its first token that is not the
    pool's own, before it expands any child. *)
Lemma expandTokens_zero_total pool P toks :
  ∀ i,
  (∃ t, t ∈ toks ∧ Token.address t ≠ Pool.address pool) →
  ∃ e, (∀ (rec : PoolGraph.expand) poolNode w st nodeIndex,
          PoolGraph.expandTokens rec pool 0 poolNode P w i toks st nodeIndex
            = Err e) ∧
       (e = InvalidBigNumber ∨ e = DivisionByZero) ∧
       (i + length toks ≤ length (Pool.parsedBalances pool) →
        e = DivisionByZero).
Proof.
  induction toks as [|t toks IH]; intros i (t' & Hin & Hne).
  { by apply elem_of_nil in Hin. }
  simpl. destruct (String.eqb (Token.address t) (Pool.address pool)) eqn:E.
  - apply String.eqb_eq in E.
    apply elem_of_cons in Hin as [->|Hin]; [done|].
    destruct (IH (S i)) as (e & He & Hk & Hlen); [by exists t'|].
    exists e. split_and!; [done | done |]. intros Hl. apply Hlen. lia.
  - unfold PoolGraph.finalProportion, PoolGraph.childProportion.
    destruct (Pool.parsedBalances pool !! i) as [b|] eqn:Hb.
    + exists DivisionByZero. by split_and!; [|right|].
    + exists InvalidBigNumber. split_and!; [done | by left |].
      intros Hl. apply lookup_ge_None in Hb. lia.
Qed.

(** A division by zero in the token loop is the pool's own only when the
    total is zero; otherwise it comes out of the expansion of a child. *)
Lemma expandTokens_DivisionByZero (rec : PoolGraph.expand) pool T poolNode P
    w toks :
  ((∃ t, t ∈ toks ∧ Token.address t ≠ Pool.address pool) → T ≠ 0%Z) →
  ∀ i st nodeIndex,
  PoolGraph.expandTokens rec pool T poolNode P w i toks st nodeIndex
    = Err DivisionByZero →
  ∃ st1 address nodeIndex1 q,
    rec st1 address nodeIndex1 (Some poolNode) q w = Err DivisionByZero.
Proof.
  induction toks as [|t toks IH]; intros HT i st nodeIndex H; simpl in H;
    [discriminate|].
  destruct (String.eqb (Token.address t) (Pool.address pool)) eqn:E.
  - apply (IH) in H; [done|]. intros (t' & Hin & Hne). apply HT.
    exists t'. split; [by right | done].
  - apply String.eqb_neq in E.
    apply bind_Err in H as [H|(q & _ & H)].
    { apply finalProportion_Err in H as [[? _]|[_ H0]]; [discriminate|].
      destruct HT; [|done]. exists t. split; [by left | done]. }
    apply bind_Err in H as [H|([[st1 c] idx1] & _ & H)].
    { by exists st, (Token.address t), nodeIndex, q. }
    apply bind_Err in H as [H|(st2 & _ & H)].
    { apply update_Err in H. discriminate. }
    apply IH in H; [done|]. intros (t' & Hin & Hne). apply HT.
    exists t'. split; [by right | done].
Qed.

(** The same, for the whole expansion of an address. *)
Lemma body_DivisionByZero rec st address nodeIndex parent P w :
  (∀ pool, findBy address = Some pool →
     includes (Pool.poolType pool) "Linear" = false →
     (∃ t, t ∈ Pool.tokens pool ∧ Token.address t ≠ Pool.address pool) →
     PoolGraph.getTokenTotal pool ≠ 0%Z) →
  body rec st address nodeIndex parent P w = Err DivisionByZero →
  ∃ st1 address1 nodeIndex1 q,
    rec st1 address1 nodeIndex1 (Some (length st)) q w = Err DivisionByZero.
Proof.
  intros HT H. unfold body, PoolGraph.buildGraphFromPool_body in H.
  destruct (findBy address) as [pool|] eqn:Hpool.
  - destruct (PoolGraph.joinActions (Pool.poolType pool)),
      (PoolGraph.exitActions (Pool.poolType pool));
      try discriminate.
    apply bind_Err in H as [H|(c & _ & H)].
    { by apply fromOption_Err_eq in H. }
    apply bind_Err in H as [H|([sp d] & _ & H)].
    { by apply collectSpotPrices_Err in H. }
    simpl in H. destruct (includes _ _) eqn:Hlin.
    + by apply createLinearNodeChildren_Err in H as [?|[?|?]].
    + apply bind_Err in H as [H|([st2 idx] & _ & H)]; [|discriminate].
      apply expandTokens_DivisionByZero in H; [done|].
      intros Htok. by apply (HT pool).
  - destruct parent as [p|]; [|discriminate].
    by apply leafTokenNode_Err in H as [?|?].
Qed.

(** When every pool that has divisions to make has a total other than
    zero, no expansion fails with a division by zero. *)
Lemma build_not_DivisionByZero :
  (∀ a pool, findBy a = Some pool →
     includes (Pool.poolType pool) "Linear" = false →
     (∃ t, t ∈ Pool.tokens pool ∧ Token.address t ≠ Pool.address pool) →
     PoolGraph.getTokenTotal pool ≠ 0%Z) →
  ∀ fuel st address nodeIndex parent P w,
  build fuel st address nodeIndex parent P w ≠ Err DivisionByZero.
Proof.
  intros HT. induction fuel as [|fuel IH];
    intros st address nodeIndex parent P w H; [discriminate|].
  apply body_DivisionByZero in H as (st1 & a1 & idx1 & q & H).
  - by apply IH in H.
  - intros pool. apply HT.
Qed.


(** *** What a successful build yields *)

Lemma leafTokenNode_ok st address nodeIndex p P st' h nodeIndex' :
  PoolGraph.leafTokenNode findBy st address nodeIndex p P
    = Ok (st', h, nodeIndex') →
  wf st →
  h = length st ∧ extends st st' ∧ wf st' ∧
  ∃ n, st' !! h = Some n ∧ Node.parent n = Some p ∧
       Node.proportionOfParent n = P.
Proof.
  unfold PoolGraph.leafTokenNode. intros H Hwf.
  apply bind_Ok in H as (pn & _ & H).
  apply bind_Ok in H as (parentPool & _ & H).
  apply bind_Ok in H as (i & _ & H).
  apply bind_Ok in H as (t & _ & H).
  destruct (createInputTokenNode_eq st nodeIndex (Some address)
              (default 18 (Token.decimals t)) (Some p) P)
    as (leaf & Heq & Hch & Hm & Hpar & HP).
  rewrite Heq in H. injection H as <- <- <-.
  split_and!; [done | apply extends_app | by apply wf_alloc |].
  exists leaf. split; [by apply list_lookup_middle | done].
Qed.

(** A successful expansion of a pool that the repository has. *)
Lemma body_pool_inv rec st address nodeIndex parent P w pool r :
  body rec st address nodeIndex parent P w = Ok r →
  findBy address = Some pool →
  ∃ ja ea sp d,
    (if includes (Pool.poolType pool) "Linear" then
       PoolGraph.createLinearNodeChildren
         (st ++ [poolNodeOf pool ja ea sp d nodeIndex parent P])
         (length st) (S nodeIndex) pool w
     else
       '(st2, nodeIndex') ←
         PoolGraph.expandTokens rec pool (PoolGraph.getTokenTotal pool)
           (length st) P w 0 (Pool.tokens pool)
           (st ++ [poolNodeOf pool ja ea sp d nodeIndex parent P])
           (S nodeIndex);
       Ok (st2, length st, nodeIndex')) = Ok r.
Proof.
  intros H Hpool. unfold body, PoolGraph.buildGraphFromPool_body in H.
  rewrite Hpool in H.
  destruct (PoolGraph.joinActions (Pool.poolType pool)) as [ja|];
    [|discriminate].
  destruct (PoolGraph.exitActions (Pool.poolType pool)) as [ea|];
    [|discriminate].
  destruct (wrap pool) as [c|]; [|discriminate].
  rewrite fromOption_Some, bind_Ok_l in H.
  destruct (PoolGraph.collectSpotPrices Controller calcSpotPrice c pool
              (Pool.tokens pool) ∅ 18) as [[sp d]|]; [|discriminate].
  rewrite bind_Ok_l in H. by exists ja, ea, sp, d.
Qed.

Lemma body_ok (rec : PoolGraph.expand) : expand_ok rec → expand_ok (body rec).
Proof.
  intros Hrec st address nodeIndex parent P w st' h nodeIndex' H Hwf.
  destruct (findBy address) as [pool|] eqn:Hpool.
  - apply (body_pool_inv _ _ _ _ _ _ _ pool) in H as (ja & ea & sp & d & H);
      [|done].
    set (pn := poolNodeOf pool ja ea sp d nodeIndex parent P) in *.
    assert (wf (st ++ [pn])) as Hwf1 by by apply wf_alloc.
    assert ((st ++ [pn]) !! length st = Some pn) as Hp
      by by apply list_lookup_middle.
    assert (∀ st2, length (st ++ [pn]) ≤ length st2 →
              (∀ k n, (st ++ [pn]) !! k = Some n → k ≠ length st →
                      st2 !! k = Some n) →
              extends st st2) as Hext.
    { intros st2 Hlen Hfr. rewrite length_app in Hlen. simpl in Hlen.
      split; [lia|]. intros k n Hk.
      assert (k < length st) by by eapply lookup_lt_Some.
      apply Hfr; [by apply lookup_app_l_Some | lia]. }
    destruct (includes (Pool.poolType pool) "Linear").
    + destruct (createLinearNodeChildren_ok _ _ _ _ _ _ _ _ pn H Hwf1 Hp)
        as (-> & Hlen & Hfr & Hwf' & n & Hn & Hpar & HP).
      split_and!; [done | by apply Hext | done |]. by exists n.
    + apply bind_Ok in H as ([st2 idx2] & Hloop & H).
      injection H as <- <- <-.
      destruct (expandTokens_ok _ _ _ _ _ _ _ Hrec _ _ _ _ _ pn Hloop Hwf1 Hp)
        as (Hlen & Hfr & Hwf' & new & Hn & _).
      split_and!; [done | by apply Hext | done |].
      eexists. split; [exact Hn | done].
  - unfold body, PoolGraph.buildGraphFromPool_body in H. rewrite Hpool in H.
    destruct parent as [p|]; [|discriminate].
    exact (leafTokenNode_ok _ _ _ _ _ _ _ _ H Hwf).
Qed.

Lemma build_ok (fuel : nat) : expand_ok (build fuel).
Proof.
  induction fuel as [|fuel IH]; [by intros ? ? ? ? ? ? ? ? ? [=]|].
  by apply body_ok.
Qed.

(** The root of a built tree is the first node of the heap, it has no
    parent, and the heap is well formed. *)
Lemma buildRoot_wf fuel poolId w st root :
  buildRoot fuel poolId w = Ok (st, root) →
  root = 0 ∧ wf st ∧ ∃ n, st !! root = Some n ∧ Node.parent n = None.
Proof.
  unfold buildRoot, PoolGraph.buildGraphFromRootPool. intros H.
  apply bind_Ok in H as (rootPool & _ & H).
  apply bind_Ok in H as ([[st1 r] idx] & Hb & H). injection H as <- <-.
  destruct (build_ok fuel _ _ _ _ _ _ _ _ _ Hb wf_nil)
    as (-> & _ & Hwf & n & Hn & Hpar & _).
  split_and!; [done | done |]. by exists n.
Qed.

(** The children of a non-linear pool node, right after its expansion:
    one per token other than the pool's own, in the order of the tokens,
    each with the proportion computed for its token. *)
Lemma body_children rec st address nodeIndex parent P w st' h nodeIndex'
    pool :
  expand_ok rec →
  body rec st address nodeIndex parent P w = Ok (st', h, nodeIndex') →
  wf st →
  findBy address = Some pool →
  includes (Pool.poolType pool) "Linear" = false →
  ∃ n, st' !! h = Some n ∧ Node.proportionOfParent n = P ∧
    Forall2 (λ c j, ∃ cn, st' !! c = Some cn ∧
                PoolGraph.finalProportion pool (PoolGraph.getTokenTotal pool)
                  P j = Ok (Node.proportionOfParent cn))
      (Node.children n) (nonSelf pool).
Proof.
  intros Hrec H Hwf Hpool Hlin.
  apply (body_pool_inv _ _ _ _ _ _ _ pool) in H as (ja & ea & sp & d & H);
    [|done].
  rewrite Hlin in H.
  set (pn := poolNodeOf pool ja ea sp d nodeIndex parent P) in *.
  apply bind_Ok in H as ([st2 idx2] & Hloop & H). injection H as <- <- <-.
  assert (wf (st ++ [pn])) as Hwf1 by by apply wf_alloc.
  assert ((st ++ [pn]) !! length st = Some pn) as Hp
    by by apply list_lookup_middle.
  destruct (expandTokens_ok _ _ _ _ _ _ _ Hrec _ _ _ _ _ pn Hloop Hwf1 Hp)
    as (_ & _ & _ & new & Hn & Hnew).
  eexists. split; [exact Hn|]. split; [done|]. exact Hnew.
Qed.

Lemma finalProportion_inv (pool : Pool.t) (T P q : Z) (j : nat) :
  PoolGraph.finalProportion pool T P j = Ok q →
  T ≠ 0%Z ∧ ∃ b, Pool.parsedBalances pool !! j = Some b ∧
    q = Z.quot (Z.quot (b * 10 ^ 18) T * P) (10 ^ 18).
Proof.
  unfold PoolGraph.finalProportion, PoolGraph.childProportion. intros H.
  apply bind_Ok in H as (c & Hc & H).
  apply bind_Ok in Hc as (b & Hb & Hc). apply fromOption_Ok in Hb.
  unfold bn_div in Hc, H.
  destruct (Z.eqb T 0) eqn:ET; [discriminate|]. apply Z.eqb_neq in ET.
  destruct (Z.eqb WeiPerEther 0); [discriminate|].
  injection Hc as <-. injection H as <-. split; [done|]. by exists b.
Qed.

(** C2, as the code has it.  The node that a successful expansion of a
    non-linear pool
    returns carries the proportion asked for, and has one child for each
    token other than the pool's own, in the order of the tokens, whose
    proportion is [balance * 10^18 / tokenTotal], then
    [* proportionOfParent / 10^18], each division after its
    multiplication.  For a consistent pool record with such a token,
    [tokenTotal] is the sum of the balances of these tokens, and under a
    parent proportion between 0 and 10^18 the proportions of the
    children add up to it from below, less than two units per child
    short (one for each of the two divisions). *)
Theorem proportions_of_children
    (fuel : nat) (st : heap) (address : string) (nodeIndex : nat)
    (parent : option ref) (P : Z) (wrapMainTokens : bool)
    (st' : heap) (h nodeIndex' : nat) (pool : Pool.t) :
  build (S fuel) st address nodeIndex parent P wrapMainTokens
    = Ok (st', h, nodeIndex') →
  wf st →
  findBy address = Some pool →
  includes (Pool.poolType pool) "Linear" = false →
  ∃ n, st' !! h = Some n ∧
    Node.proportionOfParent n = P ∧
    map (proportionAt st') (Node.children n)
      = map (proportionFormula pool P) (nonSelf pool) ∧
    (consistent pool → (0 ≤ P ≤ 10 ^ 18)%Z → nonSelf pool ≠ [] →
     PoolGraph.getTokenTotal pool
       = sumZ (map (λ j, default 0%Z (Pool.parsedBalances pool !! j))
                 (nonSelf pool)) ∧
     (P - 2 * Z.of_nat (length (Node.children n))
      < sumZ (map (proportionAt st') (Node.children n)) ≤ P)%Z).
Proof.
  intros H Hwf Hpool Hlin.
  destruct (body_children (build fuel) _ _ _ _ _ _ _ _ _ pool
              (build_ok fuel) H Hwf Hpool Hlin)
    as (n & Hn & HP & Hch).
  exists n. split; [done|]. split; [done|].
  assert (map (proportionAt st') (Node.children n)
          = map (proportionFormula pool P) (nonSelf pool)) as Hmap.
  { clear -Hch. induction Hch as [|c j cs js (cn & Hcn & Hq) _ IH]; [done|].
    simpl. rewrite IH. f_equal.
    apply finalProportion_inv in Hq as (_ & b & Hb & Hq).
    unfold proportionAt, proportionFormula. by rewrite Hcn, Hb, Hq. }
  split; [done|]. intros Hcons HPr Hne.
  pose proof (getTokenTotal_nonSelf pool Hcons) as HT.
  split; [done|].
  set (bl := map (λ j, default 0%Z (Pool.parsedBalances pool !! j))
               (nonSelf pool)) in *.
  assert (PoolGraph.getTokenTotal pool ≠ 0%Z) as HT0.
  { destruct Hch as [|c j cs js (cn & _ & Hq) _]; [done|].
    by apply finalProportion_inv in Hq as [? _]. }
  pose proof (nonSelf_balances_nonneg pool Hcons) as Hnn. fold bl in Hnn.
  assert (0 ≤ sumZ bl)%Z as Hsum.
  { clear -Hnn. induction Hnn as [|b l Hb _ IH]; simpl; lia. }
  assert (length (Node.children n) = length bl) as ->.
  { unfold bl. rewrite length_map. by eapply Forall2_length. }
  rewrite Hmap.
  assert (map (proportionFormula pool P) (nonSelf pool)
          = map (λ b, Z.quot (Z.quot (b * 10 ^ 18) (sumZ bl) * P) (10 ^ 18))
              bl) as ->.
  { unfold bl. rewrite map_map. apply map_ext. intros j.
    unfold proportionFormula. by rewrite HT. }
  apply proportions_sum; [done | lia | done].
Qed.

(** C6.  On the tree that [buildGraphFromRootPool] returns,
    [orderByBfs] gives the level order: the root, then its children in
    declared order, then their children, level by level; this holds
    every node reachable from the root, each exactly once.  And on any
    structure whose child handles are all in the heap, shared children
    and cycles included, the traversal returns, no node is returned twice
    and the root comes first. *)
Theorem orderByBfs_level_order
    (fuel : nat) (poolId : string) (wrapMainTokens : bool)
    (st : heap) (root : ref) :
  buildRoot fuel poolId wrapMainTokens = Ok (st, root) →
  (∃ st' out,
     PoolGraph.orderByBfs st root = Ok (st', out) ∧
     out = levels st (length st) [root] ∧
     head out = Some root ∧
     NoDup out ∧
     ∀ h, h ∈ out ↔ reachable st root h) ∧
  (∀ (st2 : heap) (root2 : ref),
     closed st2 → root2 < length st2 →
     ∃ st2' out2,
       PoolGraph.orderByBfs st2 root2 = Ok (st2', out2) ∧
       NoDup out2 ∧ head out2 = Some root2).
Proof.
  intros Hbuild. split.
  - destruct (buildRoot_wf _ _ _ _ _ Hbuild) as (-> & Hwf & rn & Hrn & Hpar).
    destruct (wf_is_tree st 0 rn Hwf Hrn Hpar) as [Htree Hun].
    destruct (orderByBfs_tree st 0 (length st) Htree) as [st' Hst'].
    { by apply Forall_forall. }
    exists st', (levels st (length st) [0]). destruct Htree as [Hlast Hnd].
    split_and!; try done.
    + destruct (length st); [discriminate | done].
    + intros h. by apply levels_reachable.
  - intros st2 root2 Hcl Hroot.
    destruct (orderByBfs_total st2 root2 Hcl Hroot) as [[st2' out2] H].
    exists st2', out2. split; [done|].
    apply orderByBfs_spec in H as (more & _ & -> & Hnd & _). by split.
Qed.
End BuildFacts.

(** C5, as the specification states it, fails on the sample repository.
    The root ["id-odd"] resolves; its token ["0xaaa"] resolves to no pool;
    the address of the parent node resolves to no pool either.  The build
    aborts, but with a [TypeError], not with [POOL_DOESNT_EXIST]. *)
Lemma missing_parent_pool_is_a_TypeError :
  Example.find "id-odd" = Some Example.oddKey ∧
  Example.findBy (Pool.address Example.oddKey) = Some Example.oddPool ∧
  Example.findBy "0xaaa" = None ∧
  Example.findBy (Pool.address Example.oddPool) = None ∧
  Example.buildRoot "id-odd" false = Err TypeError ∧
  Example.buildRoot "id-odd" false ≠ Err POOL_DOESNT_EXIST.
Proof. by split_and!. Qed.

Lemma buildGraphFromRootPool_POOL_DOESNT_EXIST_witness :
  (Example.buildRoot "id-none" false = Err POOL_DOESNT_EXIST ↔
     Example.find "id-none" = None ∨
     ∃ rootPool, Example.find "id-none" = Some rootPool ∧
                 Example.findBy (Pool.address rootPool) = None) ∧
  (∀ st address nodeIndex p pn P,
     Example.findBy address = None →
     st !! p = Some pn →
     Node.address pn ≫= Example.findBy = None →
     PoolGraph.buildGraphFromPool Example.findBy unit Example.wrap
       Example.calcSpotPrice 8 st address nodeIndex (Some p) P false
       = Err TypeError) ∧
  (∀ st address nodeIndex p P,
     PoolGraph.buildGraphFromPool Example.findBy unit Example.wrap
       Example.calcSpotPrice 8 st address nodeIndex (Some p) P false
       ≠ Err POOL_DOESNT_EXIST).
Proof.
  apply (buildGraphFromRootPool_POOL_DOESNT_EXIST Example.find Example.findBy
           unit Example.wrap Example.calcSpotPrice 7 "id-none" false).
Defined.

Lemma buildGraphFromPool_unsupported_pool_type_witness :
  PoolGraph.buildGraphFromPool Example.findBy unit Example.wrap
    Example.calcSpotPrice 1 [] "0xgyro" 0 None WeiPerEther false
    = Err UNSUPPORTED_POOL_TYPE ∧
  Example.buildRoot "id-gyro" false = Err UNSUPPORTED_POOL_TYPE.
Proof.
  destruct (buildGraphFromPool_unsupported_pool_type Example.find
              Example.findBy unit Example.wrap Example.calcSpotPrice
              (fun _ _ _ _ _ _ => Err OutOfFuel) [] "0xgyro" 0 None
              WeiPerEther false Example.gyroPool)
    as (_ & Hbuild & Hroot).
  - reflexivity.
  - left. reflexivity.
  - split.
    + apply (Hbuild 0).
    + apply (Hroot 7 "id-gyro" Example.gyroPool); reflexivity.
Defined.


(** C2, as the specification states it, fails on a record that lists its
    own token in [tokens] and not in [tokensList]: [getTokenTotal] then
    counts the balance of the pool's own token, 1000003 for non-self
    balances of 1 and 2, and the proportions of the two children add up
    to 2999991000025 under a parent proportion of 10^18, not within a
    thousand units per child of it. *)
Lemma proportions_need_a_consistent_pool :
  PoolGraph.getTokenTotal Phantom.pool = 1000003%Z ∧
  sumZ (map (λ j, default 0%Z (Pool.parsedBalances Phantom.pool !! j))
          (nonSelf Phantom.pool)) = 3%Z ∧
  ¬ (∀ (findBy : string → option Pool.t) fuel st address nodeIndex parent P
       wrapMainTokens st' h nodeIndex' pool n,
       PoolGraph.buildGraphFromPool findBy unit Example.wrap
         Example.calcSpotPrice (S fuel) st address nodeIndex parent P
         wrapMainTokens = Ok (st', h, nodeIndex') →
       wf st →
       findBy address = Some pool →
       includes (Pool.poolType pool) "Linear" = false →
       st' !! h = Some n →
       (P - 1000 * Z.of_nat (length (Node.children n))
        ≤ sumZ (map (proportionAt st') (Node.children n)) ≤ P)%Z).
Proof.
  split_and!; [by vm_compute | by vm_compute |]. intros H.
  assert (PoolGraph.buildGraphFromPool Phantom.findBy unit Example.wrap
            Example.calcSpotPrice 2 [] "0xphantom" 0 None WeiPerEther false
          = Ok (Phantom.tree, 0, 3)) as Hb by (vm_compute; reflexivity).
  destruct (Phantom.tree !! 0) as [n|] eqn:Hn; [|by vm_compute in Hn].
  pose proof (H Phantom.findBy 1 [] "0xphantom" 0 None WeiPerEther false
                Phantom.tree 0 3 Phantom.pool n Hb wf_nil eq_refl eq_refl Hn)
    as [Hlow _].
  vm_compute in Hn. injection Hn as <-. vm_compute in Hlow. by apply Hlow.
Qed.

Lemma rootPool_consistent : consistent Example.rootPool.
Proof.
  split_and!.
  - reflexivity.
  - repeat constructor; by vm_compute.
  - intros i t Ht. destruct i as [|[|[|i]]]; simpl in Ht; try discriminate;
      injection Ht as <-; vm_compute; split; intros [=]; done.
Qed.

Lemma proportions_of_children_witness :
  ∃ n, Example.tree !! 0 = Some n ∧
    Node.proportionOfParent n = WeiPerEther ∧
    map (proportionAt Example.tree) (Node.children n)
      = map (proportionFormula Example.rootPool WeiPerEther)
          (nonSelf Example.rootPool) ∧
    PoolGraph.getTokenTotal Example.rootPool
      = sumZ (map (λ j, default 0%Z
                          (Pool.parsedBalances Example.rootPool !! j))
                (nonSelf Example.rootPool)) ∧
    (WeiPerEther - 2 * Z.of_nat (length (Node.children n))
     < sumZ (map (proportionAt Example.tree) (Node.children n))
     ≤ WeiPerEther)%Z.
Proof.
  destruct (proportions_of_children Example.findBy unit Example.wrap
              Example.calcSpotPrice 7 [] "0xroot" 0 None WeiPerEther false
              Example.tree 0 4 Example.rootPool)
    as (n & Hn & HP & Hmap & Hsum).
  - vm_compute. reflexivity.
  - apply wf_nil.
  - reflexivity.
  - reflexivity.
  - destruct (Hsum rootPool_consistent) as [HT Hbound].
    + vm_compute. split; discriminate.
    + vm_compute. discriminate.
    + exists n. split; [exact Hn|]. split; [exact HP|].
      split; [exact Hmap|]. split; [exact HT | exact Hbound].
Defined.

Lemma orderByBfs_level_order_witness :
  (∃ st' out,
     PoolGraph.orderByBfs Example.tree 0 = Ok (st', out) ∧
     out = levels Example.tree (length Example.tree) [0] ∧
     head out = Some 0 ∧
     NoDup out ∧
     ∀ h, h ∈ out ↔ reachable Example.tree 0 h) ∧
  (∀ (st2 : heap) (root2 : ref),
     closed st2 → root2 < length st2 →
     ∃ st2' out2,
       PoolGraph.orderByBfs st2 root2 = Ok (st2', out2) ∧
       NoDup out2 ∧ head out2 = Some root2).
Proof.
  apply (orderByBfs_level_order Example.find Example.findBy unit Example.wrap
           Example.calcSpotPrice 8 "id-root" false).
  vm_compute. reflexivity.
Defined.


(** * Further properties *)

(** ** The fallback repository *)

Section FallbackFacts.
Import PoolsFallbackRepository.
Context {Options Answer : Type}.
Implicit Types (r : t Options Answer) (c : call Options).

Lemma queryFrom_spec (rest : list (PoolRepository Options Answer)) :
  ∀ idx c rep idx',
  queryFrom rest idx c = (rep, idx') →
  match rep with
  | Answered a =>
      ∃ k p, rest !! k = Some p ∧ p c = Resolved a ∧ idx' = idx + k ∧
             ∀ j q, j < k → rest !! j = Some q → fails q c
  | NoWorkingProviders =>
      idx' = idx + length rest ∧ ∀ j q, rest !! j = Some q → fails q c
  end.
Proof.
  induction rest as [|p rest IH]; intros idx c rep idx' H; simpl in H.
  - injection H as <- <-. split; [simpl; lia|]. intros j q Hq.
    by rewrite lookup_nil in Hq.
  - assert (∀ rep idx', queryFrom rest (S idx) c = (rep, idx') →
              fails p c →
              match rep with
              | Answered a =>
                  ∃ k p0, (p :: rest) !! k = Some p0 ∧ p0 c = Resolved a ∧
                    idx' = idx + k ∧
                    ∀ j q, j < k → (p :: rest) !! j = Some q → fails q c
              | NoWorkingProviders =>
                  idx' = idx + length (p :: rest) ∧
                  ∀ j q, (p :: rest) !! j = Some q → fails q c
              end) as Hnext.
    { intros rep0 idx0 H0 Hp. specialize (IH _ _ _ _ H0).
      destruct rep0 as [a|].
      - destruct IH as (k & p0 & Hk & Hres & -> & Hbefore).
        exists (S k), p0. split_and!; [done | done | lia |].
        intros [|j] q Hj Hq; simpl in Hq; [by injection Hq as <-|].
        apply (Hbefore j); [lia | done].
      - destruct IH as [-> Hall]. split; [simpl; lia|].
        intros [|j] q Hq; simpl in Hq; [by injection Hq as <-|].
        by apply (Hall j). }
    destruct (p c) as [a|m|] eqn:Hp.
    + injection H as <- <-. exists 0, p. split_and!; [done | done | lia |].
      intros j q Hj. lia.
    + apply Hnext; [done|]. intros a. congruence.
    + apply Hnext; [done|]. intros a. congruence.
Qed.

Lemma queryFrom_answer (rest : list (PoolRepository Options Answer)) :
  ∀ idx c k p a,
  rest !! k = Some p → p c = Resolved a →
  (∀ j q, j < k → rest !! j = Some q → fails q c) →
  queryFrom rest idx c = (Answered a, idx + k).
Proof.
  induction rest as [|p0 rest IH]; intros idx c k p a Hk Hp Hbefore.
  { by rewrite lookup_nil in Hk. }
  destruct k as [|k]; simpl in *.
  - injection Hk as ->. rewrite Hp. f_equal. lia.
  - pose proof (Hbefore 0 p0 ltac:(lia) eq_refl) as Hf.
    rewrite (IH (S idx) c k p a Hk Hp).
    + destruct (p0 c) as [b|m|] eqn:E; [by destruct (Hf b) | |];
        f_equal; lia.
    + intros j q Hj Hq. apply (Hbefore (S j)); [lia | done].
Qed.

Lemma queryFrom_exhausted (rest : list (PoolRepository Options Answer)) :
  ∀ idx c,
  (∀ j q, rest !! j = Some q → fails q c) →
  queryFrom rest idx c = (NoWorkingProviders, idx + length rest).
Proof.
  induction rest as [|p rest IH]; intros idx c Hall; simpl.
  - f_equal. lia.
  - pose proof (Hall 0 p eq_refl) as Hf.
    rewrite IH by (intros j q Hq; by apply (Hall (S j))).
    destruct (p c) as [b|m|] eqn:E; [by destruct (Hf b) | |]; f_equal; lia.
Qed.

Lemma fallbackQuery_Answered r c a r' :
  fallbackQuery r c = (Answered a, r') ↔
  ∃ k p,
    currentProviderIdx r ≤ k ∧
    providers r !! k = Some p ∧
    p c = Resolved a ∧
    (∀ j q, currentProviderIdx r ≤ j < k → providers r !! j = Some q →
            fails q c) ∧
    r' = {| providers := providers r; currentProviderIdx := k |}.
Proof.
  unfold fallbackQuery. split.
  - destruct (queryFrom _ _ c) as [rep idx'] eqn:E. intros [= -> <-].
    apply queryFrom_spec in E as (k & p & Hk & Hp & -> & Hbefore).
    rewrite lookup_drop in Hk.
    exists (currentProviderIdx r + k), p. split_and!; [lia | done | done | | done].
    intros j q [Hj1 Hj2] Hq. apply (Hbefore (j - currentProviderIdx r)); [lia|].
    rewrite lookup_drop. by replace (currentProviderIdx r + (j - _)) with j by lia.
  - intros (k & p & Hle & Hk & Hp & Hbefore & ->).
    rewrite (queryFrom_answer _ _ c (k - currentProviderIdx r) p a).
    + by replace (currentProviderIdx r + (k - currentProviderIdx r)) with k by lia.
    + rewrite lookup_drop.
      by replace (currentProviderIdx r + (k - currentProviderIdx r)) with k by lia.
    + done.
    + intros j q Hj Hq. rewrite lookup_drop in Hq.
      apply (Hbefore (currentProviderIdx r + j)); [lia | done].
Qed.

Lemma fallbackQuery_NoWorkingProviders r c r' :
  fallbackQuery r c = (NoWorkingProviders, r') ↔
  (∀ j q, currentProviderIdx r ≤ j → providers r !! j = Some q → fails q c) ∧
  r' = {| providers := providers r;
          currentProviderIdx :=
            Nat.max (currentProviderIdx r) (length (providers r)) |}.
Proof.
  unfold fallbackQuery. split.
  - destruct (queryFrom _ _ c) as [rep idx'] eqn:E. intros [= -> <-].
    apply queryFrom_spec in E as [-> Hall]. rewrite length_drop. split.
    + intros j q Hj Hq. apply (Hall (j - currentProviderIdx r)).
      rewrite lookup_drop.
      by replace (currentProviderIdx r + (j - _)) with j by lia.
    + f_equal. lia.
  - intros [Hall ->]. rewrite queryFrom_exhausted.
    + rewrite length_drop. do 2 f_equal. lia.
    + intros j q Hq. rewrite lookup_drop in Hq.
      apply (Hall (currentProviderIdx r + j)); [lia | done].
Qed.



(** X3.  The index only moves forward, by at most the number of providers
    left, and the list of providers is never changed. *)
Theorem fallbackQuery_index_moves_forward r c rep r' :
  fallbackQuery r c = (rep, r') →
  providers r' = providers r ∧
  currentProviderIdx r ≤ currentProviderIdx r' ∧
  currentProviderIdx r'
    ≤ Nat.max (currentProviderIdx r) (length (providers r)).
Proof.
  intros H. destruct rep as [a|].
  - apply fallbackQuery_Answered in H
      as (k & p & Hle & Hk & _ & _ & ->).
    apply lookup_lt_Some in Hk. cbn [providers currentProviderIdx].
    unfold PoolRepository in *. split_and!; [done | lia | lia].
  - apply fallbackQuery_NoWorkingProviders in H as [_ ->].
    cbn [providers currentProviderIdx].
    unfold PoolRepository in *. split_and!; [done | lia | lia].
Qed.

(** X4.  Once the providers are used up, the repository is dead: every
    later query, whatever it asks, throws at once and leaves the state as
    it is, and [currentProvider] is undefined. *)
Theorem fallbackQuery_exhaustion_is_permanent r c r' :
  fallbackQuery r c = (NoWorkingProviders, r') →
  currentProvider r' = None ∧
  ∀ c', fallbackQuery r' c' = (NoWorkingProviders, r').
Proof.
  intros H. apply fallbackQuery_NoWorkingProviders in H as [_ ->].
  split.
  - unfold currentProvider. simpl.
    destruct (Nat.eqb (length (providers r)) 0); [done|]. simpl.
    by rewrite (proj2 (Nat.leb_le _ _)) by lia.
  - intros c'. apply fallbackQuery_NoWorkingProviders. simpl. split.
    + intros j q Hj Hq. apply lookup_lt_Some in Hq. lia.
    + f_equal. lia.
Qed.

(** X5.  A provider that failed is not asked again: after an answer,
    [currentProvider] is the provider that answered, and the providers
    before it have no part in any later query: they may be replaced by
    any others. *)
Theorem fallbackQuery_sticks_to_the_provider_that_answered r c a r' :
  fallbackQuery r c = (Answered a, r') →
  (∃ p, currentProvider r' = Some p ∧ p c = Resolved a) ∧
  ∀ c' (others : list (PoolRepository Options Answer)),
    length others = currentProviderIdx r' →
    fst (fallbackQuery r' c')
    = fst (fallbackQuery
             {| providers :=
                  others ++ drop (currentProviderIdx r') (providers r');
                currentProviderIdx := currentProviderIdx r' |} c').
Proof.
  intros H.
  apply fallbackQuery_Answered in H
    as (k & p & Hle & Hk & Hp & _ & ->).
  pose proof (lookup_lt_Some _ _ _ Hk) as Hlt.
  unfold PoolRepository in *. split_and!.
  - exists p. split; [|done]. unfold currentProvider. simpl.
    destruct (Nat.eqb (length (providers r)) 0) eqn:E0.
    { apply Nat.eqb_eq in E0. unfold PoolRepository in *. lia. }
    simpl. destruct (Nat.leb (length (providers r)) k) eqn:E1; [|done].
    apply Nat.leb_le in E1. unfold PoolRepository in *. lia.
  - intros c' others Hlen. unfold fallbackQuery. simpl in *.
    rewrite <- Hlen at 3. rewrite drop_app_length.
    by destruct (queryFrom _ k c').
Qed.
End FallbackFacts.



Lemma fallbackQuery_index_moves_forward_witness :
  PoolsFallbackRepository.providers FallbackExample.atById
    = PoolsFallbackRepository.providers FallbackExample.repository ∧
  0 ≤ 2 ∧ 2 ≤ 3.
Proof.
  apply (fallbackQuery_index_moves_forward FallbackExample.repository
           (PoolsFallbackRepository.Find "0xpool")
           (PoolsFallbackRepository.Answered "0xpool")
           FallbackExample.atById).
  reflexivity.
Defined.

Lemma fallbackQuery_exhaustion_is_permanent_witness :
  PoolsFallbackRepository.currentProvider FallbackExample.exhausted = None ∧
  ∀ c', PoolsFallbackRepository.fallbackQuery FallbackExample.exhausted c'
        = (PoolsFallbackRepository.NoWorkingProviders,
           FallbackExample.exhausted).
Proof.
  apply (fallbackQuery_exhaustion_is_permanent FallbackExample.repository
           (PoolsFallbackRepository.Fetch None) FallbackExample.exhausted).
  reflexivity.
Defined.

Lemma fallbackQuery_sticks_to_the_provider_that_answered_witness :
  (∃ p, PoolsFallbackRepository.currentProvider FallbackExample.atById
          = Some p ∧
        p (PoolsFallbackRepository.Find "0xpool")
          = PoolsFallbackRepository.Resolved "0xpool") ∧
  ∀ c' (others : list (PoolsFallbackRepository.PoolRepository unit string)),
    length others
      = PoolsFallbackRepository.currentProviderIdx FallbackExample.atById →
    fst (PoolsFallbackRepository.fallbackQuery FallbackExample.atById c')
    = fst (PoolsFallbackRepository.fallbackQuery
             {| PoolsFallbackRepository.providers :=
                  others ++
                  drop (PoolsFallbackRepository.currentProviderIdx
                          FallbackExample.atById)
                       (PoolsFallbackRepository.providers
                          FallbackExample.atById);
                PoolsFallbackRepository.currentProviderIdx :=
                  PoolsFallbackRepository.currentProviderIdx
                    FallbackExample.atById |} c').
Proof.
  apply (fallbackQuery_sticks_to_the_provider_that_answered
           FallbackExample.repository
           (PoolsFallbackRepository.Find "0xpool") "0xpool"
           FallbackExample.atById).
  reflexivity.
Defined.

(** ** Token totals, action tables and spot prices *)

Lemma addBalances_sum (bptIndex : option nat) (bs : list Z) :
  ∀ (i : nat) (total : Z),
  PoolGraph.addBalances bptIndex i bs total
  = (total + sumZ bs
     - match bptIndex with
       | Some j =>
           if decide (i ≤ j)%nat then default 0 (bs !! (j - i)%nat) else 0
       | None => 0
       end)%Z.
Proof.
  induction bs as [|b bs IH]; intros i total; simpl.
  { change (sumZ []) with 0%Z. destruct bptIndex as [j|]; [|lia].
    destruct (decide (i ≤ j)); rewrite ?lookup_nil; simpl; lia. }
  rewrite IH. change (sumZ (b :: bs)) with (b + sumZ bs)%Z.
  destruct bptIndex as [j|]; repeat case_decide; simplify_eq; try lia.
  - rewrite Nat.sub_diag. simpl. lia.
  - assert (j ≠ i) by congruence.
    replace (j - i) with (S (j - S i)) by lia. simpl. lia.
  - assert (j = i) by lia. congruence.
Qed.

(** X6.  [getTokenTotal] is the sum of all the balances, less the balance
    at the position where [tokensList] first has the pool's own address;
    when [tokensList] does not have that address, nothing is left out. *)
Theorem getTokenTotal_leaves_out_one_balance (pool : Pool.t) :
  PoolGraph.getTokenTotal pool
  = (sumZ (Pool.parsedBalances pool)
     - match indexOf (Pool.tokensList pool) (Pool.address pool) with
       | Some i => default 0 (Pool.parsedBalances pool !! i)
       | None => 0
       end)%Z.
Proof.
  unfold PoolGraph.getTokenTotal. rewrite addBalances_sum.
  destruct (indexOf _ _) as [j|]; [|lia].
  rewrite decide_True by lia. rewrite Nat.sub_0_r. lia.
Qed.

(** One row of an action table. *)
Ltac table_case t name :=
  destruct (String.eqb_spec t name) as [->|?]; [vm_compute; done|].

(** X7.  The two tables have the same pool types, and pair the actions:
    a join by [batchSwap] goes with an exit by [batchSwap], a [joinPool]
    with an [exitPool].  No pool type has an action of a token node, and
    a type with Linear in its name is joined by [batchSwap]. *)
Theorem joinActions_exitActions_paired (poolType : string) :
  match PoolGraph.joinActions poolType, PoolGraph.exitActions poolType with
  | Some join_batchSwap, Some exit_batchSwap => True
  | Some join_joinPool, Some exit_exitPool =>
      includes poolType "Linear" = false
  | None, None => True
  | _, _ => False
  end.
Proof.
  unfold PoolGraph.joinActions, PoolGraph.exitActions.
  table_case poolType "AaveLinear".
  table_case poolType "ERC4626Linear".
  table_case poolType "Element".
  table_case poolType "Investment".
  table_case poolType "LiquidityBootstrapping".
  table_case poolType "MetaStable".
  table_case poolType "Stable".
  table_case poolType "StablePhantom".
  table_case poolType "Weighted".
  table_case poolType "ComposableStable".
  done.
Qed.

Section SpotPrices.
Variable Controller : Type.
Variable calcSpotPrice : Controller → string → string → option string.

Lemma collectSpotPrices_inv controller pool toks :
  ∀ sp0 d0 sp d,
  PoolGraph.collectSpotPrices Controller calcSpotPrice controller pool toks
    sp0 d0 = Ok (sp, d) →
  (∀ a, sp !! a =
     if decide (a ≠ Pool.address pool ∧ a ∈ map Token.address toks)
     then calcSpotPrice controller a (Pool.address pool)
     else sp0 !! a) ∧
  (∀ a, a ≠ Pool.address pool → a ∈ map Token.address toks →
     is_Some (calcSpotPrice controller a (Pool.address pool))) ∧
  d = match last (filter (λ t, Token.address t = Pool.address pool) toks) with
      | Some t => match Token.decimals t with Some (S k) => S k | _ => 18 end
      | None => d0
      end.
Proof.
  induction toks as [|t toks IH]; intros sp0 d0 sp d H; simpl in H.
  { injection H as <- <-. split_and!; [|intros a _ Ha; by apply elem_of_nil in Ha|done].
    intros a. rewrite decide_False; [done|]. intros [_ Ha].
    by apply elem_of_nil in Ha. }
  destruct (String.eqb (Token.address t) (Pool.address pool)) eqn:E.
  - apply String.eqb_eq in E. apply IH in H as (Hsp & Hcalc & ->).
    split_and!.
    + intros a. rewrite Hsp. simpl.
      destruct (decide (a ≠ Pool.address pool ∧ a ∈ map Token.address toks))
        as [[Hne Hin]|Hn].
      * rewrite decide_True; [done|]. split; [done|]. by right.
      * rewrite decide_False; [done|]. intros [Hne Hin]. apply Hn.
        split; [done|]. apply elem_of_cons in Hin as [->|Hin]; [congruence|done].
    + intros a Hne Hin. simpl in Hin.
      apply elem_of_cons in Hin as [->|Hin]; [congruence|]. by apply Hcalc.
    + rewrite filter_cons_True by done.
      destruct (filter _ toks) as [|t1 l] eqn:Ef; [done|].
      rewrite last_cons_cons.
      destruct (last (t1 :: l)) eqn:El; [done|]. by apply last_None in El.
  - apply String.eqb_neq in E.
    apply bind_Ok in H as (v0 & Hv0 & H). apply fromOption_Ok in Hv0.
    apply IH in H as (Hsp & Hcalc & ->). split_and!.
    + intros a. rewrite Hsp. simpl.
      destruct (decide (a ≠ Pool.address pool ∧ a ∈ map Token.address toks))
        as [[Hne Hin]|Hn].
      * rewrite decide_True; [done|]. split; [done|]. by right.
      * destruct (decide (a = Token.address t)) as [->|Hne].
        -- rewrite lookup_insert_eq. rewrite decide_True; [done|].
           split; [done|]. by left.
        -- rewrite lookup_insert_ne by done. rewrite decide_False; [done|].
           intros [Hne' Hin]. apply Hn. split; [done|].
           apply elem_of_cons in Hin as [->|Hin]; [congruence|done].
    + intros a Hne Hin. simpl in Hin.
      apply elem_of_cons in Hin as [->|Hin]; [by rewrite Hv0|]. by apply Hcalc.
    + by rewrite filter_cons_False.
Qed.
End SpotPrices.

Section SpotPriceFacts.
Variable Controller : Type.
Variable calcSpotPrice : Controller → string → string → option string.

Lemma collectSpotPrices_fails controller pool toks :
  ∀ sp0 d0 e,
  PoolGraph.collectSpotPrices Controller calcSpotPrice controller pool toks
    sp0 d0 = Err e →
  e = ExternalFailure ∧
  ∃ t, t ∈ toks ∧ Token.address t ≠ Pool.address pool ∧
       calcSpotPrice controller (Token.address t) (Pool.address pool) = None.
Proof.
  induction toks as [|t toks IH]; intros sp0 d0 e H; simpl in H;
    [discriminate|].
  destruct (String.eqb (Token.address t) (Pool.address pool)) eqn:E.
  - destruct (IH _ _ _ H) as (-> & t' & Ht' & Hrest). split; [done|].
    exists t'. split; [by right | done].
  - apply String.eqb_neq in E. apply bind_Err in H as [H|(v & _ & H)].
    + apply fromOption_Err in H as [-> Hnone]. split; [done|].
      exists t. split; [by left | done].
    + destruct (IH _ _ _ H) as (-> & t' & Ht' & Hrest). split; [done|].
      exists t'. split; [by right | done].
Qed.

(** X8.  The spot prices of a pool node have one entry for each token of
    the pool other than its own, the price that [calcSpotPrice] gives for
    it against the pool; the decimals are those of the pool's own token,
    and 18 when it is missing or they are missing or zero.  The loop fails
    only when [calcSpotPrice] throws for a token that is not the pool's
    own. *)
Theorem collectSpotPrices_one_price_per_token controller pool toks :
  match PoolGraph.collectSpotPrices Controller calcSpotPrice controller pool
          toks ∅ 18 with
  | Ok (sp, d) =>
      (∀ a, sp !! a =
         if decide (a ≠ Pool.address pool ∧ a ∈ map Token.address toks)
         then calcSpotPrice controller a (Pool.address pool)
         else None) ∧
      (∀ a, a ≠ Pool.address pool → a ∈ map Token.address toks →
            is_Some (sp !! a)) ∧
      d = match last (filter (λ t, Token.address t = Pool.address pool) toks)
          with
          | Some t =>
              match Token.decimals t with Some (S k) => S k | _ => 18 end
          | None => 18
          end
  | Err e =>
      e = ExternalFailure ∧
      ∃ t, t ∈ toks ∧ Token.address t ≠ Pool.address pool ∧
           calcSpotPrice controller (Token.address t) (Pool.address pool)
             = None
  end.
Proof.
  destruct (PoolGraph.collectSpotPrices _ _ _ _ _ _ _) as [[sp d]|e] eqn:H.
  - apply collectSpotPrices_inv in H as (Hsp & Hcalc & ->).
    split_and!; [| |done].
    + intros a. rewrite Hsp. by destruct (decide _).
    + intros a Hne Hin. rewrite Hsp. rewrite decide_True by done.
      by apply Hcalc.
  - by eapply collectSpotPrices_fails.
Qed.
End SpotPriceFacts.

(** ** The children of a linear pool *)

(** X9.  [createLinearNodeChildren] throws 'Issue With Linear Pool' when
    the pool has no [mainIndex], or is to be wrapped and has no
    [wrappedIndex]; with the indices it needs, it fails only when [tokens]
    has no token at [mainIndex]. *)
Theorem createLinearNodeChildren_failures
    (st : heap) (p : ref) (nodeIndex : nat) (pool : Pool.t) (w : bool)
    (pn : Node.t) :
  st !! p = Some pn →
  match PoolGraph.createLinearNodeChildren st p nodeIndex pool w with
  | Err e =>
      (e = IssueWithLinearPool ∧
       (Pool.mainIndex pool = None ∨
        (w = true ∧ Pool.wrappedIndex pool = None))) ∨
      (e = TypeError ∧
       ∃ mi, Pool.mainIndex pool = Some mi ∧ Pool.tokens pool !! mi = None ∧
             (w = true → is_Some (Pool.wrappedIndex pool)))
  | Ok _ =>
      ∃ mi, Pool.mainIndex pool = Some mi ∧
            is_Some (Pool.tokens pool !! mi) ∧
            (w = true → is_Some (Pool.wrappedIndex pool))
  end.
Proof.
  intros Hp. assert (p < length st) as Hlt by by eapply lookup_lt_Some.
  unfold PoolGraph.createLinearNodeChildren, PoolGraph.createWrappedTokenNode,
    PoolGraph.createInputTokenNode, alloc, update, deref.
  destruct w.
  - rewrite Hp. simpl.
    destruct (Pool.wrappedIndex pool) as [wi|]; simpl;
      [|left; split; [done|]; by right].
    destruct (Pool.mainIndex pool) as [mi|]; simpl;
      [|left; split; [done|]; by left].
    destruct (Pool.tokens pool !! mi) as [t|] eqn:Et; simpl.
    + rewrite lookup_app_l by (rewrite length_app; simpl; lia).
      rewrite list_lookup_middle by done. simpl.
      rewrite list_lookup_insert_ne by lia.
      rewrite lookup_app_l by (rewrite length_app; simpl; lia).
      rewrite lookup_app_l by done. rewrite Hp. simpl.
      exists mi. by rewrite Et.
    + right. split; [done|]. by exists mi.
  - destruct (Pool.mainIndex pool) as [mi|]; simpl;
      [|left; split; [done|]; by left].
    destruct (Pool.tokens pool !! mi) as [t|] eqn:Et; simpl.
    + rewrite Hp. simpl. rewrite lookup_app_l by done. rewrite Hp. simpl.
      exists mi. by rewrite Et.
    + right. split; [done|]. exists mi. split_and!; [done..|]. discriminate.
Qed.

(** The heap after [createLinearNodeChildren]: one or two nodes more, and
    a child more on the pool node. *)
Lemma createLinearNodeChildren_heap
    (st : heap) (p : ref) (nodeIndex : nat) (pool : Pool.t) (w : bool)
    (pn : Node.t) (st' : heap) (h : ref) (nodeIndex' : nat) :
  PoolGraph.createLinearNodeChildren st p nodeIndex pool w
    = Ok (st', h, nodeIndex') →
  st !! p = Some pn →
  ∃ mi t,
    h = p ∧ Pool.mainIndex pool = Some mi ∧ Pool.tokens pool !! mi = Some t ∧
    if w then
      ∃ wi, Pool.wrappedIndex pool = Some wi ∧
        nodeIndex' = S (S nodeIndex) ∧
        st' = <[p := Node.push_child (length st) pn]> st ++
              [wrappedNodeOf pool wi nodeIndex (Some p)
                 (Node.proportionOfParent pn) (S (length st));
               inputNodeOf (S nodeIndex) (Pool.tokensList pool !! mi)
                 (default 18 (Token.decimals t)) (Some (length st))
                 (Node.proportionOfParent pn)]
    else
      nodeIndex' = S nodeIndex ∧
      st' = <[p := Node.push_child (length st) pn]> st ++
            [inputNodeOf nodeIndex (Pool.tokensList pool !! mi)
               (default 18 (Token.decimals t)) (Some p)
               (Node.proportionOfParent pn)].
Proof.
  intros H Hp. assert (p < length st) as Hlt by by eapply lookup_lt_Some.
  unfold PoolGraph.createLinearNodeChildren, PoolGraph.createWrappedTokenNode,
    PoolGraph.createInputTokenNode, alloc, update, deref in H.
  destruct w.
  - rewrite Hp in H. simpl in H.
    destruct (Pool.wrappedIndex pool) as [wi|]; [|discriminate].
    destruct (Pool.mainIndex pool) as [mi|]; [|discriminate].
    destruct (Pool.tokens pool !! mi) as [t|] eqn:Et; [|discriminate].
    simpl in H.
    rewrite lookup_app_l in H by (rewrite length_app; simpl; lia).
    rewrite list_lookup_middle in H by done. simpl in H.
    rewrite list_lookup_insert_ne in H by lia.
    rewrite lookup_app_l in H by (rewrite length_app; simpl; lia).
    rewrite lookup_app_l in H by done. rewrite Hp in H. simpl in H.
    injection H as <- <- <-.
    exists mi, t. split_and!; [done..|]. exists wi. split_and!; [done..|].
    rewrite <- !app_assoc. simpl.
    rewrite (insert_app_r_alt st _ (length st)) by lia.
    rewrite Nat.sub_diag. simpl.
    rewrite insert_app_l by done.
    by rewrite length_app, Nat.add_1_r.
  - destruct (Pool.mainIndex pool) as [mi|]; [|discriminate].
    destruct (Pool.tokens pool !! mi) as [t|] eqn:Et; [|discriminate].
    simpl in H. rewrite Hp in H. simpl in H.
    rewrite lookup_app_l in H by done. rewrite Hp in H. simpl in H.
    injection H as <- <- <-.
    exists mi, t. split_and!; [done..|].
    by rewrite insert_app_l.
Qed.

(** X10.  Below a linear pool node comes the pool's main token, as an
    Input leaf that carries the proportion of the pool node itself: right
    below it when main tokens are not wrapped, and below a WrappedToken
    node, with the same proportion again, when they are.  The nodes that
    were there, the pool node's new child apart, are as they were. *)
Theorem createLinearNodeChildren_main_token
    (st : heap) (p : ref) (nodeIndex : nat) (pool : Pool.t) (w : bool)
    (pn : Node.t) (st' : heap) (h : ref) (nodeIndex' : nat) :
  PoolGraph.createLinearNodeChildren st p nodeIndex pool w
    = Ok (st', h, nodeIndex') →
  st !! p = Some pn →
  ∃ mi t leafRef leaf,
    h = p ∧
    Pool.mainIndex pool = Some mi ∧ Pool.tokens pool !! mi = Some t ∧
    st' !! p = Some (Node.push_child (length st) pn) ∧
    (∀ k n, st !! k = Some n → k ≠ p → st' !! k = Some n) ∧
    st' !! leafRef = Some leaf ∧
    Node.type leaf = "Input" ∧
    Node.isLeaf leaf = true ∧
    Node.children leaf = [] ∧
    Node.address leaf = Pool.tokensList pool !! mi ∧
    Node.decimals leaf = default 18 (Token.decimals t) ∧
    Node.proportionOfParent leaf = Node.proportionOfParent pn ∧
    if w then
      ∃ wi wn,
        Pool.wrappedIndex pool = Some wi ∧
        st' !! length st = Some wn ∧
        leafRef = S (length st) ∧
        length st' = S (S (length st)) ∧ nodeIndex' = S (S nodeIndex) ∧
        Node.type wn = "WrappedToken" ∧
        Node.isLeaf wn = false ∧
        Node.address wn = Pool.tokensList pool !! wi ∧
        Node.children wn = [leafRef] ∧
        Node.parent wn = Some p ∧
        Node.parent leaf = Some (length st) ∧
        Node.proportionOfParent wn = Node.proportionOfParent pn ∧
        Node.index wn = toString nodeIndex ∧
        Node.index leaf = toString (S nodeIndex)
    else
      leafRef = length st ∧
      length st' = S (length st) ∧ nodeIndex' = S nodeIndex ∧
      Node.parent leaf = Some p ∧
      Node.index leaf = toString nodeIndex.
Proof.
  intros H Hp. assert (p < length st) as Hlt by by eapply lookup_lt_Some.
  destruct (createLinearNodeChildren_heap _ _ _ _ _ _ _ _ _ H Hp)
    as (mi & t & -> & Hmi & Ht & Hst).
  assert (∀ new, (<[p:=Node.push_child (length st) pn]> st ++ new) !! p
                 = Some (Node.push_child (length st) pn)) as Hp'.
  { intros new. apply lookup_app_l_Some. by apply list_lookup_insert_eq. }
  assert (∀ new k n, st !! k = Some n → k ≠ p →
            (<[p:=Node.push_child (length st) pn]> st ++ new) !! k = Some n)
    as Hfr.
  { intros new k n Hk Hne. apply lookup_app_l_Some.
    by rewrite list_lookup_insert_ne. }
  assert (∀ x a rest,
            (<[p:=x]> st ++ a :: rest) !! length st = Some a) as Hnew1.
  { intros x a rest. rewrite lookup_app_r by (rewrite length_insert; lia).
    by rewrite length_insert, Nat.sub_diag. }
  assert (∀ x a b rest,
            (<[p:=x]> st ++ a :: b :: rest) !! S (length st) = Some b)
    as Hnew2.
  { intros x a b rest. rewrite lookup_app_r by (rewrite length_insert; lia).
    rewrite length_insert. by replace (S (length st) - length st) with 1 by lia. }
  destruct w.
  - destruct Hst as (wi & Hwi & -> & ->).
    exists mi, t, (S (length st)),
      (inputNodeOf (S nodeIndex) (Pool.tokensList pool !! mi)
         (default 18 (Token.decimals t)) (Some (length st))
         (Node.proportionOfParent pn)).
    split_and!;
      [ done | done | done | apply Hp' | apply Hfr | apply Hnew2
      | done | done | done | done | done | done | ].
    eexists wi, _. split_and!; [done | apply Hnew1 | done | | done..].
    rewrite length_app, length_insert. simpl. lia.
  - destruct Hst as (-> & ->).
    exists mi, t, (length st),
      (inputNodeOf nodeIndex (Pool.tokensList pool !! mi)
         (default 18 (Token.decimals t)) (Some p)
         (Node.proportionOfParent pn)).
    split_and!;
      [ done | done | done | apply Hp' | apply Hfr | apply Hnew1
      | done | done | done | done | done | done | done | | done | done
      | done ].
    rewrite length_app, length_insert. simpl. lia.
Qed.

Lemma createLinearNodeChildren_failures_witness :
  match
    PoolGraph.createLinearNodeChildren [LinearExample.poolNode] 0 1
      Example.emptyPool false
  with
  | Err e =>
      (e = IssueWithLinearPool ∧
       (Pool.mainIndex Example.emptyPool = None ∨
        (false = true ∧ Pool.wrappedIndex Example.emptyPool = None))) ∨
      (e = TypeError ∧
       ∃ mi, Pool.mainIndex Example.emptyPool = Some mi ∧
             Pool.tokens Example.emptyPool !! mi = None ∧
             (false = true → is_Some (Pool.wrappedIndex Example.emptyPool)))
  | Ok _ =>
      ∃ mi, Pool.mainIndex Example.emptyPool = Some mi ∧
            is_Some (Pool.tokens Example.emptyPool !! mi) ∧
            (false = true → is_Some (Pool.wrappedIndex Example.emptyPool))
  end.
Proof.
  apply (createLinearNodeChildren_failures [LinearExample.poolNode] 0 1
           Example.emptyPool false LinearExample.poolNode).
  reflexivity.
Defined.

Lemma createLinearNodeChildren_main_token_witness :
  ∃ leafRef leaf,
    LinearExample.wrapped !! leafRef = Some leaf ∧
    Node.address leaf = Some "0xmain" ∧
    Node.decimals leaf = 6 ∧
    Node.proportionOfParent leaf
      = Node.proportionOfParent LinearExample.poolNode.
Proof.
  destruct (createLinearNodeChildren_main_token [LinearExample.poolNode] 0 1
              Example.linearPool true LinearExample.poolNode
              LinearExample.wrapped 0 3 eq_refl eq_refl)
    as (mi & t & leafRef & leaf & _ & Hmi & Ht & _ & _ & Hleaf & _ & _ & _ &
        Ha & Hd & Hp & _).
  injection Hmi as <-. injection Ht as <-.
  exists leafRef, leaf. split_and!; [exact Hleaf | exact Ha | exact Hd | exact Hp].
Defined.

(** ** Paths to the root *)

Lemma matches_lowerAddress (st : heap) (inputToken : string) (r : ref)
    (n : Node.t) :
  st !! r = Some n →
  matches st inputToken r ↔ lowerAddress n = Ok (toLowerCase inputToken).
Proof.
  intros Hn. unfold matches, lowerAddress. split.
  - intros (n' & a & Hn' & Ha & Heq). assert (n' = n) as -> by congruence.
    rewrite Ha. simpl. by rewrite Heq.
  - destruct (Node.address n) as [a|] eqn:Ha; simpl; [|discriminate].
    intros [= Heq]. by exists n, a.
Qed.

Lemma findNode_total (st : heap) (inputToken : string) (nodes : list ref) :
  Forall (λ r, ∃ n, st !! r = Some n ∧ is_Some (Node.address n)) nodes →
  (PoolGraph.findNode st nodes inputToken = Ok None ∧
   Forall (λ r, ¬ matches st inputToken r) nodes) ∨
  (∃ r, PoolGraph.findNode st nodes inputToken = Ok (Some r) ∧
        r ∈ nodes ∧ matches st inputToken r).
Proof.
  induction nodes as [|r nodes IH]; intros Hall; simpl; [by left|].
  apply Forall_cons in Hall as [(n & Hn & [a Ha]) Hall].
  unfold deref. rewrite Hn. simpl. rewrite (lowerAddress_Some _ _ Ha). simpl.
  destruct (String.eqb (toLowerCase a) (toLowerCase inputToken)) eqn:E.
  - apply String.eqb_eq in E. right. exists r.
    split_and!; [done | by left |]. by exists n, a.
  - apply String.eqb_neq in E.
    destruct (IH Hall) as [[-> Hno]|(r' & -> & Hin & Hm)].
    + left. split; [done|]. constructor; [|done].
      intros (n' & a' & Hn' & Ha' & Heq). congruence.
    + right. exists r'. split_and!; [done | by right | done].
Qed.

Lemma filterChildren_Err (st : heap) (first : ref) (cs : list ref) (e : error) :
  PoolGraph.filterChildren st first cs = Err e →
  e = DanglingHandle ∨ e = TypeError.
Proof.
  induction cs as [|c cs IH]; intros H; simpl in H; [discriminate|].
  apply bind_Err in H as [H|(n & _ & H)]; [left; by eapply deref_Err|].
  apply bind_Err in H as [H|(a & _ & H)].
  { right. unfold lowerAddress in H.
    apply bind_Err in H as [H|(? & _ & H)]; [|discriminate].
    by apply fromOption_Err_eq in H. }
  apply bind_Err in H as [H|(f & _ & H)]; [left; by eapply deref_Err|].
  apply bind_Err in H as [H|(fa & _ & H)].
  { right. unfold lowerAddress in H.
    apply bind_Err in H as [H|(? & _ & H)]; [|discriminate].
    by apply fromOption_Err_eq in H. }
  apply bind_Err in H as [H|(kept & _ & H)]; [by apply IH|discriminate].
Qed.

Lemma zeroIndices_Err (cs : list ref) :
  ∀ (st : heap) (e : error),
  PoolGraph.zeroIndices st cs = Err e → e = DanglingHandle.
Proof.
  induction cs as [|c cs IH]; intros st e H; simpl in H; [discriminate|].
  apply bind_Err in H as [H|(st1 & _ & H)]; [by eapply update_Err|].
  by eapply IH.
Qed.

Lemma walkToRoot_Err (fuel : nat) :
  ∀ st parentNode index startingIndex nodesToRoot e,
  PoolGraph.walkToRoot fuel st parentNode index startingIndex nodesToRoot
    = Err e →
  e = OutOfFuel ∨ e = DanglingHandle ∨ e = TypeError.
Proof.
  induction fuel as [|fuel IH];
    intros st parentNode index si nodesToRoot e H;
    destruct parentNode as [p|]; simpl in H; try discriminate.
  { left. congruence. }
  apply bind_Err in H as [H|(pn & _ & H)].
  { right; left. by eapply deref_Err. }
  apply bind_Err in H as [H|([st1 node1] & _ & H)].
  - right. destruct (Nat.eqb (index - 1) si); [|discriminate].
    apply bind_Err in H as [H|(first & _ & H)].
    { right. by apply fromOption_Err_eq in H. }
    apply bind_Err in H as [H|(kept & _ & H)].
    { by eapply filterChildren_Err. }
    apply bind_Err in H as [H|(? & _ & H)]; [|discriminate].
    left. by eapply zeroIndices_Err.
  - unfold alloc in H. by eapply IH.
Qed.

(** X11.  On a list of nodes that all have an address, [getNodesToRoot]
    throws [INPUT_TOKEN_INVALID] in two cases and no other: the input
    token is the address of the last node of the list, or of no node of
    the list. *)
Theorem getNodesToRoot_INPUT_TOKEN_INVALID
    (st : heap) (orderedNodes : list ref) (inputToken : string)
    (startingIndex : nat) :
  Forall (λ r, ∃ n, st !! r = Some n ∧ is_Some (Node.address n))
    orderedNodes →
  PoolGraph.getNodesToRoot st orderedNodes inputToken startingIndex
    = Err INPUT_TOKEN_INVALID ↔
  ∃ lastRef, last orderedNodes = Some lastRef ∧
    (matches st inputToken lastRef ∨
     Forall (λ r, ¬ matches st inputToken r) orderedNodes).
Proof.
  intros Hall. unfold PoolGraph.getNodesToRoot.
  destruct (last orderedNodes) as [lastRef|] eqn:Hlast; simpl.
  2:{ split; [discriminate|]. by intros (? & ? & _). }
  assert (lastRef ∈ orderedNodes) as Hin.
  { apply last_Some in Hlast as [l' ->]. apply elem_of_app. right. by left. }
  destruct (proj1 (Forall_forall _ _) Hall _ Hin) as (ln & Hln & [la Hla]).
  unfold deref. rewrite Hln. simpl. rewrite (lowerAddress_Some _ _ Hla). simpl.
  destruct (String.eqb (toLowerCase inputToken) (toLowerCase la)) eqn:E.
  { apply String.eqb_eq in E. split; [|done]. intros _. exists lastRef.
    split; [done|]. left. by exists ln, la. }
  apply String.eqb_neq in E.
  assert (¬ matches st inputToken lastRef) as Hnl.
  { intros (n' & a' & Hn' & Ha' & Heq). congruence. }
  destruct (findNode_total st inputToken orderedNodes Hall)
    as [[-> Hno]|(r & -> & Hr & n & a & Hn & Ha & Heq)]; simpl.
  - split; [|done]. intros _. exists lastRef. split; [done|]. by right.
  - rewrite Hn. simpl. split.
    + intros H. exfalso.
      destruct (negb (JoinAction_eqb (Node.joinAction n) join_input));
        simpl in H; apply walkToRoot_Err in H as [H|[H|H]]; discriminate.
    + intros (l' & [= <-] & [Hm|Hno]); [done|].
      destruct (proj1 (Forall_forall _ _) Hno r Hr). by exists n, a.
Qed.

(** *** The shape of a path *)

Lemma pathCopy_set_index (i : nat) (j : string) (cs : list ref) (n : Node.t) :
  pathCopy i cs (Node.set_index j n) = pathCopy i cs n.
Proof. done. Qed.

Lemma pathCopy_children (i : nat) (n : Node.t) :
  Node.set_index (toString i) (Node.set_proportionOfParent 0 n)
  = pathCopy i (Node.children n) n.
Proof. by destruct n. Qed.

Lemma pathCopy_set_children (i : nat) (cs : list ref) (n : Node.t) :
  Node.set_children cs
    (Node.set_index (toString i) (Node.set_proportionOfParent 0 n))
  = pathCopy i cs n.
Proof. done. Qed.

(** The chain of parents reads the [parent] fields below its start, and
    nothing else. *)
Lemma ancestors_agree (fuel : nat) (st st2 : heap) :
  parents_first st →
  (∀ h n, st !! h = Some n →
     ∃ m, st2 !! h = Some m ∧ Node.parent m = Node.parent n) →
  ∀ o, (∀ p, o = Some p → p < length st) →
  ancestors fuel st2 o = ancestors fuel st o.
Proof.
  intros Hpf Hag. induction fuel as [|fuel IH]; intros o Ho; [done|].
  destruct o as [p|]; [|done]. simpl.
  destruct (lookup_lt_is_Some_2 st p (Ho p eq_refl)) as [pn Hpn].
  destruct (Hag p pn Hpn) as (m & Hm & Hpar). rewrite Hm, Hpn, Hpar.
  f_equal. apply IH. intros q Hq.
  pose proof (Hpf p pn q Hpn Hq). pose proof (Ho p eq_refl). lia.
Qed.

Lemma ancestors_lt (fuel : nat) (st : heap) :
  parents_first st →
  ∀ o bound, (∀ p, o = Some p → p < bound) →
  Forall (λ a, a < bound) (ancestors fuel st o).
Proof.
  intros Hpf. induction fuel as [|fuel IH]; intros o bound Ho; [constructor|].
  destruct o as [p|]; [|constructor]. simpl.
  destruct (st !! p) as [pn|] eqn:Hpn; [|constructor].
  constructor; [by apply Ho|]. apply IH. intros q Hq.
  pose proof (Hpf p pn q Hpn Hq). pose proof (Ho p eq_refl). lia.
Qed.

Lemma parents_first_alloc (st : heap) (n : Node.t) :
  parents_first st →
  (∀ p, Node.parent n = Some p → p < length st) →
  parents_first (st ++ [n]).
Proof.
  intros Hpf Hn h m p Hm Hp. apply lookup_app_Some in Hm as [Hm|[Hge Hm]].
  - by eapply Hpf.
  - apply list_lookup_singleton_Some in Hm as [Hh <-].
    pose proof (Hn p Hp). lia.
Qed.

(** The rounds after the first copy the ancestors, one new node each,
    and write to no node that was there. *)
Lemma walkToRoot_later (fuel : nat) :
  ∀ (st : heap) (o : option ref) (index startingIndex : nat)
    (nodesToRoot : list ref) (st' : heap) (path : list ref),
  PoolGraph.walkToRoot fuel st o index startingIndex nodesToRoot
    = Ok (st', path) →
  S startingIndex < index →
  parents_first st →
  (∀ p, o = Some p → p < length st) →
  path = nodesToRoot ++ seq (length st) (length (ancestors fuel st o)) ∧
  length st' = length st + length (ancestors fuel st o) ∧
  (∀ h n, st !! h = Some n → st' !! h = Some n) ∧
  (∀ i a an, ancestors fuel st o !! i = Some a → st !! a = Some an →
     st' !! (length st + i)
     = Some (pathCopy (index + i) (Node.children an) an)) ∧
  (∀ a an, last (ancestors fuel st o) = Some a → st !! a = Some an →
     Node.parent an = None).
Proof.
  induction fuel as [|fuel IH];
    intros st o index si nodesToRoot st' path H Hidx Hpf Ho;
    destruct o as [p|]; simpl in H; try discriminate.
  - injection H as <- <-. simpl. rewrite app_nil_r, Nat.add_0_r.
    split_and!; try done.
  - apply bind_Ok in H as (pn & Hpn & H). apply deref_Ok in Hpn.
    rewrite (proj2 (Nat.eqb_neq (index - 1) si)) in H by lia.
    simpl in H. unfold alloc in H.
    rewrite pathCopy_children in H.
    set (copy := pathCopy index (Node.children pn) pn) in H.
    assert (parents_first (st ++ [copy])) as Hpf2.
    { apply parents_first_alloc; [done|]. intros q Hq. simpl in Hq.
      pose proof (Hpf p pn q Hpn Hq). pose proof (Ho p eq_refl). lia. }
    assert (∀ q, Node.parent pn = Some q → q < length st) as Ho'.
    { intros q Hq. pose proof (Hpf p pn q Hpn Hq).
      pose proof (Ho p eq_refl). lia. }
    pose proof H as H0.
    apply IH in H as (-> & Hlen & Hkeep & Hcopies & Hlast);
      [|lia|done|].
    2:{ intros q Hq. rewrite length_app. simpl. pose proof (Ho' q Hq). lia. }
    assert (ancestors fuel (st ++ [copy]) (Node.parent pn)
            = ancestors fuel st (Node.parent pn)) as Hanc.
    { apply ancestors_agree; [done| |done]. intros h n Hn. exists n.
      split; [by apply lookup_app_l_Some | done]. }
    rewrite Hanc in *. simpl. rewrite Hpn. simpl.
    rewrite length_app in *. simpl in *.
    split_and!.
    + rewrite <- app_assoc. simpl. by rewrite Nat.add_1_r.
    + lia.
    + intros h n Hn. by apply Hkeep, lookup_app_l_Some.
    + intros [|i] a an Hi Ha; simpl in Hi.
      * injection Hi as <-. assert (an = pn) as -> by congruence.
        rewrite Nat.add_0_r. rewrite Nat.add_0_r.
        apply Hkeep. by apply list_lookup_middle.
      * replace (length st + S i) with (length st + 1 + i) by lia.
        replace (index + S i) with (S index + i) by lia.
        apply (Hcopies i a an Hi). by apply lookup_app_l_Some.
    + intros a an Hl Ha.
      destruct (ancestors fuel st (Node.parent pn)) as [|a1 l] eqn:El.
      * simpl in Hl. injection Hl as <-. assert (an = pn) as -> by congruence.
        destruct (Node.parent pn) as [q|] eqn:Eq; [|done].
        destruct fuel as [|fuel]; [|].
        -- simpl in H0. discriminate.
        -- simpl in El. destruct (lookup_lt_is_Some_2 st q (Ho' q eq_refl))
             as [qn Hqn]. by rewrite Hqn in El.
      * rewrite last_cons_cons in Hl. apply (Hlast a an Hl).
        by apply lookup_app_l_Some.
  - injection H as <- <-. simpl. rewrite app_nil_r, Nat.add_0_r.
    split_and!; try done.
Qed.

Lemma filterChildren_in_heap (st : heap) (first : ref) (cs kept : list ref) :
  PoolGraph.filterChildren st first cs = Ok kept →
  Forall (λ c, c < length st) cs.
Proof.
  revert kept. induction cs as [|c cs IH]; intros kept H; simpl in H;
    [constructor|].
  apply bind_Ok in H as (n & Hn & H). apply bind_Ok in H as (a & Ha & H).
  apply bind_Ok in H as (f & Hf & H). apply bind_Ok in H as (fa & Hfa & H).
  apply bind_Ok in H as (kept' & Hk & H). apply deref_Ok in Hn.
  constructor; [by eapply lookup_lt_Some | by eapply IH].
Qed.

Lemma filterChildren_filter (st : heap) (first : ref) (f : Node.t)
    (inputToken : string) (cs kept : list ref) :
  st !! first = Some f →
  lowerAddress f = Ok (toLowerCase inputToken) →
  PoolGraph.filterChildren st first cs = Ok kept →
  kept = filter (λ c, ¬ matches st inputToken c) cs.
Proof.
  intros Hfirst Hfa. revert kept.
  induction cs as [|c cs IH]; intros kept H; simpl in H.
  { by injection H as <-. }
  apply bind_Ok in H as (n & Hn & H). apply bind_Ok in H as (a & Ha & H).
  apply bind_Ok in H as (f' & Hf' & H). apply bind_Ok in H as (fa & Hfa' & H).
  apply bind_Ok in H as (kept' & Hk & H). injection H as <-.
  apply deref_Ok in Hn, Hf'. assert (f' = f) as -> by congruence.
  assert (fa = toLowerCase inputToken) as -> by congruence.
  rewrite (IH _ Hk).
  destruct (String.eqb a (toLowerCase inputToken)) eqn:E.
  - apply String.eqb_eq in E. subst a. rewrite filter_cons_False; [done|].
    intros Hnot. apply Hnot. by apply (matches_lowerAddress st _ c n).
  - apply String.eqb_neq in E. rewrite filter_cons_True; [done|].
    intros Hm. apply (matches_lowerAddress st _ c n) in Hm; [|done].
    congruence.
Qed.

Lemma filter_matches_ext (st st' : heap) (inputToken : string)
    (cs : list ref) :
  Forall (λ c, matches st inputToken c ↔ matches st' inputToken c) cs →
  filter (λ c, ¬ matches st inputToken c) cs
  = filter (λ c, ¬ matches st' inputToken c) cs.
Proof.
  intros Hcs. induction Hcs as [|c cs Hc _ IH]; [done|].
  destruct (decide (matches st inputToken c)) as [Hm|Hm].
  - rewrite !filter_cons_False; [done | |]; intros Hn; apply Hn; tauto.
  - rewrite !filter_cons_True; [by rewrite IH | |]; tauto.
Qed.


Lemma index_written_matches (st st' : heap) (inputToken : string) (c : ref) :
  index_written st st' → c < length st →
  matches st inputToken c ↔ matches st' inputToken c.
Proof.
  intros Hw Hc. destruct (lookup_lt_is_Some_2 st c Hc) as [n Hn].
  unfold matches. destruct (Hw c n Hn) as [Hn'|Hn']; rewrite Hn, Hn';
    split; intros (m & a & [= <-] & Ha & He); eauto.
Qed.

Lemma index_written_parents_first (st st' : heap) :
  index_written st st' → length st' = length st →
  parents_first st → parents_first st'.
Proof.
  intros Hw Hlen Hpf h m p Hm Hp.
  assert (h < length st) as Hh by (rewrite <- Hlen; by eapply lookup_lt_Some).
  destruct (lookup_lt_is_Some_2 st h Hh) as [n Hn].
  destruct (Hw h n Hn) as [Hn'|Hn']; rewrite Hn' in Hm; injection Hm as <-;
    by eapply Hpf.
Qed.

Lemma zeroIndices_index_written (st st' : heap) (cs : list ref) :
  PoolGraph.zeroIndices st cs = Ok st' →
  length st' = length st ∧ index_written st st' ∧
  ∀ h n, st !! h = Some n → h ∉ cs → st' !! h = Some n.
Proof.
  intros H. apply zeroIndices_spec in H as [Hlen Hfr]. split_and!; [done| |].
  - intros h n Hn. rewrite (Hfr h n Hn). destruct (decide (h ∈ cs)); auto.
  - intros h n Hn Hnin. rewrite (Hfr h n Hn). by rewrite decide_False.
Qed.

(** X12.  The path that [getNodesToRoot] returns, on a heap where
    parents come before their children.  It starts with the matched node
    itself when that is an Input node, and with a new Input node for the
    token, with the whole proportion, when it is not.  Then comes one new
    node for each ancestor of the matched node, up to a node without
    parent: a copy of the ancestor with proportion zero and the index of
    its round.  The copy of the first ancestor has for children the
    children of the ancestor whose address is not the input token, and
    the start of the path after them; the other copies keep the children
    of the tree. *)
Theorem getNodesToRoot_path
    (st : heap) (orderedNodes : list ref) (inputToken : string)
    (startingIndex : nat) (st' : heap) (path : list ref) :
  parents_first st →
  PoolGraph.getNodesToRoot st orderedNodes inputToken startingIndex
    = Ok (st', path) →
  ∃ inputRef inputNode first,
    PoolGraph.findNode st orderedNodes inputToken = Ok (Some inputRef) ∧
    st !! inputRef = Some inputNode ∧
    (if JoinAction_eqb (Node.joinAction inputNode) join_input
     then first = inputRef
     else first = length st ∧
          st' !! first = Some (pathEntry startingIndex inputToken inputNode)) ∧
    let anc := ancestors (length st) st (Node.parent inputNode) in
    path = first :: seq (S (length st)) (length anc) ∧
    length st' = S (length st + length anc) ∧
    (∀ i a an, anc !! i = Some a → st !! a = Some an →
       st' !! (S (length st + i))
       = Some (pathCopy (S startingIndex + i)
                 (if i is 0
                  then filter (λ c, ¬ matches st' inputToken c)
                         (Node.children an) ++ [first]
                  else Node.children an)
                 an)) ∧
    (∀ a an, last anc = Some a → st !! a = Some an →
       Node.parent an = None).
Proof.
  intros Hpf H. unfold PoolGraph.getNodesToRoot in H.
  apply bind_Ok in H as (lastRef & _ & H).
  apply bind_Ok in H as (lastNode & _ & H).
  apply bind_Ok in H as (la & _ & H).
  destruct (String.eqb (toLowerCase inputToken) la); [discriminate|].
  apply bind_Ok in H as (found & Hfound & H).
  destruct found as [inputRef|]; [|discriminate].
  apply bind_Ok in H as (inputNode & HinputNode & H).
  apply deref_Ok in HinputNode.
  destruct (findNode_spec _ _ _ _ Hfound) as (_ & n0 & Hn0 & Hlow).
  assert (n0 = inputNode) as -> by congruence.
  assert (inputRef < length st) as Hin by by eapply lookup_lt_Some.
  exists inputRef, inputNode.
  (* the node allocated before the walk, and the start of the path *)
  assert (∃ x first f,
            PoolGraph.walkToRoot (length st) (st ++ [x])
              (Node.parent inputNode) (S startingIndex) startingIndex [first]
              = Ok (st', path) ∧
            Node.parent x = Node.parent inputNode ∧
            (st ++ [x]) !! first = Some f ∧
            lowerAddress f = Ok (toLowerCase inputToken) ∧
            lowerAddress x = Ok (toLowerCase inputToken) ∧
            if JoinAction_eqb (Node.joinAction inputNode) join_input
            then first = inputRef
            else first = length st ∧
                 x = pathEntry startingIndex inputToken inputNode)
    as (x & first & f & Hwalk & Hxp & Hf & Hfa & Hxa & Hfirst).
  { destruct (JoinAction_eqb (Node.joinAction inputNode) join_input);
      simpl in H; unfold alloc in H.
    - eexists _, inputRef, inputNode. split; [exact H|].
      split_and!; try done. by apply lookup_app_l_Some.
    - exists (pathEntry startingIndex inputToken inputNode), (length st),
        (pathEntry startingIndex inputToken inputNode).
      split; [exact H|].
      split_and!; [done | by apply list_lookup_middle | done..]. }
  clear H. exists first.
  set (st1 := st ++ [x]) in *.
  assert (length st1 = S (length st)) as Hlen1.
  { unfold st1. rewrite length_app. simpl. lia. }
  assert (parents_first st1) as Hpf1.
  { apply parents_first_alloc; [done|]. intros p Hp. rewrite Hxp in Hp.
    pose proof (Hpf _ _ _ HinputNode Hp). lia. }
  destruct (Node.parent inputNode) as [p|] eqn:Hparent.
  2:{ (* the matched node has no parent *)
    assert (st' = st1 ∧ path = [first]) as [-> ->].
    { destruct (length st); simpl in Hwalk; by injection Hwalk as <- <-. }
    assert (ancestors (length st) st None = []) as ->
      by by destruct (length st).
    simpl. rewrite Nat.add_0_r. split_and!; try done.
    destruct (JoinAction_eqb (Node.joinAction inputNode) join_input);
      [done|]. destruct Hfirst as [-> ->]. split; [done|].
    by apply list_lookup_middle. }
  pose proof (Hpf _ _ _ HinputNode Hparent) as Hp_lt.
  assert (∃ fuel, length st = S fuel) as [fuel Hfuel]
    by (exists (length st - 1); lia).
  rewrite Hfuel in Hwalk at 1. simpl in Hwalk.
  apply bind_Ok in Hwalk as (pn & Hpn1 & Hwalk). apply deref_Ok in Hpn1.
  assert (st !! p = Some pn) as Hpn.
  { unfold st1 in Hpn1. by rewrite lookup_app_l in Hpn1 by lia. }
  rewrite Nat.sub_0_r, Nat.eqb_refl in Hwalk.
  apply bind_Ok in Hwalk as ([stz node1] & Hround & Hwalk).
  apply bind_Ok in Hround as (kept & Hkept & Hround).
  apply bind_Ok in Hround as (stz' & Hz & Hround).
  injection Hround as -> <-.
  rewrite pathCopy_set_children in Hwalk. simpl in Hkept.
  apply zeroIndices_index_written in Hz as (Hlenz & Hwz & Hzkeep).
  pose proof (filterChildren_in_heap _ _ _ _ Hkept) as Hcs_heap.
  pose proof (filterChildren_spec _ _ _ _ Hkept) as Hkept_spec.
  apply (filterChildren_filter st1 first f inputToken) in Hkept; [|done..].
  set (copy0 := pathCopy (S startingIndex) (kept ++ [first]) pn) in Hwalk.
  set (st2 := stz ++ [copy0]) in Hwalk.
  assert (parents_first st2) as Hpf2.
  { apply parents_first_alloc.
    - by apply (index_written_parents_first st1).
    - intros q Hq. simpl in Hq. pose proof (Hpf _ _ _ Hpn Hq). lia. }
  assert (∀ h n, st !! h = Some n →
            st2 !! h = Some n ∨ st2 !! h = Some (Node.set_index "0" n))
    as Hst2.
  { intros h n Hn. assert (st1 !! h = Some n) as Hn1
      by by apply lookup_app_l_Some.
    destruct (Hwz h n Hn1) as [Hn2|Hn2]; [left|right];
      by apply lookup_app_l_Some. }
  apply walkToRoot_later in Hwalk
    as (-> & Hlen' & Hkeep & Hcopies & Hlast); [|lia|done|].
  2:{ intros q Hq. pose proof (Hpf _ _ _ Hpn Hq). unfold st2.
      rewrite length_app. lia. }
  assert (ancestors fuel st2 (Node.parent pn)
          = ancestors fuel st (Node.parent pn)) as Hanc.
  { apply ancestors_agree; [done| |].
    - intros h n Hn. destruct (Hst2 h n Hn) as [->| ->]; eauto.
    - intros q Hq. pose proof (Hpf _ _ _ Hpn Hq). lia. }
  rewrite Hanc in *.
  assert (ancestors (length st) st (Some p)
          = p :: ancestors fuel st (Node.parent pn)) as ->.
  { rewrite Hfuel. simpl. by rewrite Hpn. }
  cbv zeta. simpl length.
  assert (length st2 = S (S (length st))) as Hlen2.
  { unfold st2. rewrite length_app. simpl. lia. }
  rewrite Hlen2 in *. rewrite Hlenz, Hlen1.
  assert (index_written st1 st') as Hw'.
  { intros h n Hn. destruct (Hwz h n Hn) as [Hn2|Hn2]; [left|right];
      by apply Hkeep, lookup_app_l_Some. }
  split_and!.
  - done.
  - done.
  - destruct (JoinAction_eqb (Node.joinAction inputNode) join_input);
      [done|]. destruct Hfirst as [-> ->]. split; [done|].
    apply Hkeep, lookup_app_l_Some, Hzkeep.
    + by apply list_lookup_middle.
    + intros Hk. destruct (Hkept_spec _ Hk)
        as (_ & n & f' & a & fa & Hn & Hf' & Ha & Hfa' & Hne).
      assert (n = f') as -> by congruence. congruence.
  - done.
  - lia.
  - intros [|i] a an Hi Ha; simpl in Hi.
    + injection Hi as <-. assert (an = pn) as -> by congruence.
      rewrite Nat.add_0_r. rewrite Nat.add_0_r.
      rewrite (Hkeep (S (length st)) copy0).
      2:{ unfold st2. apply list_lookup_middle. lia. }
      unfold copy0. rewrite Hkept. do 3 f_equal.
      apply filter_matches_ext. eapply Forall_impl; [exact Hcs_heap|].
      simpl. intros c Hc. by apply index_written_matches.
    + specialize (Hcopies i a).
      replace (S (length st + S i)) with (S (S (length st)) + i) by lia.
      replace (S startingIndex + S i) with (S (S startingIndex) + i) by lia.
      destruct (Hst2 a an Ha) as [Ha2|Ha2];
        by rewrite (Hcopies _ Hi Ha2).
  - intros a an Hl Ha.
    destruct (ancestors fuel st (Node.parent pn)) as [|a1 l] eqn:El.
    + simpl in Hl. injection Hl as <-. assert (an = pn) as -> by congruence.
      destruct (Node.parent pn) as [q|] eqn:Eq; [|done]. exfalso.
      pose proof (Hpf _ _ _ Hpn Eq) as Hq.
      destruct (lookup_lt_is_Some_2 st q ltac:(lia)) as [qn Hqn].
      destruct fuel as [|fuel']; [lia|]. simpl in El. by rewrite Hqn in El.
    + rewrite last_cons_cons in Hl.
      destruct (Hst2 a an Ha) as [Ha2|Ha2]; by apply (Hlast a _ Hl Ha2).
Qed.

(** *** The walk ends *)

Lemma filterChildren_total (st : heap) (first : ref) (cs : list ref) :
  addressed st → first < length st → Forall (λ c, c < length st) cs →
  ∃ kept, PoolGraph.filterChildren st first cs = Ok kept ∧ kept ⊆ cs.
Proof.
  intros Had Hfirst Hcs.
  induction Hcs as [|c cs Hc _ (kept & IH & Hsub)]; [by exists []|].
  destruct (lookup_lt_is_Some_2 st c Hc) as [n Hn].
  destruct (lookup_lt_is_Some_2 st first Hfirst) as [f Hf].
  destruct (Had c n Hn) as [a Ha]. destruct (Had first f Hf) as [fa Hfa].
  simpl. unfold deref. rewrite Hn, Hf. simpl.
  rewrite (lowerAddress_Some _ _ Ha), (lowerAddress_Some _ _ Hfa). simpl.
  rewrite IH. simpl. eexists. split; [done|].
  destruct (String.eqb _ _); intros y Hy.
  - right. by apply Hsub.
  - apply elem_of_cons in Hy as [->|Hy]; [by left|]. right. by apply Hsub.
Qed.

Lemma zeroIndices_total (cs : list ref) :
  ∀ st, Forall (λ c, c < length st) cs →
  ∃ st', PoolGraph.zeroIndices st cs = Ok st'.
Proof.
  induction cs as [|c cs IH]; intros st Hcs; [by eexists|].
  apply Forall_cons in Hcs as [Hc Hcs].
  destruct (lookup_lt_is_Some_2 st c Hc) as [n Hn].
  simpl. unfold update, deref. rewrite Hn. simpl.
  apply IH. by rewrite length_insert.
Qed.

Lemma walkToRoot_later_total (fuel : nat) :
  ∀ (st : heap) (o : option ref) (index startingIndex : nat)
    (nodesToRoot : list ref),
  S startingIndex < index →
  parents_first st →
  (∀ p, o = Some p → p < fuel ∧ p < length st) →
  ∃ st' path,
    PoolGraph.walkToRoot fuel st o index startingIndex nodesToRoot
      = Ok (st', path).
Proof.
  induction fuel as [|fuel IH]; intros st o index si nodesToRoot Hidx Hpf Ho;
    destruct o as [p|]; simpl; try by eexists _, _.
  { destruct (Ho p eq_refl). lia. }
  destruct (Ho p eq_refl) as [Hpf_lt Hp].
  destruct (lookup_lt_is_Some_2 st p Hp) as [pn Hpn].
  unfold deref. rewrite Hpn. simpl.
  rewrite (proj2 (Nat.eqb_neq (index - 1) si)) by lia. simpl.
  apply IH; [lia | |].
  - apply parents_first_alloc; [done|]. intros q Hq. simpl in Hq.
    pose proof (Hpf _ _ _ Hpn Hq). lia.
  - intros q Hq. pose proof (Hpf _ _ _ Hpn Hq). rewrite length_app.
    simpl. lia.
Qed.

(** The walk to the root ends. *)
Lemma getNodesToRoot_total
    (st : heap) (orderedNodes : list ref) (inputToken : string)
    (startingIndex : nat) (lastRef : ref) :
  parents_first st → closed st → addressed st →
  Forall (λ r, r < length st) orderedNodes →
  Exists (matches st inputToken) orderedNodes →
  last orderedNodes = Some lastRef →
  ¬ matches st inputToken lastRef →
  ∃ st' path,
    PoolGraph.getNodesToRoot st orderedNodes inputToken startingIndex
      = Ok (st', path).
Proof.
  intros Hpf Hcl Had Hnodes Hex Hlast Hnl.
  assert (Forall (λ r, ∃ n, st !! r = Some n ∧ is_Some (Node.address n))
            orderedNodes) as Hall.
  { eapply Forall_impl; [exact Hnodes|]. simpl. intros r Hr.
    destruct (lookup_lt_is_Some_2 st r Hr) as [n Hn]. exists n.
    split; [done|]. by eapply Had. }
  assert (lastRef ∈ orderedNodes) as Hin.
  { apply last_Some in Hlast as [l' ->]. apply elem_of_app. right. by left. }
  destruct (proj1 (Forall_forall _ _) Hall _ Hin) as (ln & Hln & [la Hla]).
  unfold PoolGraph.getNodesToRoot. rewrite Hlast. simpl.
  unfold deref. rewrite Hln. simpl. rewrite (lowerAddress_Some _ _ Hla). simpl.
  destruct (String.eqb (toLowerCase inputToken) (toLowerCase la)) eqn:E.
  { apply String.eqb_eq in E. destruct Hnl. by exists ln, la. }
  destruct (findNode_total st inputToken orderedNodes Hall)
    as [[_ Hno]|(r & -> & Hr & n & a & Hn & Ha & Heq)].
  { apply Exists_exists in Hex as (r & Hr & Hm).
    by destruct (proj1 (Forall_forall _ _) Hno r Hr). }
  simpl. rewrite Hn. simpl.
  assert (r < length st) as Hr_lt by by eapply lookup_lt_Some.
  (* the walk, whatever node is allocated before it *)
  assert (∀ x first,
            Node.parent x = Node.parent n → is_Some (Node.address x) →
            first < S (length st) →
            ∃ st' path,
              PoolGraph.walkToRoot (length st) (st ++ [x]) (Node.parent n)
                (S startingIndex) startingIndex [first] = Ok (st', path))
    as Hwalk.
  2:{ destruct (negb (JoinAction_eqb (Node.joinAction n) join_input));
        simpl; unfold alloc; apply Hwalk; (done || by eexists || lia). }
  intros x first Hxp Hxa Hfirst.
  set (st1 := st ++ [x]).
  assert (length st1 = S (length st)) as Hlen1.
  { unfold st1. rewrite length_app. simpl. lia. }
  assert (parents_first st1) as Hpf1.
  { apply parents_first_alloc; [done|]. intros p Hp. rewrite Hxp in Hp.
    pose proof (Hpf _ _ _ Hn Hp). lia. }
  assert (addressed st1) as Had1.
  { intros h m Hm. apply lookup_app_Some in Hm as [Hm|[_ Hm]].
    - by eapply Had.
    - by apply list_lookup_singleton_Some in Hm as [_ <-]. }
  destruct (Node.parent n) as [p|] eqn:Hparent.
  2:{ destruct (length st); simpl; by eexists _, _. }
  pose proof (Hpf _ _ _ Hn Hparent) as Hp_lt.
  destruct (length st) as [|fuel] eqn:Hfuel; [lia|]. simpl.
  destruct (lookup_lt_is_Some_2 st p ltac:(lia)) as [pn Hpn].
  unfold deref. fold st1.
  rewrite (lookup_app_l_Some st [x] p pn Hpn : st1 !! p = Some pn). simpl.
  rewrite Nat.sub_0_r, Nat.eqb_refl. simpl.
  destruct (filterChildren_total st1 first (Node.children pn))
    as (kept & -> & Hsub); [done | lia | |].
  { apply Forall_forall. intros c Hc. pose proof (Hcl p pn c Hpn Hc). lia. }
  simpl.
  assert (Forall (λ c, c < length st1) kept) as Hkept.
  { apply Forall_forall. intros c Hc. apply Hsub in Hc.
    pose proof (Hcl p pn c Hpn Hc). lia. }
  destruct (zeroIndices_total kept st1 Hkept) as [stz Hz]. rewrite Hz. simpl.
  apply zeroIndices_index_written in Hz as (Hlenz & Hwz & _).
  apply walkToRoot_later_total; [lia | |].
  - apply parents_first_alloc.
    + by apply (index_written_parents_first st1).
    + intros q Hq. simpl in Hq. pose proof (Hpf _ _ _ Hpn Hq). lia.
  - intros q Hq. pose proof (Hpf _ _ _ Hpn Hq). rewrite length_app. lia.
Qed.

(** X13.  On a heap where parents come before their children, children
    are in the heap and every node has an address, [getNodesToRoot]
    returns a path for every input token that is the address of a node of
    the list other than the last: the walk to the root ends. *)
Theorem getNodesToRoot_returns
    (st : heap) (orderedNodes : list ref) (inputToken : string)
    (startingIndex : nat) (lastRef : ref) :
  parents_first st → closed st → addressed st →
  Forall (λ r, r < length st) orderedNodes →
  Exists (matches st inputToken) orderedNodes →
  last orderedNodes = Some lastRef →
  ¬ matches st inputToken lastRef →
  ∃ st' path,
    PoolGraph.getNodesToRoot st orderedNodes inputToken startingIndex
      = Ok (st', path).
Proof.
  intros Hpf Hcl Had Hnodes Hex Hlast Hnl.
  by eapply getNodesToRoot_total.
Qed.

Lemma orderedTree_parents_first : parents_first Example.orderedTree.
Proof.
  intros h n p Hn Hp. destruct h as [|[|[|[|h]]]]; vm_compute in Hn;
    try discriminate; injection Hn as <-; vm_compute in Hp;
    try discriminate; injection Hp as <-; lia.
Qed.

Lemma orderedTree_closed : closed Example.orderedTree.
Proof.
  intros h n c Hn Hc. destruct h as [|[|[|[|h]]]]; vm_compute in Hn;
    try discriminate; injection Hn as <-; simpl in Hc;
    repeat (apply elem_of_cons in Hc as [->|Hc]; [vm_compute; lia|]);
    by apply elem_of_nil in Hc.
Qed.

Lemma orderedTree_addressed : addressed Example.orderedTree.
Proof.
  intros h n Hn. destruct h as [|[|[|[|h]]]]; vm_compute in Hn;
    try discriminate; injection Hn as <-; by eexists.
Qed.

Lemma orderedTree_nodes :
  Forall (λ r, ∃ n, Example.orderedTree !! r = Some n ∧
                    is_Some (Node.address n)) [3; 2; 1; 0].
Proof. repeat constructor; eexists; split; by eauto. Qed.

Lemma getNodesToRoot_INPUT_TOKEN_INVALID_witness :
  PoolGraph.getNodesToRoot Example.orderedTree [3; 2; 1; 0] "0xnone" 0
    = Err INPUT_TOKEN_INVALID.
Proof.
  apply (proj2 (getNodesToRoot_INPUT_TOKEN_INVALID Example.orderedTree
                  [3; 2; 1; 0] "0xnone" 0 orderedTree_nodes)).
  exists 0. split; [reflexivity|]. right.
  repeat constructor; intros (n & a & Hn & Ha & He); vm_compute in Hn;
    injection Hn as <-; injection Ha as <-; discriminate.
Defined.

Lemma getNodesToRoot_path_witness :
  ∃ inputRef inputNode first,
    PoolGraph.findNode Example.orderedTree [3; 2; 1; 0] "0xaaa"
      = Ok (Some inputRef) ∧
    Example.orderedTree !! inputRef = Some inputNode ∧
    (if JoinAction_eqb (Node.joinAction inputNode) join_input
     then first = inputRef
     else first = length Example.orderedTree ∧
          Example.afterPath !! first = Some (pathEntry 0 "0xaaa" inputNode)) ∧
    let anc := ancestors (length Example.orderedTree) Example.orderedTree
                 (Node.parent inputNode) in
    [1; 5] = first :: seq (S (length Example.orderedTree)) (length anc) ∧
    length Example.afterPath
      = S (length Example.orderedTree + length anc) ∧
    (∀ i a an, anc !! i = Some a → Example.orderedTree !! a = Some an →
       Example.afterPath !! (S (length Example.orderedTree + i))
       = Some (pathCopy (S 0 + i)
                 (if i is 0
                  then filter (λ c, ¬ matches Example.afterPath "0xaaa" c)
                         (Node.children an) ++ [first]
                  else Node.children an)
                 an)) ∧
    (∀ a an, last anc = Some a → Example.orderedTree !! a = Some an →
       Node.parent an = None).
Proof.
  apply (getNodesToRoot_path Example.orderedTree [3; 2; 1; 0] "0xaaa" 0
           Example.afterPath [1; 5] orderedTree_parents_first).
  vm_compute. reflexivity.
Defined.

Lemma getNodesToRoot_returns_witness :
  ∃ st' path,
    PoolGraph.getNodesToRoot Example.orderedTree [3; 2; 1; 0] "0xbbb" 7
      = Ok (st', path).
Proof.
  apply (getNodesToRoot_returns Example.orderedTree [3; 2; 1; 0] "0xbbb" 7 0
           orderedTree_parents_first orderedTree_closed
           orderedTree_addressed).
  - repeat constructor; vm_compute; lia.
  - apply Exists_cons_tl, Exists_cons_hd.
    eexists _, _. split_and!; reflexivity.
  - reflexivity.
  - intros (n & a & Hn & Ha & He). vm_compute in Hn. injection Hn as <-.
    injection Ha as <-. discriminate.
Defined.

(** ** The shape of a built graph *)

Lemma toString_inj (a b : nat) : toString a = toString b → a = b.
Proof.
  assert (∀ n, Nat.to_uint n ≠ Decimal.Nil) as Hnil.
  { intros n. rewrite <- (DecimalNat.Unsigned.of_to n) at 1.
    rewrite DecimalNat.Unsigned.to_of. unfold Decimal.unorm.
    by destruct (Decimal.nzhead _). }
  unfold toString. intros H.
  apply (f_equal NilZero.uint_of_string) in H.
  rewrite !NilZero.usu in H by apply Hnil.
  injection H as H. by apply DecimalNat.Unsigned.to_uint_inj.
Qed.

Lemma lookup_app_new {A} (l new : list A) (k : nat) (x : A) :
  (l ++ new) !! k = Some x → length l ≤ k →
  new !! (k - length l) = Some x.
Proof. intros H Hk. by rewrite lookup_app_r in H. Qed.

Lemma insert_last_app {A} (l : list A) (x y : A) :
  <[length l := y]> (l ++ [x]) = l ++ [y].
Proof.
  rewrite (insert_app_r_alt l _ (length l)) by lia.
  by rewrite Nat.sub_diag.
Qed.

Lemma kids_lookup (st : heap) (h : ref) (n : Node.t) :
  st !! h = Some n → kids st h = Node.children n.
Proof. unfold kids. by intros ->. Qed.

Ltac join_case t name :=
  destruct (String.eqb_spec t name) as [->|?];
  [cbv; intros [= <-]; split; [auto | by split]|].

(** The actions that the table of joins has. *)
Lemma joinActions_cases (poolType : string) (ja : JoinAction) :
  PoolGraph.joinActions poolType = Some ja →
  (ja = join_batchSwap ∨ ja = join_joinPool) ∧
  poolType ≠ "Input"%string ∧ poolType ≠ "WrappedToken"%string.
Proof.
  unfold PoolGraph.joinActions.
  unfold PoolGraph.joinActions.
  join_case poolType "AaveLinear".
  join_case poolType "ERC4626Linear".
  join_case poolType "Element".
  join_case poolType "Investment".
  join_case poolType "LiquidityBootstrapping".
  join_case poolType "MetaStable".
  join_case poolType "Stable".
  join_case poolType "StablePhantom".
  join_case poolType "Weighted".
  join_case poolType "ComposableStable".
  intros [=].
Qed.

Section BuildShape.
Variable find : string → option Pool.t.
Variable findBy : string → option Pool.t.
Variable Controller : Type.
Variable wrap : Pool.t → option Controller.
Variable calcSpotPrice : Controller → string → string → option string.

Let body := PoolGraph.buildGraphFromPool_body findBy Controller wrap
              calcSpotPrice.
Let build := PoolGraph.buildGraphFromPool findBy Controller wrap
               calcSpotPrice.
Let buildRoot := PoolGraph.buildGraphFromRootPool find findBy Controller
                   wrap calcSpotPrice.

Lemma kind_poolNodeOf address pool ja ea sp d nodeIndex parent P w cs :
  findBy address = Some pool →
  PoolGraph.joinActions (Pool.poolType pool) = Some ja →
  PoolGraph.exitActions (Pool.poolType pool) = Some ea →
  kind findBy w
    (Node.set_children cs (poolNodeOf pool ja ea sp d nodeIndex parent P)).
Proof.
  intros Hpool Hja Hea. right; right. split; [done|].
  exists address, pool. by split_and!.
Qed.

Lemma kind_inputNodeOf nodeIndex address decimals parent P w :
  kind findBy w (inputNodeOf nodeIndex address decimals parent P).
Proof. left. by split_and!. Qed.

Lemma kind_wrappedNodeOf pool wi nodeIndex parent P child :
  kind findBy true (wrappedNodeOf pool wi nodeIndex parent P child).
Proof.
  right; left. split_and!; try done. simpl.
  destruct (String.eqb (Pool.poolType pool) "ERC4626Linear"); auto.
Qed.

(** The token loop: what it adds to the heap below the pool node [p]. *)
Lemma expandTokens_shape (rec : PoolGraph.expand) pool T p P w toks :
  expand_ok rec → expand_shape findBy rec →
  ∀ i st nodeIndex st' nodeIndex' pn,
  PoolGraph.expandTokens rec pool T p P w i toks st nodeIndex
    = Ok (st', nodeIndex') →
  wf st → st !! p = Some pn →
  nodeIndex' = nodeIndex + (length st' - length st) ∧
  ∀ k n, st' !! k = Some n → length st ≤ k →
    Node.index n = toString (nodeIndex + (k - length st)) ∧
    kind findBy w n ∧
    ∃ q, Node.parent n = Some q ∧ p ≤ q < k ∧ k ∈ kids st' q.
Proof.
  intros Hrec Hshape. induction toks as [|t toks IH];
    intros i st nodeIndex st' nodeIndex' pn H Hwf Hp; simpl in H.
  { injection H as <- <-. split; [lia|]. intros k n Hk Hge.
    apply lookup_lt_Some in Hk. lia. }
  destruct (String.eqb (Token.address t) (Pool.address pool));
    [by eapply IH|].
  apply bind_Ok in H as (q & Hq & H).
  apply bind_Ok in H as ([[st1 c] idx1] & Hc & H).
  apply bind_Ok in H as (st2 & Hup & H).
  destruct (Hrec _ _ _ _ _ _ _ _ _ Hc Hwf)
    as (-> & [Hlen1 Hext1] & Hwf1 & cn & Hcn & Hpar & Hprop).
  destruct (Hshape _ _ _ _ _ _ _ _ _ Hc Hwf) as [-> Hnew1].
  apply update_Ok in Hup as (pn1 & Hpn1 & ->).
  assert (pn1 = pn) as -> by (specialize (Hext1 _ _ Hp); congruence).
  assert (p < length st) as Hplt by by eapply lookup_lt_Some.
  assert (length st < length st1) as Hlt1 by by eapply lookup_lt_Some.
  assert (wf (<[p:=Node.push_child (length st) pn]> st1)) as Hwf2.
  { eapply wf_push_child; try done. intros Hin.
    pose proof (wf_children_lt st p _ pn Hwf Hp Hin). lia. }
  assert (<[p:=Node.push_child (length st) pn]> st1 !! p
          = Some (Node.push_child (length st) pn)) as Hp2.
  { apply list_lookup_insert_eq. lia. }
  destruct (expandTokens_ok _ _ _ _ _ _ _ Hrec _ _ _ _ _ _ H Hwf2 Hp2)
    as (Hlen & Hfr & _ & new & Hp' & _).
  destruct (IH _ _ _ _ _ _ H Hwf2 Hp2) as [-> Hnew2].
  rewrite length_insert in *.
  split; [lia|]. intros k n Hk Hge.
  destruct (decide (k < length st1)) as [Hk1|Hk1].
  - (* a node of the child just expanded *)
    assert (st1 !! k = Some n) as Hk'.
    { destruct (lookup_lt_is_Some_2 st1 k Hk1) as [m Hm].
      rewrite (Hfr k m) in Hk; [congruence | | lia].
      by rewrite list_lookup_insert_ne by lia. }
    destruct (Hnew1 k n Hk' Hge) as (Hidx & Hkind & Hlink).
    split_and!; [done | done |].
    destruct (decide (k = length st)) as [->|Hne].
    + exists p. split_and!; [congruence | lia | lia |].
      rewrite (kids_lookup _ _ _ Hp'). simpl.
      rewrite elem_of_app, elem_of_app. left. right. by left.
    + destruct Hlink as (q0 & Hq0 & Hrange & Hin); [lia|].
      exists q0. split_and!; [done | lia | lia |].
      unfold kids in *. destruct (st1 !! q0) as [qn|] eqn:Hqn;
        [|by apply elem_of_nil in Hin].
      rewrite (Hfr q0 qn); [done | | lia].
      by rewrite list_lookup_insert_ne by lia.
  - destruct (Hnew2 k n Hk ltac:(lia)) as (Hidx & Hkind & Hlink).
    split_and!; [|done|done]. rewrite Hidx. f_equal. lia.
Qed.

(** The children of a linear pool node that has just been made. *)
Lemma createLinearNodeChildren_shape st address pool ja ea sp d nodeIndex
    parent P w st' h nodeIndex' :
  findBy address = Some pool →
  PoolGraph.joinActions (Pool.poolType pool) = Some ja →
  PoolGraph.exitActions (Pool.poolType pool) = Some ea →
  PoolGraph.createLinearNodeChildren
    (st ++ [poolNodeOf pool ja ea sp d nodeIndex parent P]) (length st)
    (S nodeIndex) pool w = Ok (st', h, nodeIndex') →
  nodeIndex' = nodeIndex + (length st' - length st) ∧
  ∀ k n, st' !! k = Some n → length st ≤ k →
    Node.index n = toString (nodeIndex + (k - length st)) ∧
    kind findBy w n ∧
    (length st < k →
     ∃ p, Node.parent n = Some p ∧ length st ≤ p < k ∧ k ∈ kids st' p).
Proof.
  intros Hpool Hja Hea H.
  set (pn := poolNodeOf pool ja ea sp d nodeIndex parent P) in *.
  apply (createLinearNodeChildren_heap _ _ _ _ _ pn) in H
    as (mi & t & -> & Hmi & Ht & H); [|by apply list_lookup_middle].
  rewrite insert_last_app, length_app in H. simpl in H.
  rewrite Nat.add_1_r in H.
  assert (kind findBy w (Node.push_child (S (length st)) pn)) as Hkp.
  { by eapply kind_poolNodeOf. }
  destruct w.
  - destruct H as (wi & Hwi & -> & ->). rewrite <- app_assoc. simpl.
    rewrite length_app. simpl. split; [lia|].
    intros k n Hk Hge. apply lookup_app_new in Hk; [|done].
    destruct (k - length st) as [|[|[|j]]] eqn:Ej; simpl in Hk;
      [| | |done]; injection Hk as <-.
    + split_and!; [by rewrite Nat.add_0_r | done | lia].
    + split_and!;
        [by rewrite Nat.add_1_r | apply kind_wrappedNodeOf |].
      intros _. exists (length st).
      split_and!; [done | lia | lia |].
      unfold kids. rewrite list_lookup_middle by done. simpl.
      apply list_elem_of_singleton. lia.
    + split_and!;
        [by replace (nodeIndex + 2) with (S (S nodeIndex)) by lia
        | apply kind_inputNodeOf |].
      intros _. exists (S (length st)).
      split_and!; [done | lia | lia |].
      unfold kids. rewrite lookup_app_r by lia.
      replace (S (length st) - length st) with 1 by lia. simpl.
      apply list_elem_of_singleton. lia.
  - destruct H as (-> & ->). rewrite <- app_assoc. simpl.
    rewrite length_app. simpl. split; [lia|].
    intros k n Hk Hge. apply lookup_app_new in Hk; [|done].
    destruct (k - length st) as [|[|j]] eqn:Ej; simpl in Hk;
      [| |done]; injection Hk as <-.
    + split_and!; [by rewrite Nat.add_0_r | done | lia].
    + split_and!;
        [by rewrite Nat.add_1_r | apply kind_inputNodeOf |].
      intros _. exists (length st).
      split_and!; [done | lia | lia |].
      unfold kids. rewrite list_lookup_middle by done. simpl.
      apply list_elem_of_singleton. lia.
Qed.

Lemma body_shape (rec : PoolGraph.expand) :
  expand_ok rec → expand_shape findBy rec → expand_shape findBy (body rec).
Proof.
  intros Hrec Hshape st address nodeIndex parent P w st' h nodeIndex' H Hwf.
  destruct (findBy address) as [pool|] eqn:Hpool.
  - pose proof H as H0.
    unfold body, PoolGraph.buildGraphFromPool_body in H0.
    rewrite Hpool in H0.
    destruct (PoolGraph.joinActions (Pool.poolType pool)) as [ja|] eqn:Hja;
      [|discriminate].
    destruct (PoolGraph.exitActions (Pool.poolType pool)) as [ea|] eqn:Hea;
      [|discriminate].
    destruct (wrap pool) as [c|]; [|discriminate].
    rewrite fromOption_Some, bind_Ok_l in H0.
    destruct (PoolGraph.collectSpotPrices Controller calcSpotPrice c pool
                (Pool.tokens pool) ∅ 18) as [[sp d]|]; [|discriminate].
    rewrite bind_Ok_l in H0. clear H. unfold alloc in H0.
    fold (poolNodeOf pool ja ea sp d nodeIndex parent P) in H0.
    set (pn := poolNodeOf pool ja ea sp d nodeIndex parent P) in *.
    destruct (includes (Pool.poolType pool) "Linear").
    + by eapply createLinearNodeChildren_shape.
    + apply bind_Ok in H0 as ([st2 idx2] & Hloop & H0).
      injection H0 as <- <- <-.
      assert (wf (st ++ [pn])) as Hwf1 by by apply wf_alloc.
      assert ((st ++ [pn]) !! length st = Some pn) as Hp
        by by apply list_lookup_middle.
      destruct (expandTokens_ok _ _ _ _ _ _ _ Hrec _ _ _ _ _ pn Hloop Hwf1 Hp)
        as (Hlen & _ & _ & new & Hn & _).
      destruct (expandTokens_shape _ _ _ _ _ _ _ Hrec Hshape _ _ _ _ _ pn
                  Hloop Hwf1 Hp) as [-> Hnew].
      rewrite length_app in *. simpl in *. split; [lia|].
      intros k n Hk Hge. destruct (decide (k = length st)) as [->|Hne].
      * rewrite Hn in Hk. injection Hk as <-.
        split_and!; [by rewrite Nat.sub_diag, Nat.add_0_r | | lia].
        by eapply kind_poolNodeOf.
      * destruct (Hnew k n Hk ltac:(lia)) as (Hidx & Hkind & q & Hq & Hr & Hin).
        split_and!; [|done|].
        -- rewrite Hidx. f_equal. lia.
        -- intros _. exists q. split_and!; [done | lia | lia | done].
  - unfold body, PoolGraph.buildGraphFromPool_body in H. rewrite Hpool in H.
    destruct parent as [p|]; [|discriminate].
    unfold PoolGraph.leafTokenNode in H.
    apply bind_Ok in H as (pn & _ & H).
    apply bind_Ok in H as (parentPool & _ & H).
    apply bind_Ok in H as (i & _ & H).
    apply bind_Ok in H as (t & _ & H).
    unfold PoolGraph.createInputTokenNode, alloc in H.
    injection H as <- <- <-. rewrite length_app. simpl. split; [lia|].
    intros k n Hk Hge. apply lookup_app_new in Hk; [|done].
    destruct (k - length st) as [|j] eqn:Ej; simpl in Hk; [|done].
    injection Hk as <-.
    split_and!; [by rewrite Nat.add_0_r | apply kind_inputNodeOf | lia].
Qed.

Lemma build_shape (fuel : nat) : expand_shape findBy (build fuel).
Proof.
  induction fuel as [|fuel IH]; [by intros ? ? ? ? ? ? ? ? ? [=]|].
  apply body_shape; [apply build_ok | done].
Qed.

(** What [buildGraphFromRootPool] returns. *)
Lemma buildRoot_shape fuel poolId w st root :
  buildRoot fuel poolId w = Ok (st, root) →
  root = 0 ∧ wf st ∧
  (∃ n, st !! 0 = Some n ∧ Node.parent n = None ∧
        Node.proportionOfParent n = WeiPerEther) ∧
  ∀ k n, st !! k = Some n →
    Node.index n = toString k ∧
    kind findBy w n ∧
    (0 < k → ∃ p, Node.parent n = Some p ∧ p < k ∧ k ∈ kids st p).
Proof.
  unfold buildRoot, PoolGraph.buildGraphFromRootPool. intros H.
  apply bind_Ok in H as (rootPool & _ & H).
  apply bind_Ok in H as ([[st1 r] idx] & Hb & H). injection H as <- <-.
  destruct (build_ok findBy Controller wrap calcSpotPrice fuel
              _ _ _ _ _ _ _ _ _ Hb wf_nil)
    as (-> & _ & Hwf & n & Hn & Hpar & HP).
  destruct (build_shape fuel _ _ _ _ _ _ _ _ _ Hb wf_nil) as [_ Hnew].
  split_and!; [done | done | by exists n |].
  intros k m Hk. destruct (Hnew k m Hk) as (Hidx & Hkind & Hlink);
    [simpl; lia|].
  simpl in *. rewrite Nat.sub_0_r in Hidx. split_and!; [done | done |].
  intros Hpos. destruct (Hlink Hpos) as (p & Hp & Hr & Hin).
  exists p. split_and!; [done | lia | done].
Qed.

(** X14.  [buildGraphFromRootPool] numbers the nodes as it makes them:
    the root has index 0, every node has for index the number of nodes
    made before it, and no two nodes share an index. *)
Theorem buildGraphFromRootPool_numbers_the_nodes
    (fuel : nat) (poolId : string) (wrapMainTokens : bool)
    (st : heap) (root : ref) :
  buildRoot fuel poolId wrapMainTokens = Ok (st, root) →
  root = 0 ∧
  (∀ h n, st !! h = Some n → Node.index n = toString h) ∧
  (∀ h1 h2 n1 n2, st !! h1 = Some n1 → st !! h2 = Some n2 →
     Node.index n1 = Node.index n2 → h1 = h2).
Proof.
  intros H. apply buildRoot_shape in H as (-> & _ & _ & Hall).
  split_and!; [done | |].
  - intros h n Hn. by destruct (Hall h n Hn) as (? & _).
  - intros h1 h2 n1 n2 H1 H2 Heq.
    destruct (Hall h1 n1 H1) as (E1 & _). destruct (Hall h2 n2 H2) as (E2 & _).
    apply toString_inj. congruence.
Qed.

Lemma buildRoot_parents_first fuel poolId w st root :
  buildRoot fuel poolId w = Ok (st, root) → wf st ∧ parents_first st.
Proof.
  intros H. apply buildRoot_shape in H as (-> & Hwf & Hroot & Hall).
  split; [done|]. intros h n p Hn Hp. destruct (decide (h = 0)) as [->|Hne].
  - destruct Hroot as (rn & Hrn & Hnone & _). congruence.
  - destruct (Hall h n Hn) as (_ & _ & Hl).
    destruct Hl as (p' & Hp' & Hlt & _); [lia|]. congruence.
Qed.

(** X15.  In the graph that [buildGraphFromRootPool] returns, the
    [parent] fields and the [children] arrays say the same: the root, with
    the whole proportion, is the one node without parent; every other
    node was made after its parent and is among the children of its
    parent; and every child of a node names that node as its parent. *)
Theorem buildGraphFromRootPool_links
    (fuel : nat) (poolId : string) (wrapMainTokens : bool)
    (st : heap) (root : ref) :
  buildRoot fuel poolId wrapMainTokens = Ok (st, root) →
  (∃ rn, st !! root = Some rn ∧ Node.parent rn = None ∧
         Node.proportionOfParent rn = WeiPerEther) ∧
  (∀ h n, st !! h = Some n → h ≠ root →
     ∃ p, Node.parent n = Some p ∧ p < h ∧ h ∈ kids st p) ∧
  (∀ p c, c ∈ kids st p →
     ∃ cn, st !! c = Some cn ∧ Node.parent cn = Some p) ∧
  parents_first st.
Proof.
  intros H. destruct (buildRoot_parents_first _ _ _ _ _ H) as [_ Hpf].
  apply buildRoot_shape in H as (-> & Hwf & Hroot & Hall).
  split_and!; [done | | | done].
  - intros h n Hn Hne. destruct (Hall h n Hn) as (_ & _ & Hl).
    apply Hl. lia.
  - intros p c Hc. destruct (wf_kids st p c Hwf Hc) as (_ & cn & ? & ? & _).
    by exists cn.
Qed.

Lemma built_all_reachable (st : heap) :
  (∀ h n, st !! h = Some n → 0 < h →
     ∃ p, Node.parent n = Some p ∧ p < h ∧ h ∈ kids st p) →
  ∀ h, h < length st → reachable st 0 h.
Proof.
  intros Hlink h. induction (lt_wf h) as [h _ IH]. intros Hh.
  destruct (decide (h = 0)) as [->|Hne].
  { exists 0. simpl. by left. }
  destruct (lookup_lt_is_Some_2 st h Hh) as [n Hn].
  destruct (Hlink h n Hn ltac:(lia)) as (p & _ & Hlt & Hin).
  destruct (IH p Hlt ltac:(lia)) as [k Hk]. exists (S k).
  rewrite level_at_snoc. apply elem_of_flat_map_kids. by exists p.
Qed.

(** The breadth-first order of a built graph. *)
Lemma built_bfs fuel poolId w st root :
  buildRoot fuel poolId w = Ok (st, root) →
  ∃ st' out,
    PoolGraph.orderByBfs st root = Ok (st', out) ∧
    NoDup out ∧ head out = Some root ∧
    ∀ h, h ∈ out ↔ h < length st.
Proof.
  intros H. apply buildRoot_shape in H as (-> & Hwf & Hroot & Hall).
  destruct Hroot as (rn & Hrn & Hpar & _).
  destruct (wf_is_tree st 0 rn Hwf Hrn Hpar) as [Htree Hun].
  destruct (orderByBfs_tree st 0 (length st) Htree) as [st' Hst'].
  { by apply Forall_forall. }
  exists st', (levels st (length st) [0]). destruct Htree as [Hlast Hnd].
  split_and!; [done | done | |].
  - assert (0 < length st) by by eapply lookup_lt_Some.
    destruct (length st); [lia | done].
  - intros h. rewrite (levels_reachable st 0 _ h Hlast). split.
    + intros [k Hk]. destruct (level_elem st 0 rn Hwf Hrn k h Hk)
        as (_ & n & Hn & _).
      by apply lookup_lt_Some in Hn.
    + intros Hh. apply built_all_reachable; [|done].
      intros h' n Hn Hpos. by destruct (Hall h' n Hn) as (_ & _ & Hl); apply Hl.
Qed.

(** X16.  On the graph that [buildGraphFromRootPool] returns,
    [orderByBfs] lists every node of the graph, each once, the root
    first: the order is a permutation of the nodes made. *)
Theorem orderByBfs_lists_every_node
    (fuel : nat) (poolId : string) (wrapMainTokens : bool)
    (st : heap) (root : ref) :
  buildRoot fuel poolId wrapMainTokens = Ok (st, root) →
  ∃ st' out,
    PoolGraph.orderByBfs st root = Ok (st', out) ∧
    out ≡ₚ seq 0 (length st) ∧
    head out = Some root.
Proof.
  intros H. destruct (built_bfs _ _ _ _ _ H) as (st' & out & Hb & Hnd & Hhd & Hin).
  exists st', out. split_and!; [done | | done].
  apply NoDup_Permutation; [done | apply NoDup_seq |].
  intros h. rewrite elem_of_seq, Hin. lia.
Qed.

(** X17.  Every node of the graph that [buildGraphFromRootPool] returns
    is of one of three kinds: an Input leaf without children, a
    WrappedToken node above one child, or the node of a pool of the
    repository with the actions of its type.  So the leaves are the nodes
    joined by 'input', and a graph built without wrapping main tokens has
    no wrap action. *)
Theorem buildGraphFromRootPool_kinds
    (fuel : nat) (poolId : string) (wrapMainTokens : bool)
    (st : heap) (root : ref) (h : ref) (n : Node.t) :
  buildRoot fuel poolId wrapMainTokens = Ok (st, root) →
  st !! h = Some n →
  kind findBy wrapMainTokens n ∧
  (Node.isLeaf n = true ↔ Node.joinAction n = join_input) ∧
  (Node.isLeaf n = true ↔ Node.type n = "Input"%string) ∧
  (wrapMainTokens = false →
   Node.joinAction n = join_input ∨ Node.joinAction n = join_batchSwap ∨
   Node.joinAction n = join_joinPool).
Proof.
  intros H Hn. apply buildRoot_shape in H as (_ & _ & _ & Hall).
  destruct (Hall h n Hn) as (_ & Hkind & _). split; [done|].
  destruct Hkind as [(Hl & Ht & Hj & _)|[(Hl & Ht & Hw & Hj & _)|
    (Hl & a & pool & _ & _ & _ & Ht & Hj & _)]].
  - rewrite Hl, Ht, Hj. split_and!; [done | done | auto].
  - rewrite Hl, Ht. split_and!.
    + split; [done|]. destruct Hj as [[-> _]|[-> _]]; discriminate.
    + split; discriminate.
    + intros ->. discriminate.
  - apply joinActions_cases in Hj as (Hj & Hi & _). rewrite Hl, Ht.
    split_and!.
    + split; [done|]. destruct Hj as [-> | ->]; discriminate.
    + split; [done|]. intros E. by destruct Hi.
    + intros _. destruct Hj as [-> | ->]; auto.
Qed.
End BuildShape.

(** *** Paths in a built graph *)

Lemma marks_only_lookup (st st' : heap) (h : ref) (n' : Node.t) :
  marks_only st st' → st' !! h = Some n' →
  ∃ n, st !! h = Some n ∧ (n' = n ∨ n' = Node.set_marked true n).
Proof.
  intros [Hlen Hm] Hn'.
  assert (h < length st) as Hh by (rewrite <- Hlen; by eapply lookup_lt_Some).
  destruct (lookup_lt_is_Some_2 st h Hh) as [n Hn]. exists n. split; [done|].
  destruct (Hm h n Hn) as [E|[_ E]]; rewrite E in Hn'; injection Hn' as <-;
    auto.
Qed.

Lemma marks_only_parents_first (st st' : heap) :
  marks_only st st' → parents_first st → parents_first st'.
Proof.
  intros Hmo Hpf h n' p Hn' Hp.
  destruct (marks_only_lookup _ _ _ _ Hmo Hn') as (n & Hn & [->| ->]);
    exact (Hpf h n p Hn Hp).
Qed.

Lemma marks_only_addressed (st st' : heap) :
  marks_only st st' → addressed st → addressed st'.
Proof.
  intros Hmo Had h n' Hn'.
  destruct (marks_only_lookup _ _ _ _ Hmo Hn') as (n & Hn & [->| ->]);
    exact (Had h n Hn).
Qed.

Lemma marks_only_matches (st st' : heap) (inputToken : string) (h : ref) :
  marks_only st st' →
  matches st' inputToken h ↔ matches st inputToken h.
Proof.
  intros Hmo. split.
  - intros (n' & a & Hn' & Ha & He).
    destruct (marks_only_lookup _ _ _ _ Hmo Hn') as (n & Hn & [->| ->]);
      by exists n, a.
  - intros (n & a & Hn & Ha & He). destruct Hmo as [_ Hm].
    destruct (Hm h n Hn) as [E|[_ E]]; eexists _, a; by split_and!.
Qed.

Lemma wf_closed (st : heap) : wf st → closed st.
Proof.
  intros Hwf h n c Hn Hc. by destruct (wf_children_lt st h c n Hwf Hn Hc).
Qed.

Section BuiltPaths.
Variable find : string → option Pool.t.
Variable findBy : string → option Pool.t.
Variable Controller : Type.
Variable wrap : Pool.t → option Controller.
Variable calcSpotPrice : Controller → string → string → option string.

Let buildRoot := PoolGraph.buildGraphFromRootPool find findBy Controller
                   wrap calcSpotPrice.

(** X18.  From graph to path.  On a built graph whose nodes all have an
    address, after [orderByBfs], [getNodesToRoot] on the reverse of the
    breadth-first order returns a path for every input token that is the
    address of a node of the graph and is not the address of the root. *)
Theorem getNodesToRoot_on_built_graph
    (fuel : nat) (poolId : string) (wrapMainTokens : bool)
    (st : heap) (root : ref) (st1 : heap) (out : list ref)
    (inputToken : string) (startingIndex : nat) (h : ref) :
  buildRoot fuel poolId wrapMainTokens = Ok (st, root) →
  PoolGraph.orderByBfs st root = Ok (st1, out) →
  addressed st →
  matches st inputToken h →
  ¬ matches st inputToken root →
  ∃ st' path,
    PoolGraph.getNodesToRoot st1 (reverse out) inputToken startingIndex
      = Ok (st', path).
Proof.
  intros Hbuild Hbfs Had Hm Hroot.
  destruct (built_bfs _ _ _ _ _ _ _ _ _ _ Hbuild)
    as (st1' & out' & Hbfs' & _ & Hhd & Hin).
  rewrite Hbfs in Hbfs'. injection Hbfs' as <- <-.
  destruct (buildRoot_parents_first _ _ _ _ _ _ _ _ _ _ Hbuild)
    as (Hwf & Hpf).
  apply orderByBfs_spec in Hbfs as (more & _ & -> & _ & Hmo & _).
  assert (length st1 = length st) as Hlen by by destruct Hmo.
  apply (getNodesToRoot_total st1 _ inputToken startingIndex root).
  - by eapply marks_only_parents_first.
  - eapply closed_marks_only; [done|]. by apply wf_closed.
  - by eapply marks_only_addressed.
  - apply Forall_forall. intros r Hr. rewrite elem_of_reverse in Hr.
    rewrite Hlen. by apply (proj1 (Hin r)).
  - apply Exists_exists. exists h. split.
    + rewrite elem_of_reverse. apply (proj2 (Hin h)).
      destruct Hm as (n & a & Hn & _). by eapply lookup_lt_Some.
    + by apply (marks_only_matches st).
  - by rewrite last_reverse_head.
  - by rewrite (marks_only_matches st).
Qed.
End BuiltPaths.

Lemma buildGraphFromRootPool_numbers_the_nodes_witness :
  0 = 0 ∧
  (∀ h n, Example.tree !! h = Some n → Node.index n = toString h) ∧
  (∀ h1 h2 n1 n2, Example.tree !! h1 = Some n1 →
     Example.tree !! h2 = Some n2 →
     Node.index n1 = Node.index n2 → h1 = h2).
Proof.
  apply (buildGraphFromRootPool_numbers_the_nodes Example.find Example.findBy
           unit Example.wrap Example.calcSpotPrice 8 "id-root" false
           Example.tree 0).
  vm_compute. reflexivity.
Defined.

Lemma buildGraphFromRootPool_links_witness :
  (∃ rn, Example.tree !! 0 = Some rn ∧ Node.parent rn = None ∧
         Node.proportionOfParent rn = WeiPerEther) ∧
  (∀ h n, Example.tree !! h = Some n → h ≠ 0 →
     ∃ p, Node.parent n = Some p ∧ p < h ∧ h ∈ kids Example.tree p) ∧
  (∀ p c, c ∈ kids Example.tree p →
     ∃ cn, Example.tree !! c = Some cn ∧ Node.parent cn = Some p) ∧
  parents_first Example.tree.
Proof.
  apply (buildGraphFromRootPool_links Example.find Example.findBy unit
           Example.wrap Example.calcSpotPrice 8 "id-root" false
           Example.tree 0).
  vm_compute. reflexivity.
Defined.

Lemma orderByBfs_lists_every_node_witness :
  ∃ st' out,
    PoolGraph.orderByBfs Example.tree 0 = Ok (st', out) ∧
    out ≡ₚ seq 0 (length Example.tree) ∧
    head out = Some 0.
Proof.
  apply (orderByBfs_lists_every_node Example.find Example.findBy unit
           Example.wrap Example.calcSpotPrice 8 "id-root" false
           Example.tree 0).
  vm_compute. reflexivity.
Defined.

Lemma buildGraphFromRootPool_kinds_witness :
  ∃ n, Example.tree !! 2 = Some n ∧
    kind Example.findBy false n ∧
    (Node.isLeaf n = true ↔ Node.joinAction n = join_input) ∧
    (Node.isLeaf n = true ↔ Node.type n = "Input"%string) ∧
    (false = false →
     Node.joinAction n = join_input ∨ Node.joinAction n = join_batchSwap ∨
     Node.joinAction n = join_joinPool).
Proof.
  destruct (Example.tree !! 2) as [n|] eqn:Hn; [|by vm_compute in Hn].
  exists n. split; [reflexivity|].
  apply (buildGraphFromRootPool_kinds Example.find Example.findBy unit
           Example.wrap Example.calcSpotPrice 8 "id-root" false
           Example.tree 0 2 n).
  - vm_compute. reflexivity.
  - exact Hn.
Defined.

Lemma tree_addressed : addressed Example.tree.
Proof.
  intros h n Hn. destruct h as [|[|[|[|h]]]]; vm_compute in Hn;
    try discriminate; injection Hn as <-; by eexists.
Qed.

Lemma getNodesToRoot_on_built_graph_witness :
  ∃ st' path,
    PoolGraph.getNodesToRoot Example.orderedTree (reverse [0; 1; 2; 3])
      "0xMAIN" 5 = Ok (st', path).
Proof.
  apply (getNodesToRoot_on_built_graph Example.find Example.findBy unit
           Example.wrap Example.calcSpotPrice 8 "id-root" false
           Example.tree 0 Example.orderedTree [0; 1; 2; 3] "0xMAIN" 5 3).
  - vm_compute. reflexivity.
  - vm_compute. reflexivity.
  - exact tree_addressed.
  - eexists _, _. split_and!; reflexivity.
  - intros (n & a & Hn & Ha & He). vm_compute in Hn. injection Hn as <-.
    injection Ha as <-. discriminate.
Defined.
